(** * Beyblade combination scraper: a shallow embedding of [beyblade_scraper.py]

    The development follows the script's own layering: characters and the
    string helpers the script calls ([str.strip], [str.replace], [str.lower]),
    the backtracking regular-expression engine behind [re.findall], the
    translation table, the record extractor, the page locator, the harvest
    loop and the aggregation.

    Modelling conventions.
    - A Python [str] is a [string]; a character is a code point in the range
      0..255 (Latin-1).  On that range [\d] is [0-9], and [\s] and
      [str.strip] agree on the code points 9-13, 28-32, 133 and 160.
    - A [dict] is the list of its items in insertion order.
    - A [datetime] is an integer number of microseconds on a fixed time line;
      only its order and [timedelta] subtraction are used.
    - The network, the HTML parser and [strptime] are collaborators of the
      script, gathered in the class [Env]. *)

From Stdlib Require Import List String Ascii ZArith NArith Bool Arith Lia.
From Stdlib Require Import Permutation Sorted.
From Stdlib Require DecimalString DecimalNat DecimalFacts.
Import ListNotations.

Local Open Scope list_scope.

(* ================================================================= *)
(** ** Characters *)

Module Char.

Definition code (c : ascii) : N := N_of_ascii c.

Definition between (lo hi : N) (c : ascii) : bool :=
  ((lo <=? code c) && (code c <=? hi))%N.

Definition newline : ascii := "010"%char.
Definition tab : ascii := "009"%char.
Definition space : ascii := " "%char.

Definition is_upper (c : ascii) : bool := between 65 90 c.
Definition is_lower (c : ascii) : bool := between 97 122 c.

(** The class [[A-Za-z]]. *)
Definition is_alpha (c : ascii) : bool := is_upper c || is_lower c.

(** The class [\d]. *)
Definition is_digit (c : ascii) : bool := between 48 57 c.

(** The class [[ \t]]. *)
Definition is_blank (c : ascii) : bool :=
  Ascii.eqb c space || Ascii.eqb c tab.

(** The class [\s], which is also what [str.strip()] removes. *)
Definition is_space (c : ascii) : bool :=
  between 9 13 c || between 28 32 c
  || (code c =? 133)%N || (code c =? 160)%N.

(** [str.lower()] on one character: A-Z and the accented capitals
    192-214, 216-222 move up by 32. *)
Definition lower (c : ascii) : ascii :=
  if is_upper c || between 192 214 c || between 216 222 c
  then ascii_of_N (code c + 32)
  else c.

End Char.

(* ================================================================= *)
(** ** String helpers *)

Module Str.

Definition nl : string := String Char.newline EmptyString.

Definition is_empty (s : string) : bool :=
  match s with EmptyString => true | String _ _ => false end.

(** Truthiness of a [str]: [if s:]. *)
Definition truthy (s : string) : bool := negb (is_empty s).

Fixpoint lstrip (s : string) : string :=
  match s with
  | EmptyString => EmptyString
  | String c t => if Char.is_space c then lstrip t else s
  end.

Fixpoint rstrip (s : string) : string :=
  match s with
  | EmptyString => EmptyString
  | String c t =>
      let t' := rstrip t in
      if is_empty t' && Char.is_space c then EmptyString else String c t'
  end.

(** [s.strip()] *)
Definition strip (s : string) : string := rstrip (lstrip s).

(** [s.replace(' ', '')] *)
Fixpoint remove_spaces (s : string) : string :=
  match s with
  | EmptyString => EmptyString
  | String c t =>
      if Ascii.eqb c Char.space then remove_spaces t
      else String c (remove_spaces t)
  end.

(** [s.lower()] *)
Fixpoint lower (s : string) : string :=
  match s with
  | EmptyString => EmptyString
  | String c t => String (Char.lower c) (lower t)
  end.

(** [ch in s] for a single character [ch]. *)
Fixpoint mem (ch : ascii) (s : string) : bool :=
  match s with
  | EmptyString => false
  | String c t => Ascii.eqb ch c || mem ch t
  end.

End Str.

(* ================================================================= *)
(** ** Counts as text

    [str] of a count and [int] of a cell, on Latin-1 strings. *)

Module Num.

(** [str(n)] for a count. *)
Definition of_nat (n : nat) : string :=
  DecimalString.NilEmpty.string_of_uint (Nat.to_uint n).

(** The shape [int] accepts after the sign: decimal digits, with single
    underscores allowed between two digits. *)
Fixpoint digits_ok (after_digit : bool) (s : string) : bool :=
  match s with
  | EmptyString => after_digit
  | String c t =>
      if Char.is_digit c then digits_ok true t
      else if Ascii.eqb c "_" then after_digit && digits_ok false t
      else false
  end.

Fixpoint remove_underscores (s : string) : string :=
  match s with
  | EmptyString => EmptyString
  | String c t =>
      if Ascii.eqb c "_" then remove_underscores t
      else String c (remove_underscores t)
  end.

(** [int(s)]; [None] on [ValueError]. *)
Definition to_int (s : string) : option Z :=
  let s := Str.strip s in
  let '(negative, body) :=
    match s with
    | String "-" t => (true, t)
    | String "+" t => (false, t)
    | _ => (false, s)
    end in
  if digits_ok false body then
    match DecimalString.NilEmpty.uint_of_string (remove_underscores body) with
    | Some d =>
        let n := Z.of_nat (Nat.of_uint d) in
        Some (if negative then (- n)%Z else n)
    | None => None
    end
  else None.

End Num.

(* ================================================================= *)
(** ** The regular-expression engine behind [re.findall]

    [run r s c] lists every way [r] can match a prefix of the remaining
    input [s], in the order in which the backtracking engine tries them;
    each entry carries the input left over and the capture groups.  The
    engine commits to the first entry.  The pattern of the script uses no
    look-behind, [^] or [\b], so a match at a position depends only on the
    text from that position on. *)

Module Re.

Inductive regex : Type :=
| Chr (cls : ascii -> bool)          (* a literal or a character class *)
| Eol                                (* [$] under [re.MULTILINE] *)
| Seq (r1 r2 : regex)
| Alt (r1 r2 : regex)
| Star (greedy : bool) (r : regex)   (* [r*] and [r*?] *)
| Group (n : nat) (r : regex)        (* capturing group number [n] *)
| Lookahead (r : regex).             (* [(?=r)] *)

(** [r+] *)
Definition plus (r : regex) : regex := Seq r (Star true r).

Definition lit (ch : ascii) : regex := Chr (Ascii.eqb ch).

Definition captures : Type := list (nat * list ascii).
Definition thread : Type := (list ascii * captures)%type.

(** The text matched between the input [s] and what is left of it, [s']. *)
Definition consumed (s s' : list ascii) : list ascii :=
  firstn (List.length s - List.length s') s.

(** Iterations of a starred body.  An iteration that consumes nothing is
    not repeated, so [S (length s)] rounds always suffice. *)
Fixpoint star_loop (body : list ascii -> captures -> list thread)
    (greedy : bool) (fuel : nat) (s : list ascii) (c : captures)
    : list thread :=
  match fuel with
  | O => [(s, c)]
  | S fuel' =>
      let again :=
        flat_map
          (fun t : thread =>
             if List.length (fst t) <? List.length s
             then star_loop body greedy fuel' (fst t) (snd t)
             else [])
          (body s c) in
      if greedy then again ++ [(s, c)] else (s, c) :: again
  end.

Fixpoint run (r : regex) (s : list ascii) (c : captures) : list thread :=
  match r with
  | Chr cls =>
      match s with
      | a :: s' => if cls a then [(s', c)] else []
      | [] => []
      end
  | Eol =>
      match s with
      | [] => [(s, c)]
      | a :: _ => if Ascii.eqb a Char.newline then [(s, c)] else []
      end
  | Seq r1 r2 => flat_map (fun t : thread => run r2 (fst t) (snd t)) (run r1 s c)
  | Alt r1 r2 => run r1 s c ++ run r2 s c
  | Star greedy r1 => star_loop (run r1) greedy (S (List.length s)) s c
  | Group n r1 =>
      map (fun t : thread => (fst t, (n, consumed s (fst t)) :: snd t))
          (run r1 s c)
  | Lookahead r1 =>
      match run r1 s c with
      | [] => []
      | t :: _ => [(s, snd t)]
      end
  end.

(** [pattern.match] at the current position: the first thread. *)
Definition match_here (r : regex) (s : list ascii) : option thread :=
  hd_error (run r s []).

(** [m.group(n)]; a group that took no part reads as the empty string. *)
Fixpoint group (n : nat) (c : captures) : list ascii :=
  match c with
  | [] => []
  | (k, w) :: c' => if Nat.eqb k n then w else group n c'
  end.

(** The scan of [re.findall]: leftmost match, then resume where it ended
    (one character further after an empty match). *)
Fixpoint scan (r : regex) (fuel : nat) (s : list ascii) : list captures :=
  match fuel with
  | O => []
  | S fuel' =>
      match match_here r s with
      | Some (s', c) =>
          c :: (if List.length s' <? List.length s then scan r fuel' s'
                else match s with
                     | [] => []
                     | _ :: t => scan r fuel' t
                     end)
      | None =>
          match s with
          | [] => []
          | _ :: t => scan r fuel' t
          end
      end
  end.

(** [re.findall(r, text)] for a pattern with three groups. *)
Definition findall3 (r : regex) (text : string)
    : list (string * string * string) :=
  let s := list_ascii_of_string text in
  map (fun c => (string_of_list_ascii (group 1 c),
                 string_of_list_ascii (group 2 c),
                 string_of_list_ascii (group 3 c)))
      (scan r (S (List.length s)) s).

End Re.

(* ================================================================= *)
(** ** Translation table *)

(** A [Dict[str, str]]: its items in insertion order. *)
Definition dict : Type := list (string * string).

(** [translations[key]], as an option. *)
Fixpoint dict_get (key : string) (d : dict) : option string :=
  match d with
  | [] => None
  | (k, v) :: d' => if String.eqb k key then Some v else dict_get key d'
  end.

(** The loop [for key, value in translations.items(): if key.lower() ==
    suffix.lower(): return value] of [translate_suffix]. *)
Fixpoint scan_items (suffix : string) (items : dict) : option string :=
  match items with
  | [] => None
  | (key, value) :: rest =>
      if String.eqb (Str.lower key) (Str.lower suffix) then Some value
      else scan_items suffix rest
  end.

Definition translate_suffix (suffix : string) (translations : dict) : string :=
  match dict_get suffix translations with
  | Some v => v
  | None =>
      match scan_items suffix translations with
      | Some value => value
      | None => suffix
      end
  end.

(* ----------------------------------------------------------------- *)
(** *** Loading the table *)

(** [translations[key] = value]: an existing key keeps its place. *)
Fixpoint dict_set (key value : string) (d : dict) : dict :=
  match d with
  | [] => [(key, value)]
  | (k, v) :: d' =>
      if String.eqb k key then (k, value) :: d'
      else (k, v) :: dict_set key value d'
  end.

(** [s.split('\t')] *)
Fixpoint split_tab (s : string) : list string :=
  match s with
  | EmptyString => [EmptyString]
  | String c t =>
      if Ascii.eqb c Char.tab then EmptyString :: split_tab t
      else
        match split_tab t with
        | h :: r => String c h :: r
        | [] => [String c EmptyString]
        end
  end.

(** The entry a line of the file stands for:
    [parts = line.strip().split('\t')], and with at least two parts the
    pair of [parts[0].strip()] and [parts[1].strip()]. *)
Definition parse_line (line : string) : option (string * string) :=
  match split_tab (Str.strip line) with
  | initial :: name :: _ => Some (Str.strip initial, Str.strip name)
  | _ => None
  end.

(** The body of the loop [for line in f]. *)
Definition load_line (translations : dict) (line : string) : dict :=
  match parse_line line with
  | Some (initial, name) => dict_set initial name translations
  | None => translations
  end.

(** [load_translations].  The file is given by the lines that iterating
    over it yields, [None] when no file exists at the path.  On a file
    without any line [next(f)] raises [StopIteration], which the
    [except Exception] clause turns into the empty table. *)
Definition load_translations (file : option (list string)) : dict :=
  match file with
  | None => []
  | Some [] => []
  | Some (_ :: rows) => fold_left load_line rows []
  end.

(* ================================================================= *)
(** ** Record extractor *)

(** What the script reads off a parsed page: the text of every
    [div.post_body], the text of the whole document, the text of every
    [span.post_date], and the page number shown in the pager. *)
Record soup : Type := {
  post_bodies : list string;
  page_text : string;
  post_dates : list string;
  current_page : option Z
}.

Definition triple : Type := (string * string * string)%type.

Module Pattern.
Import Re.

Definition alpha : regex := Chr Char.is_alpha.
Definition blank : regex := Chr Char.is_blank.
Definition digit : regex := Chr Char.is_digit.
Definition space : regex := Chr Char.is_space.

(** [[A-Za-z]+(?:[ \t]+[A-Za-z]+)*], greedy or lazy in its repetition. *)
Definition words (greedy : bool) : regex :=
  Seq (plus alpha) (Star greedy (Seq (plus blank) (plus alpha))).

(** [\d+-\d+] *)
Definition ratio : regex :=
  Seq (plus digit) (Seq (lit "-") (plus digit)).

(** [(?=\s*(?:\n|$|,|\())] *)
Definition terminator : regex :=
  Lookahead
    (Seq (Star true space)
         (Alt (lit Char.newline) (Alt Eol (Alt (lit ",") (lit "("))))).

(** The pattern of [extract_combinations]. *)
Definition pattern : regex :=
  Seq (Group 1 (words true))
    (Seq (plus blank)
      (Seq (Group 2 ratio)
        (Seq (Group 3 (words false)) terminator))).

End Pattern.

(** The body of the loop [for match in matches]: [Some key] when the key is
    appended, [None] when the match is filtered out. *)
Definition finalize (translations : dict) (m : triple) : option triple :=
  let '(g1, g2, g3) := m in
  let part1 := Str.strip g1 in
  let part2 := Str.strip g2 in
  let part3 := Str.strip g3 in
  let part3 :=
    match translations with
    | [] => part3
    | _ :: _ => translate_suffix part3 translations
    end in
  let part1 := Str.remove_spaces part1 in
  let part2 := Str.remove_spaces part2 in
  let part3 := Str.remove_spaces part3 in
  if Str.truthy part1 && Str.truthy part2 && Str.truthy part3 then
    if negb (Str.mem Char.newline part1) && negb (Str.mem Char.newline part2)
       && negb (Str.mem Char.newline part3)
    then Some (part1, part2, part3)
    else None
  else None.

(** Filtering map, the shape of an [append] under an [if]. *)
Fixpoint keep {A B : Type} (f : A -> option B) (l : list A) : list B :=
  match l with
  | [] => []
  | x :: l' =>
      match f x with
      | Some y => y :: keep f l'
      | None => keep f l'
      end
  end.

(** One post: [re.findall] and the loop over its matches. *)
Definition extract_text (translations : dict) (text : string) : list triple :=
  keep (finalize translations) (Re.findall3 Pattern.pattern text).

(** [extract_combinations], on the parsed page. *)
Definition extract_soup (page : soup) (translations : option dict)
    : list triple :=
  let translations := match translations with None => [] | Some t => t end in
  let texts :=
    match post_bodies page with
    | [] => [page_text page]
    | _ :: _ => post_bodies page
    end in
  flat_map (extract_text translations) texts.

(* ================================================================= *)
(** ** Collaborators and the request log *)

(** What [fetch_page] is asked for: a page number or the string ["last"]. *)
Inductive page_ref : Type :=
| PageNum (n : Z)
| PageLast.

Class Env : Type := {
  (** [session.get(url, ...)] followed by [raise_for_status()] and [.text];
      [None] when a [requests.RequestException] is raised. *)
  http_get : page_ref -> option string;
  (** [BeautifulSoup(html, 'html.parser')] and the look-ups made on it. *)
  parse_html : string -> soup;
  (** [datetime.strptime(date_str, fmt)]; [None] on [ValueError]. *)
  strptime : string -> string -> option Z
}.

(** Computations that issue page requests: the state is the list of the
    requests sent so far, oldest first. *)
Definition Net (A : Type) : Type := list page_ref -> A * list page_ref.

Definition ret {A : Type} (x : A) : Net A := fun log => (x, log).

Definition bind {A B : Type} (m : Net A) (f : A -> Net B) : Net B :=
  fun log => let (x, log') := m log in f x log'.

Notation "x <- m ;; f" := (bind m (fun x => f))
  (at level 61, m at next level, right associativity).

(** The value a computation returns when started with an empty log. *)
Definition result {A : Type} (m : Net A) : A := fst (m []).

(** The requests a computation sends. *)
Definition requests {A : Type} (m : Net A) : list page_ref := snd (m []).

Section Scraper.

Context {E : Env}.

Definition fetch_page (page_number : page_ref) : Net string :=
  fun log =>
    (match http_get page_number with
     | Some text => text
     | None => EmptyString
     end,
     log ++ [page_number]).

Definition get_last_page_number : Net (option Z) :=
  html <- fetch_page PageLast ;;
  if negb (Str.truthy html) then ret None
  else ret (current_page (parse_html html)).

(* --------------------------------------------------------------- *)
(** *** Page date index *)

(** [date_str.replace('\xa0', ' ')] *)
Fixpoint replace_nbsp (s : string) : string :=
  match s with
  | EmptyString => EmptyString
  | String c t =>
      String (if Ascii.eqb c "160"%char then Char.space else c)
             (replace_nbsp t)
  end.

Definition parse_forum_date (date_str : string) : option Z :=
  let date_str := Str.strip (replace_nbsp date_str) in
  match strptime date_str "%b. %d, %Y %I:%M %p" with
  | Some d => Some d
  | None => strptime date_str "%b %d, %Y %I:%M %p"
  end.

Definition extract_dates_from_page (html_content : string) : list Z :=
  keep (fun date_elem => parse_forum_date (Str.strip date_elem))
       (post_dates (parse_html html_content)).

(* --------------------------------------------------------------- *)
(** *** Temporal locator *)

(** [range(start, stop, -1)] *)
Definition range_down (start stop : Z) : list Z :=
  map (fun i => start - Z.of_nat i)%Z (seq 0 (Z.to_nat (start - stop))).

(** [range(start, stop)] *)
Definition range_up (start stop : Z) : list Z :=
  map (fun i => start + Z.of_nat i)%Z (seq 0 (Z.to_nat (stop - start))).

Fixpoint insert_date (d : Z) (l : list Z) : list Z :=
  match l with
  | [] => [d]
  | x :: l' => if (d <=? x)%Z then d :: l else x :: insert_date d l'
  end.

(** [dates.sort()] *)
Definition sort_dates (dates : list Z) : list Z :=
  fold_right insert_date [] dates.

(** The body of the [for page_num in range(...)] loop. *)
Fixpoint find_page_loop (target_date : Z) (pages : list Z)
    : Net (option Z) :=
  match pages with
  | [] => ret None
  | page_num :: rest =>
      html <- fetch_page (PageNum page_num) ;;
      if negb (Str.truthy html) then find_page_loop target_date rest
      else
        let dates := extract_dates_from_page html in
        match dates with
        | [] => find_page_loop target_date rest
        | _ :: _ =>
            let dates := sort_dates dates in
            let earliest := hd 0%Z dates in
            let latest := last dates 0%Z in
            if ((earliest <=? target_date) && (target_date <=? latest))%Z
            then ret (Some page_num)
            else find_page_loop target_date rest
        end
  end.

Definition find_page_for_date (target_date start_page max_pages_to_check : Z)
    : Net (option Z) :=
  find_page_loop target_date
    (range_down start_page (start_page - max_pages_to_check)).

(* --------------------------------------------------------------- *)
(** *** Harvest *)

Definition extract_combinations (html_content : string)
    (translations : option dict) : list triple :=
  extract_soup (parse_html html_content) translations.

(** The body of the [for page_num in range(...)] loop; [acc] is
    [all_combinations]. *)
Fixpoint scrape_loop (translations : dict) (pages : list Z)
    (acc : list triple) : Net (list triple) :=
  match pages with
  | [] => ret acc
  | page_num :: rest =>
      html <- fetch_page (PageNum page_num) ;;
      if Str.truthy html
      then scrape_loop translations rest
             (acc ++ extract_combinations html (Some translations))
      else scrape_loop translations rest acc
  end.

(** The [end_page] argument: a page number or the string ["last"]. *)
Inductive end_ref : Type :=
| EndPage (n : Z)
| EndLast.

Definition scrape_multiple_pages (start_page : Z) (end_page : end_ref)
    (translations : option dict) : Net (list triple) :=
  let translations :=
    match translations with None => [] | Some t => t end in
  match end_page with
  | EndLast =>
      actual_end_page <- get_last_page_number ;;
      match actual_end_page with
      | None => ret []
      | Some n =>
          scrape_loop translations (range_up start_page (n + 1)) []
      end
  | EndPage n =>
      scrape_loop translations (range_up start_page (n + 1)) []
  end.

(* --------------------------------------------------------------- *)
(** *** One time window *)

(** [timedelta(days=days)], in microseconds. *)
Definition timedelta_days (days : Z) : Z := (days * 86400000000)%Z.

(** [scrape_time_period]; [now] is what [datetime.now()] reads.  The
    report files written when combinations were found are the functions
    of the aggregation section applied to them; the value returned is
    the start page used. *)
Definition scrape_time_period (now : Z) (days : Z) (translations : dict)
    (last_page_num : Z) (hardcoded_start_page search_start_page : option Z)
    : Net (option Z) :=
  found <-
    match hardcoded_start_page with
    | Some start_page => ret (Some start_page)
    | None =>
        let target_date := (now - timedelta_days days)%Z in
        let search_from :=
          match search_start_page with
          | Some p => p
          | None => last_page_num
          end in
        find_page_for_date target_date search_from 200
    end ;;
  match found with
  | None => ret None
  | Some start_page =>
      combinations <-
        scrape_multiple_pages start_page (EndPage last_page_num)
          (Some translations) ;;
      match combinations with
      | [] => ret None
      | _ :: _ => ret (Some start_page)
      end
  end.

End Scraper.

(* ================================================================= *)
(** ** The run *)

Section Run.

Context {E : Env}.

(** [main].  [file] is the translation file, [now30], [now90] and
    [now_ytd] are what [datetime.now()] reads inside the three windows,
    and [days_since_jan1] is the day count [main] computes for the
    year-to-date window.  The result holds the start pages the three
    windows return, [None] when the run stops because the last page number
    cannot be determined.  The visit [initialize_session] pays to the home
    page is not a page request and leaves no trace in the log. *)
Definition main (file : option (list string))
    (now30 now90 now_ytd days_since_jan1 : Z)
    : Net (option (option Z * option Z * option Z)) :=
  let translations := load_translations file in
  last_page_num <- get_last_page_number ;;
  match last_page_num with
  | None => ret None
  | Some last_page_num =>
      start_page_30days <-
        scrape_time_period now30 30 translations last_page_num None None ;;
      start_page_90days <-
        scrape_time_period now90 90 translations last_page_num None
          start_page_30days ;;
      start_page_ytd <-
        scrape_time_period now_ytd days_since_jan1 translations
          last_page_num (Some 22%Z) None ;;
      ret (Some (start_page_30days, start_page_90days, start_page_ytd))
  end.

End Run.

(* ================================================================= *)
(** ** Aggregation *)

Section Counting.

Context {K : Type} (eqb : K -> K -> bool).

(** [counter[x] += 1]: a key seen before keeps its place, a new key goes
    last. *)
Fixpoint tally (x : K) (c : list (K * nat)) : list (K * nat) :=
  match c with
  | [] => [(x, 1)]
  | (k, n) :: c' =>
      if eqb k x then (k, S n) :: c' else (k, n) :: tally x c'
  end.

(** [Counter(l).items()] *)
Definition Counter (l : list K) : list (K * nat) :=
  fold_left (fun c x => tally x c) l [].

(** Insertion in front of the first entry whose count is not larger. *)
Fixpoint insert_by_count (x : K * nat) (l : list (K * nat))
    : list (K * nat) :=
  match l with
  | [] => [x]
  | y :: l' =>
      if snd x <? snd y then y :: insert_by_count x l' else x :: l
  end.

(** [sorted(items, key=lambda x: x[1], reverse=True)]: a stable sort,
    largest count first. *)
Definition sorted_by_count (items : list (K * nat)) : list (K * nat) :=
  fold_right insert_by_count [] items.

End Counting.

Definition triple_eqb (a b : triple) : bool :=
  let '(a1, a2, a3) := a in
  let '(b1, b2, b3) := b in
  String.eqb a1 b1 && String.eqb a2 b2 && String.eqb a3 b3.

(** A data row of the combinations file, as [csv.reader] yields it. *)
Definition row : Type := list string.

(** The row [save_to_csv] writes for a combination. *)
Definition triple_row (t : triple) : row :=
  let '(a, b, c) := t in [a; b; c].

(** [if len(row) >= 3: combinations.append((row[0], row[1], row[2]))] *)
Definition row_triple (r : row) : option triple :=
  match r with
  | a :: b :: c :: _ => Some (a, b, c)
  | _ => None
  end.

(** The data rows of [generate_combination_counts], given the data rows of
    its input file. *)
Definition generate_combination_counts (rows : list row)
    : list (triple * nat) :=
  let combinations := keep row_triple rows in
  let combo_counts := Counter triple_eqb combinations in
  sorted_by_count combo_counts.

(** The three sections of [generate_summary]: blades, ratchets, bits. *)
Definition generate_summary (rows : list row)
    : list (string * nat) * list (string * nat) * list (string * nat) :=
  let combinations := keep row_triple rows in
  let part1_list := map (fun t : triple => fst (fst t)) combinations in
  let part2_list := map (fun t : triple => snd (fst t)) combinations in
  let part3_list := map (fun t : triple => snd t) combinations in
  (sorted_by_count (Counter String.eqb part1_list),
   sorted_by_count (Counter String.eqb part2_list),
   sorted_by_count (Counter String.eqb part3_list)).

(* ================================================================= *)
(** ** Report files and chart data *)

(** The row [writer.writerow([name, count])] of the summary, as
    [csv.reader] yields it. *)
Definition entry_row (e : string * nat) : row :=
  [fst e; Num.of_nat (snd e)].

(** The rows of the file [generate_summary] writes: three sections, each
    under its header, with a blank row between them. *)
Definition summary_file
    (summary : list (string * nat) * list (string * nat)
               * list (string * nat)) : list row :=
  let '(blades, ratchets, bits) := summary in
  (["Blades"; "Count"]%string :: map entry_row blades)
  ++ [[]]
  ++ (["Ratchets"; "Count"]%string :: map entry_row ratchets)
  ++ [[]]
  ++ (["Bits"; "Count"]%string :: map entry_row bits).

(** The row [writer.writerow([combo[0], combo[1], combo[2], count])]. *)
Definition combo_row (e : triple * nat) : row :=
  let '((blade, ratchet, bit), count) := e in
  [blade; ratchet; bit; Num.of_nat count].

Inductive section_tag : Type := part1 | part2 | part3.

(** [try: data.append((row[0], int(row[1]))) except ...: pass] *)
Definition append_entry (data : list (string * Z)) (name count : string)
    : list (string * Z) :=
  match Num.to_int count with
  | Some n => data ++ [(name, n)]
  | None => data
  end.

(** The loop of [generate_html_charts] over the rows of the summary
    file. *)
Fixpoint read_summary (rows : list row)
    (current_section : option section_tag)
    (part1_data part2_data part3_data : list (string * Z))
    : list (string * Z) * list (string * Z) * list (string * Z) :=
  match rows with
  | [] => (part1_data, part2_data, part3_data)
  | r :: rest =>
      match r with
      | [] | [_] =>
          read_summary rest current_section part1_data part2_data part3_data
      | name :: count :: _ =>
          if String.eqb name "Blades" then
            read_summary rest (Some part1) part1_data part2_data part3_data
          else if String.eqb name "Ratchets" then
            read_summary rest (Some part2) part1_data part2_data part3_data
          else if String.eqb name "Bits" then
            read_summary rest (Some part3) part1_data part2_data part3_data
          else if String.eqb name "Date Range" then
            (part1_data, part2_data, part3_data)
          else
            match current_section with
            | Some part1 =>
                if List.length part1_data <? 10 then
                  read_summary rest current_section
                    (append_entry part1_data name count)
                    part2_data part3_data
                else
                  read_summary rest current_section
                    part1_data part2_data part3_data
            | Some part2 =>
                if List.length part2_data <? 10 then
                  read_summary rest current_section part1_data
                    (append_entry part2_data name count) part3_data
                else
                  read_summary rest current_section
                    part1_data part2_data part3_data
            | Some part3 =>
                if List.length part3_data <? 10 then
                  read_summary rest current_section part1_data part2_data
                    (append_entry part3_data name count)
                else
                  read_summary rest current_section
                    part1_data part2_data part3_data
            | None =>
                read_summary rest current_section
                  part1_data part2_data part3_data
            end
      end
  end.

(** The chart data [generate_html_charts] reads from the rows of the
    summary file. *)
Definition chart_summary_data (file : list row)
    : list (string * Z) * list (string * Z) * list (string * Z) :=
  read_summary file None [] [] [].

(** One row of the combination counts: label and count. *)
Definition combo_entry (r : row) : option (string * Z) :=
  match r with
  | blade :: ratchet :: bit :: count :: _ =>
      match Num.to_int count with
      | Some n => Some ((blade ++ " " ++ ratchet ++ " " ++ bit)%string, n)
      | None => None
      end
  | _ => None
  end.

(** The chart data [generate_html_charts] reads from the data rows of the
    combination-count file: the loop stops after ten rows. *)
Definition chart_combo_data (rows : list row) : list (string * Z) :=
  keep combo_entry (firstn 10 rows).

(* ================================================================= *)
(** ** Specification vocabulary

    The notions the statements below are phrased in.  They are defined
    independently of the loops they describe. *)

Module Spec.

(** [p] holds of some character of [s]. *)
Fixpoint any (p : ascii -> bool) (s : string) : bool :=
  match s with
  | EmptyString => false
  | String c t => p c || any p t
  end.

(** A single contiguous token: no white space anywhere in it. *)
Definition is_token (s : string) : bool := negb (any Char.is_space s).

(** What may follow the first letter of a name; [in_word] tells whether
    the previous character was a letter. *)
Fixpoint name_tail (in_word : bool) (s : string) : bool :=
  match s with
  | EmptyString => in_word
  | String c t =>
      if Char.is_alpha c then name_tail true t
      else if Char.is_blank c then name_tail false t
      else false
  end.

(** A name field, [[A-Za-z]+(?:[ \t]+[A-Za-z]+)*]: one or more words of
    letters separated by runs of blanks. *)
Definition is_name (s : string) : bool :=
  match s with
  | EmptyString => false
  | String c t => Char.is_alpha c && name_tail true t
  end.

(** The further words of a name, each after a run of blanks. *)
Inductive more_words : list ascii -> Prop :=
| more_nil : more_words []
| more_cons (sep w rest : list ascii) :
    sep <> [] -> Forall (fun a => Char.is_blank a = true) sep ->
    w <> [] -> Forall (fun a => Char.is_alpha a = true) w ->
    more_words rest ->
    more_words (sep ++ w ++ rest).

(** The characters of a name: a word and further words. *)
Definition name_chars (b : list ascii) : Prop :=
  exists w more,
    b = w ++ more
    /\ w <> [] /\ Forall (fun a => Char.is_alpha a = true) w
    /\ more_words more.

(** A run of decimal digits. *)
Definition is_number (s : string) : bool :=
  Str.truthy s && negb (any (fun c => negb (Char.is_digit c)) s).

(** A run of blanks, the separator inside a record. *)
Definition is_blanks (s : string) : bool :=
  Str.truthy s && negb (any (fun c => negb (Char.is_blank c)) s).

(** Optional white space. *)
Definition is_padding (s : string) : bool :=
  negb (any (fun c => negb (Char.is_space c)) s).

(** Text in which no record can start: it holds no letter. *)
Definition is_gap (s : string) : bool := negb (any Char.is_alpha s).

(** What may end a record in the middle of a text: a line break, a comma
    or an opening parenthesis. *)
Definition is_terminator (c : ascii) : bool :=
  Ascii.eqb c Char.newline || Ascii.eqb c ","%char || Ascii.eqb c "("%char.

(** The characters a pattern can consume. *)
Fixpoint accepts (r : Re.regex) (a : ascii) : bool :=
  match r with
  | Re.Chr cls => cls a
  | Re.Eol => false
  | Re.Seq r1 r2 => accepts r1 a || accepts r2 a
  | Re.Alt r1 r2 => accepts r1 a || accepts r2 a
  | Re.Star _ r1 => accepts r1 a
  | Re.Group _ r1 => accepts r1 a
  | Re.Lookahead _ => false
  end.

(** The pattern holds no capturing group. *)
Fixpoint group_free (r : Re.regex) : bool :=
  match r with
  | Re.Chr _ | Re.Eol => true
  | Re.Seq r1 r2 | Re.Alt r1 r2 => group_free r1 && group_free r2
  | Re.Star _ r1 => group_free r1
  | Re.Group _ _ => false
  | Re.Lookahead r1 => group_free r1
  end.

(** [r] commits to the thread [t] on input [s]: [t] is the first way the
    engine finds to match [r]. *)
Definition first (r : Re.regex) (s : list ascii) (c : Re.captures)
    (t : Re.thread) : Prop :=
  exists others, Re.run r s c = t :: others.

(** The input is at its end or continues with a character outside the
    class [p]. *)
Definition stops (p : ascii -> bool) (s : list ascii) : Prop :=
  match s with
  | [] => True
  | a :: _ => p a = false
  end.

(** A page whose only post body is [text]. *)
Definition single_post (text : string) : soup :=
  {| post_bodies := [text];
     page_text := text;
     post_dates := [];
     current_page := None |}.

(** Where a record may end: at the end of the text, or before optional
    white space followed by a line break, a comma or an opening
    parenthesis. *)
Definition ends (rest : list ascii) : Prop :=
  rest = []
  \/ exists pad term rest',
       rest = pad ++ term :: rest'
       /\ Forall (fun a => Char.is_space a = true) pad
       /\ is_terminator term = true.

(** The three parts the extractor computes from the groups of a match. *)
Definition parts (translations : dict) (m : triple) : triple :=
  let '(g1, g2, g3) := m in
  (Str.remove_spaces (Str.strip g1),
   Str.remove_spaces (Str.strip g2),
   Str.remove_spaces (translate_suffix (Str.strip g3) translations)).

Definition clean (part : string) : bool :=
  Str.truthy part && negb (Str.mem Char.newline part).

(** No part is empty and no part holds a line break. *)
Definition valid (t : triple) : bool :=
  let '(p1, p2, p3) := t in clean p1 && clean p2 && clean p3.

(** The text blocks of a page: its post bodies, or the whole page text
    when it has none. *)
Definition blocks (page : soup) : list string :=
  match post_bodies page with
  | [] => [page_text page]
  | _ :: _ => post_bodies page
  end.

(** The thread [t] once [tail] is appended to the input. *)
Definition extend (tail : list ascii) (t : Re.thread) : Re.thread :=
  (fst t ++ tail, snd t).

(** [r] matches in front of [tail] exactly as it matches at the end of the
    input: it never consumes a character of [tail] and what it finds does
    not depend on [tail]. *)
Definition line_local (tail : list ascii) (r : Re.regex) : Prop :=
  forall s c, Re.run r (s ++ tail) c = map (extend tail) (Re.run r s c).

(** What the lookahead of the pattern accepts: optional white space, then
    the end of the text or a line break, a comma or an opening
    parenthesis. *)
Definition closes (rest : list ascii) : Prop :=
  exists pad rest',
    rest = pad ++ rest'
    /\ Forall (fun a => Char.is_space a = true) pad
    /\ match rest' with
       | [] => True
       | a :: _ => is_terminator a = true
       end.

(** A table as [load_translations] builds it: no key twice, no empty key,
    keys and values trimmed. *)
Definition table_ok (d : dict) : Prop :=
  NoDup (map fst d)
  /\ forall k v, In (k, v) d ->
       k <> EmptyString /\ Str.strip k = k /\ Str.strip v = v.

(** A name that the chart reader takes for a section header. *)
Definition is_header (name : string) : bool :=
  String.eqb name "Blades" || String.eqb name "Ratchets"
  || String.eqb name "Bits" || String.eqb name "Date Range".

(** The first ten entries of a report, as the charts show them. *)
Definition top10 {K : Type} (report : list (K * nat)) : list (K * Z) :=
  map (fun e => (fst e, Z.of_nat (snd e))) (firstn 10 report).

Definition label (t : triple) : string :=
  let '(blade, ratchet, bit) := t in
  (blade ++ " " ++ ratchet ++ " " ++ bit)%string.

Definition headerless (report : list (string * nat)) : Prop :=
  Forall (fun e => is_header (fst e) = false) report.

(** [key] and [s] are equal once both are lower-cased. *)
Definition ci_match (key s : string) : Prop := Str.lower key = Str.lower s.

(** [s] needs no further translation: every entry whose key matches [s],
    exactly or ignoring case, maps to [s]. *)
Definition settled (d : dict) (s : string) : Prop :=
  forall k v, In (k, v) d -> ci_match k s -> v = s.

Section Tally.

Context {K : Type} (eqb : K -> K -> bool).

(** The distinct elements of [l], each at the place of its first
    occurrence. *)
Fixpoint first_seen (l : list K) : list K :=
  match l with
  | [] => []
  | x :: l' => x :: filter (fun y => negb (eqb x y)) (first_seen l')
  end.

(** How often [k] occurs in [l]. *)
Definition occurrences (k : K) (l : list K) : nat :=
  List.length (filter (eqb k) l).

(** Every distinct element with its number of occurrences, in order of
    first appearance. *)
Definition tallies (l : list K) : list (K * nat) :=
  map (fun k => (k, occurrences k l)) (first_seen l).

(** Larger counts come first. *)
Definition by_count_desc (a b : K * nat) : Prop := snd b <= snd a.

(** The entries of [l] whose count is [n], in the order of [l]. *)
Definition with_count (n : nat) (l : list (K * nat)) : list (K * nat) :=
  filter (fun e => Nat.eqb (snd e) n) l.

End Tally.

(** The elements of [l] up to and including the first one that
    satisfies [f]. *)
Fixpoint upto {A : Type} (f : A -> bool) (l : list A) : list A :=
  match l with
  | [] => []
  | x :: l' => x :: (if f x then [] else upto f l')
  end.

Section Pages.

Context {E : Env}.

(** What [fetch_page] returns for page [p]. *)
Definition page_html (p : Z) : string :=
  match http_get (PageNum p) with
  | Some text => text
  | None => EmptyString
  end.

(** The date range of page [p]: the smallest and the largest timestamp on
    it; none when the fetch failed or no timestamp parses. *)
Definition page_date_range (p : Z) : option (Z * Z) :=
  if Str.truthy (page_html p) then
    match extract_dates_from_page (page_html p) with
    | [] => None
    | d :: ds => Some (fold_right Z.min d ds, fold_right Z.max d ds)
    end
  else None.

(** [earliest <= target <= latest] for the range of page [p]. *)
Definition brackets (target : Z) (p : Z) : bool :=
  match page_date_range p with
  | Some (earliest, latest) =>
      ((earliest <=? target) && (target <=? latest))%Z
  | None => false
  end.

(** Post dates grow with the page number: of two pages that carry dates,
    the later one starts and ends no earlier. *)
Definition monotone_dates : Prop :=
  forall p q e1 l1 e2 l2,
    (p < q)%Z ->
    page_date_range p = Some (e1, l1) ->
    page_date_range q = Some (e2, l2) ->
    (e1 <= e2 /\ l1 <= l2)%Z.

(** The combinations page [p] contributes to a harvest. *)
Definition page_combinations (translations : dict) (p : Z) : list triple :=
  if Str.truthy (page_html p)
  then extract_combinations (page_html p) (Some translations)
  else [].

End Pages.

End Spec.

(* ================================================================= *)
(** ** Sample inputs *)

Module Sample.

Definition one_line : string := "PhoenixWing 1-60R WizardRod 1-60Hexa".

Definition two_lines : string :=
  ("PhoenixWing 1-60R" ++ Str.nl ++ "WizardRod 1-60Hexa")%string.

Definition tabbed : string :=
  ("Phoenix" ++ String Char.tab "Wing 1-60R")%string.

Definition chained_table : dict := [("a", "B"); ("b", "C")]%string.

Definition rows : list row :=
  [["A"; "1-1"; "X"]; ["A"; "1-1"; "X"]; ["B"; "2-2"; "Y"]]%string.

(** A forum of 300 pages, one day per page: page [k] is a document of
    [k] characters whose two posts are dated day [k] and day [k + 1];
    every page holds one combination. *)
Definition day : Z := 86400000000.

Definition filler (n : nat) : string :=
  string_of_list_ascii (repeat "x"%char n).

Definition forum : Env := {|
  http_get := fun ref =>
    match ref with
    | PageNum k =>
        if ((1 <=? k) && (k <=? 300))%Z then Some (filler (Z.to_nat k))
        else None
    | PageLast => Some (filler 300)
    end;
  parse_html := fun html =>
    {| post_bodies := ["Cobalt 3-60F"%string];
       page_text := html;
       post_dates := [html; String "x" html];
       current_page := Some (Z.of_nat (String.length html)) |};
  strptime := fun date_str _ =>
    Some (Z.of_nat (String.length date_str) * day)%Z
|}.

(** A forum that cannot be reached: every request fails. *)
Definition offline : Env := {|
  http_get := fun _ => None;
  parse_html := fun html =>
    {| post_bodies := []; page_text := html; post_dates := [];
       current_page := None |};
  strptime := fun _ _ => None
|}.

End Sample.

(* ================================================================= *)
(** * Proofs *)

(* ================================================================= *)
(** ** Translation table *)

Lemma dict_get_In (key : string) (d : dict) (v : string) :
  dict_get key d = Some v -> In (key, v) d.
Proof.
  induction d as [|[k w] d IH]; simpl; [discriminate|].
  destruct (String.eqb k key) eqn:Hk.
  - intros [= ->]. apply String.eqb_eq in Hk. subst. now left.
  - intros H. right. now apply IH.
Qed.

Lemma dict_get_first (key value : string) (before after : dict) :
  (forall v, ~ In (key, v) before) ->
  dict_get key (before ++ (key, value) :: after) = Some value.
Proof.
  induction before as [|[k w] before IH]; simpl; intros Hb.
  - now rewrite String.eqb_refl.
  - destruct (String.eqb k key) eqn:Hk.
    + apply String.eqb_eq in Hk. subst. exfalso. apply (Hb w). now left.
    + apply IH. intros v Hv. apply (Hb v). now right.
Qed.

Lemma dict_get_absent (key : string) (d : dict) :
  ~ In key (map fst d) -> dict_get key d = None.
Proof.
  induction d as [|[k w] d IH]; simpl; [reflexivity|]. intros H.
  destruct (String.eqb k key) eqn:Hk.
  - apply String.eqb_eq in Hk. exfalso. apply H. now left.
  - apply IH. intros Hin. apply H. now right.
Qed.

Lemma scan_items_In (suffix : string) (d : dict) (v : string) :
  scan_items suffix d = Some v ->
  exists k, In (k, v) d /\ Spec.ci_match k suffix.
Proof.
  induction d as [|[k w] d IH]; simpl; [discriminate|].
  destruct (String.eqb (Str.lower k) (Str.lower suffix)) eqn:Hk.
  - intros [= ->]. exists k. split; [now left|]. now apply String.eqb_eq.
  - intros H. destruct (IH H) as (k' & Hin & Hm). exists k'. split; [now right|assumption].
Qed.

Lemma scan_items_first (suffix key value : string) (before after : dict) :
  Spec.ci_match key suffix ->
  (forall k v, In (k, v) before -> ~ Spec.ci_match k suffix) ->
  scan_items suffix (before ++ (key, value) :: after) = Some value.
Proof.
  intros Hm. induction before as [|[k w] before IH]; simpl; intros Hb.
  - unfold Spec.ci_match in Hm. rewrite Hm. now rewrite String.eqb_refl.
  - destruct (String.eqb (Str.lower k) (Str.lower suffix)) eqn:Hk.
    + apply String.eqb_eq in Hk. exfalso. apply (Hb k w); [now left|exact Hk].
    + apply IH. intros k' v' Hin. apply (Hb k' v'). now right.
Qed.

Lemma scan_items_none (suffix : string) (d : dict) :
  (forall k v, In (k, v) d -> ~ Spec.ci_match k suffix) ->
  scan_items suffix d = None.
Proof.
  induction d as [|[k w] d IH]; simpl; intros Hd; [reflexivity|].
  destruct (String.eqb (Str.lower k) (Str.lower suffix)) eqn:Hk.
  - apply String.eqb_eq in Hk. exfalso. apply (Hd k w); [now left|exact Hk].
  - apply IH. intros k' v' Hin. apply (Hd k' v'). now right.
Qed.

Lemma ci_match_exact_absent (suffix : string) (d : dict) :
  (forall k v, In (k, v) d -> ~ Spec.ci_match k suffix) ->
  ~ In suffix (map fst d).
Proof.
  intros Hd Hin. apply in_map_iff in Hin. destruct Hin as ([k v] & Hk & Hin).
  simpl in Hk. subst k. now apply (Hd suffix v Hin).
Qed.

Lemma translate_suffix_empty (suffix : string) :
  translate_suffix suffix [] = suffix.
Proof. reflexivity. Qed.

(** C4. [translate_suffix] tries the exact, case-sensitive key first: when
    [suffix] is a key, the result is the value stored under it.  When it is
    no key, the result is the value of the first entry, in the insertion
    order of the table, whose key equals [suffix] once both are
    lower-cased.  When no key matches even so, the result is [suffix]
    itself. *)
Theorem translate_suffix_lookup_order (translations : dict) (suffix : string) :
  (forall before value after,
      translations = before ++ (suffix, value) :: after ->
      (forall v, ~ In (suffix, v) before) ->
      translate_suffix suffix translations = value)
  /\ (forall before key value after,
      ~ In suffix (map fst translations) ->
      translations = before ++ (key, value) :: after ->
      Spec.ci_match key suffix ->
      (forall k v, In (k, v) before -> ~ Spec.ci_match k suffix) ->
      translate_suffix suffix translations = value)
  /\ ((forall k v, In (k, v) translations -> ~ Spec.ci_match k suffix) ->
      translate_suffix suffix translations = suffix).
Proof.
  unfold translate_suffix. split; [|split].
  - intros before value after -> Hb. now rewrite dict_get_first.
  - intros before key value after Habs Heq Hm Hb.
    rewrite (dict_get_absent _ _ Habs). subst translations.
    now rewrite (scan_items_first _ _ _ _ _ Hm Hb).
  - intros Hd. rewrite (dict_get_absent _ _ (ci_match_exact_absent _ _ Hd)).
    now rewrite (scan_items_none _ _ Hd).
Qed.

(** C5, as stated: a translation that is no key of the table would be left
    alone by a second translation.  The case-insensitive scan refutes it:
    in the table a -> B, b -> C the string B is no key, yet it is
    translated to C. *)
Lemma translate_suffix_retranslates_non_key :
  ~ (forall (translations : dict) (x : string),
        ~ In (translate_suffix x translations) (map fst translations) ->
        translate_suffix (translate_suffix x translations) translations
        = translate_suffix x translations).
Proof.
  intros H. specialize (H Sample.chained_table "a"%string).
  assert (Hk : ~ In (translate_suffix "a" Sample.chained_table)
                    (map fst Sample.chained_table)).
  { simpl. intros [Hc|[Hc|[]]]; discriminate Hc. }
  specialize (H Hk). vm_compute in H. discriminate H.
Qed.

(** C5, amended.  Translating twice gives the same result as translating
    once whenever the first result is settled: every entry whose key
    matches it, exactly or ignoring case, maps to it. *)
Theorem translate_suffix_idempotent (translations : dict) (x : string) :
  Spec.settled translations (translate_suffix x translations) ->
  translate_suffix (translate_suffix x translations) translations
  = translate_suffix x translations.
Proof.
  set (y := translate_suffix x translations). intros Hs.
  unfold translate_suffix at 1.
  destruct (dict_get y translations) as [v|] eqn:Hg.
  - apply dict_get_In in Hg. now apply (Hs y v).
  - destruct (scan_items y translations) as [v|] eqn:Hsc; [|reflexivity].
    apply scan_items_In in Hsc. destruct Hsc as (k & Hin & Hm).
    now apply (Hs k v).
Qed.

Lemma translate_suffix_idempotent_witness :
  translate_suffix (translate_suffix "HEXA" [("hexa", "Hexa")]%string)
                   [("hexa", "Hexa")]%string
  = translate_suffix "HEXA" [("hexa", "Hexa")]%string.
Proof.
  apply (translate_suffix_idempotent [("hexa", "Hexa")]%string "HEXA"%string).
  intros k v [Hin|[]] _. now inversion Hin.
Defined.

(** C10. The result of [translate_suffix] is the input itself or a value
    stored in the table; the function is total, so it returns for every
    table and every input. *)
Theorem translate_suffix_closed (translations : dict) (suffix : string) :
  translate_suffix suffix translations = suffix
  \/ In (translate_suffix suffix translations) (map snd translations).
Proof.
  unfold translate_suffix.
  destruct (dict_get suffix translations) as [v|] eqn:Hg.
  - right. apply dict_get_In in Hg. now apply (in_map snd) in Hg.
  - destruct (scan_items suffix translations) as [v|] eqn:Hsc; [|now left].
    right. apply scan_items_In in Hsc. destruct Hsc as (k & Hin & _).
    now apply (in_map snd) in Hin.
Qed.

(* ================================================================= *)
(** ** Aggregation *)

Section CountingFacts.

Context {K : Type} (eqb : K -> K -> bool).
Hypothesis eqb_spec : forall a b, eqb a b = true <-> a = b.

Lemma eqb_same (a : K) : eqb a a = true.
Proof. now apply eqb_spec. Qed.

Lemma eqb_swap (a b : K) : eqb a b = eqb b a.
Proof.
  destruct (eqb a b) eqn:H1, (eqb b a) eqn:H2; try reflexivity.
  - apply eqb_spec in H1. subst. now rewrite eqb_same in H2.
  - apply eqb_spec in H2. subst. now rewrite eqb_same in H1.
Qed.

Lemma existsb_filter_keep (p f : K -> bool) (l : list K) :
  (forall z, p z = true -> f z = true) ->
  existsb p (filter f l) = existsb p l.
Proof.
  intros Hpf. induction l as [|z l IH]; simpl; [reflexivity|].
  destruct (f z) eqn:Hf; simpl.
  - now rewrite IH.
  - rewrite IH. destruct (p z) eqn:Hp; [|reflexivity].
    rewrite (Hpf z Hp) in Hf. discriminate.
Qed.

Lemma first_seen_mem (x : K) (l : list K) :
  existsb (fun k => eqb k x) (Spec.first_seen eqb l)
  = existsb (fun k => eqb k x) l.
Proof.
  induction l as [|y l IH]; simpl; [reflexivity|].
  destruct (eqb y x) eqn:Hyx; simpl; [reflexivity|].
  rewrite existsb_filter_keep; [exact IH|].
  intros z Hz. apply eqb_spec in Hz. subst z. now rewrite Hyx.
Qed.

Lemma first_seen_NoDup (l : list K) : NoDup (Spec.first_seen eqb l).
Proof.
  induction l as [|y l IH]; simpl; constructor.
  - intros Hin. apply filter_In in Hin. destruct Hin as [_ Hy].
    now rewrite eqb_same in Hy.
  - now apply NoDup_filter.
Qed.

Lemma first_seen_snoc (l : list K) (x : K) :
  Spec.first_seen eqb (l ++ [x])
  = Spec.first_seen eqb l
    ++ (if existsb (fun k => eqb k x) (Spec.first_seen eqb l)
        then [] else [x]).
Proof.
  induction l as [|y l IH]; simpl; [reflexivity|].
  rewrite IH, filter_app. f_equal.
  destruct (eqb y x) eqn:Hyx; simpl.
  - f_equal.
    destruct (existsb _ (Spec.first_seen eqb l)); simpl; [reflexivity|].
    now rewrite Hyx.
  - f_equal. rewrite existsb_filter_keep.
    + destruct (existsb _ (Spec.first_seen eqb l)); simpl; [reflexivity|].
      now rewrite Hyx.
    + intros z Hz. apply eqb_spec in Hz. subst z. now rewrite Hyx.
Qed.

Lemma occurrences_snoc (k x : K) (l : list K) :
  Spec.occurrences eqb k (l ++ [x])
  = Spec.occurrences eqb k l + (if eqb k x then 1 else 0).
Proof.
  unfold Spec.occurrences. rewrite filter_app, length_app. simpl.
  now destruct (eqb k x).
Qed.

Lemma occurrences_absent (x : K) (l : list K) :
  existsb (fun k => eqb k x) l = false -> Spec.occurrences eqb x l = 0.
Proof.
  unfold Spec.occurrences. induction l as [|y l IH]; simpl; [reflexivity|].
  intros H. apply orb_false_iff in H. destruct H as [Hy Hl].
  rewrite eqb_swap, Hy. now apply IH.
Qed.

Lemma tally_map (ks : list K) (cnt : K -> nat) (x : K) :
  NoDup ks ->
  tally eqb x (map (fun k => (k, cnt k)) ks)
  = map (fun k => (k, cnt k + (if eqb k x then 1 else 0))) ks
    ++ (if existsb (fun k => eqb k x) ks then [] else [(x, 1)]).
Proof.
  induction ks as [|k ks IH]; simpl; intros Hnd; [reflexivity|].
  inversion Hnd as [|? ? Hk Hks]; subst.
  destruct (eqb k x) eqn:Hkx; simpl.
  - rewrite app_nil_r, Nat.add_1_r. f_equal.
    apply map_ext_in. intros k' Hk'.
    destruct (eqb k' x) eqn:Hk'x; [|now rewrite Nat.add_0_r].
    apply eqb_spec in Hkx, Hk'x. subst. contradiction.
  - rewrite Nat.add_0_r. f_equal. now apply IH.
Qed.

Lemma Counter_snoc (l : list K) (x : K) :
  Counter eqb (l ++ [x]) = tally eqb x (Counter eqb l).
Proof. unfold Counter. now rewrite fold_left_app. Qed.

(** [Counter] holds every distinct element with its number of
    occurrences, in order of first appearance. *)
Lemma Counter_tallies (l : list K) : Counter eqb l = Spec.tallies eqb l.
Proof.
  induction l as [|x l IH] using rev_ind; [reflexivity|].
  rewrite Counter_snoc, IH. unfold Spec.tallies.
  rewrite tally_map by apply first_seen_NoDup.
  rewrite first_seen_snoc, map_app. f_equal.
  - apply map_ext. intros k. now rewrite occurrences_snoc.
  - destruct (existsb _ (Spec.first_seen eqb l)) eqn:Hex; simpl; [reflexivity|].
    rewrite occurrences_snoc, eqb_same, occurrences_absent; [reflexivity|].
    now rewrite <- first_seen_mem.
Qed.

Lemma insert_by_count_perm (x : K * nat) (l : list (K * nat)) :
  Permutation (insert_by_count x l) (x :: l).
Proof.
  induction l as [|y l IH]; simpl; [reflexivity|].
  destruct (snd x <? snd y); [|reflexivity].
  rewrite IH. apply perm_swap.
Qed.

Lemma sorted_by_count_perm (l : list (K * nat)) :
  Permutation (sorted_by_count l) l.
Proof.
  induction l as [|x l IH]; simpl; [reflexivity|].
  rewrite insert_by_count_perm. now constructor.
Qed.

Lemma insert_by_count_sorted (x : K * nat) (l : list (K * nat)) :
  StronglySorted Spec.by_count_desc l ->
  StronglySorted Spec.by_count_desc (insert_by_count x l).
Proof.
  induction l as [|y l IH]; simpl; intros Hs.
  - repeat constructor.
  - inversion Hs as [|? ? Hl Hy]; subst.
    destruct (snd x <? snd y) eqn:Hxy.
    + constructor; [now apply IH|].
      apply Nat.ltb_lt in Hxy.
      rewrite Forall_forall in *. intros z Hz.
      apply (Permutation_in _ (insert_by_count_perm x l)) in Hz.
      destruct Hz as [<-|Hz]; [unfold Spec.by_count_desc; lia|now apply Hy].
    + apply Nat.ltb_ge in Hxy. constructor; [assumption|].
      constructor; [exact Hxy|].
      rewrite Forall_forall in *. intros z Hz. specialize (Hy z Hz).
      unfold Spec.by_count_desc in *. lia.
Qed.

Lemma sorted_by_count_sorted (l : list (K * nat)) :
  StronglySorted Spec.by_count_desc (sorted_by_count l).
Proof.
  induction l as [|x l IH]; simpl; [constructor|].
  now apply insert_by_count_sorted.
Qed.

Lemma insert_by_count_stable (n : nat) (x : K * nat) (l : list (K * nat)) :
  Spec.with_count n (insert_by_count x l) = Spec.with_count n (x :: l).
Proof.
  unfold Spec.with_count.
  induction l as [|y l IH]; simpl; [reflexivity|].
  destruct (snd x <? snd y) eqn:Hxy; [|reflexivity].
  simpl. rewrite IH. simpl. apply Nat.ltb_lt in Hxy.
  destruct (Nat.eqb (snd x) n) eqn:Hx, (Nat.eqb (snd y) n) eqn:Hy;
    try reflexivity.
  apply Nat.eqb_eq in Hx, Hy. lia.
Qed.

Lemma sorted_by_count_stable (n : nat) (l : list (K * nat)) :
  Spec.with_count n (sorted_by_count l) = Spec.with_count n l.
Proof.
  induction l as [|x l IH]; simpl; [reflexivity|].
  rewrite insert_by_count_stable. unfold Spec.with_count in *. simpl.
  now rewrite IH.
Qed.

End CountingFacts.

Lemma triple_eqb_spec (a b : triple) : triple_eqb a b = true <-> a = b.
Proof.
  destruct a as [[a1 a2] a3], b as [[b1 b2] b3]. unfold triple_eqb.
  rewrite !andb_true_iff, !String.eqb_eq. split.
  - intros [[-> ->] ->]. reflexivity.
  - intros [= -> -> ->]. auto.
Qed.

(** The three sections of the summary are ordered like the
    combination-count report: descending counts, ties in order of first
    appearance. *)
Lemma generate_summary_order (rows : list row) :
  let '(blades, ratchets, bits) := generate_summary rows in
  StronglySorted Spec.by_count_desc blades
  /\ StronglySorted Spec.by_count_desc ratchets
  /\ StronglySorted Spec.by_count_desc bits.
Proof.
  unfold generate_summary. repeat split; apply sorted_by_count_sorted.
Qed.

(** C8. The rows of the combination-count report are the distinct
    combinations of the input with their numbers of occurrences, ordered by
    descending count; combinations with equal counts stay in the order of
    their first appearance in the input.  On the rows A 1-1 X, A 1-1 X,
    B 2-2 Y the report is A 1-1 X with count 2, then B 2-2 Y with
    count 1. *)
Theorem generate_combination_counts_order (rows : list row) :
  let combinations := keep row_triple rows in
  let report := generate_combination_counts rows in
  StronglySorted Spec.by_count_desc report
  /\ Permutation report (Spec.tallies triple_eqb combinations)
  /\ (forall n, Spec.with_count n report
                = Spec.with_count n (Spec.tallies triple_eqb combinations))
  /\ generate_combination_counts Sample.rows
     = [(("A", "1-1", "X"), 2); (("B", "2-2", "Y"), 1)]%string.
Proof.
  cbv zeta. unfold generate_combination_counts.
  rewrite (Counter_tallies triple_eqb triple_eqb_spec).
  repeat split.
  - apply sorted_by_count_sorted.
  - apply sorted_by_count_perm.
  - intros n. apply sorted_by_count_stable.
Qed.

(* ================================================================= *)
(** ** Page ranges *)

Lemma range_down_nil (start stop : Z) :
  (start <= stop)%Z -> range_down start stop = [].
Proof.
  intros H. unfold range_down.
  replace (Z.to_nat (start - stop)) with 0 by lia. reflexivity.
Qed.

Lemma range_down_cons (start stop : Z) :
  (stop < start)%Z ->
  range_down start stop = start :: range_down (start - 1) stop.
Proof.
  intros H. unfold range_down.
  replace (Z.to_nat (start - stop)) with (S (Z.to_nat (start - 1 - stop)))
    by lia.
  simpl. f_equal; [lia|].
  rewrite <- seq_shift, map_map. apply map_ext. intros i. lia.
Qed.

Lemma range_up_nil (start stop : Z) :
  (stop <= start)%Z -> range_up start stop = [].
Proof.
  intros H. unfold range_up.
  replace (Z.to_nat (stop - start)) with 0 by lia. reflexivity.
Qed.

Lemma range_up_cons (start stop : Z) :
  (start < stop)%Z ->
  range_up start stop = start :: range_up (start + 1) stop.
Proof.
  intros H. unfold range_up.
  replace (Z.to_nat (stop - start)) with (S (Z.to_nat (stop - (start + 1))))
    by lia.
  simpl. f_equal; [lia|].
  rewrite <- seq_shift, map_map. apply map_ext. intros i. lia.
Qed.

Lemma range_up_In (start stop p : Z) :
  In p (range_up start stop) <-> (start <= p < stop)%Z.
Proof.
  unfold range_up. rewrite in_map_iff. split.
  - intros (i & <- & Hi). apply in_seq in Hi. lia.
  - intros H. exists (Z.to_nat (p - start)). split; [lia|].
    apply in_seq. lia.
Qed.

Lemma range_up_ascending (start stop : Z) :
  StronglySorted Z.lt (range_up start stop).
Proof.
  remember (Z.to_nat (stop - start)) as n eqn:Hn.
  revert start Hn. induction n as [|n IH]; intros start Hn.
  - rewrite range_up_nil by lia. constructor.
  - rewrite range_up_cons by lia. constructor.
    + apply IH. lia.
    + apply Forall_forall. intros q Hq. apply range_up_In in Hq. lia.
Qed.

(** The first element of a descending range that satisfies [f]. *)
Lemma find_range_down (f : Z -> bool) (start stop p : Z) :
  find f (range_down start stop) = Some p
  <-> (stop < p <= start)%Z /\ f p = true
      /\ (forall q, (p < q <= start)%Z -> f q = false).
Proof.
  remember (Z.to_nat (start - stop)) as n eqn:Hn.
  revert start Hn. induction n as [|n IH]; intros start Hn.
  - rewrite range_down_nil by lia. simpl. split; [discriminate|].
    intros (H & _). lia.
  - rewrite range_down_cons by lia. simpl.
    destruct (f start) eqn:Hf.
    + split.
      * intros [= <-]. repeat split; try lia; assumption.
      * intros (Hr & Hp & Hq). f_equal.
        destruct (Z.eq_dec p start) as [|Hne]; [congruence|].
        rewrite (Hq start) in Hf by lia. discriminate.
    + rewrite (IH (start - 1)%Z) by lia. split.
      * intros (Hr & Hp & Hq). split; [lia|]. split; [assumption|].
        intros q Hq'. destruct (Z.eq_dec q start) as [->|Hne]; [assumption|].
        apply Hq. lia.
      * intros (Hr & Hp & Hq).
        assert (p <> start) by (intros ->; congruence).
        split; [lia|]. split; [assumption|]. intros q Hq'. apply Hq. lia.
Qed.

Lemma find_range_down_none (f : Z -> bool) (start stop : Z) :
  find f (range_down start stop) = None
  <-> (forall q, (stop < q <= start)%Z -> f q = false).
Proof.
  remember (Z.to_nat (start - stop)) as n eqn:Hn.
  revert start Hn. induction n as [|n IH]; intros start Hn.
  - rewrite range_down_nil by lia. simpl. split; [|reflexivity].
    intros _ q Hq. lia.
  - rewrite range_down_cons by lia. simpl.
    destruct (f start) eqn:Hf.
    + split; [discriminate|]. intros H. rewrite H in Hf by lia. discriminate.
    + rewrite (IH (start - 1)%Z) by lia. split.
      * intros H q Hq. destruct (Z.eq_dec q start) as [->|Hne]; [assumption|].
        apply H. lia.
      * intros H q Hq. apply H. lia.
Qed.

(* ================================================================= *)
(** ** Sorting the dates of a page *)

Lemma fold_min_swap (l : list Z) (a b : Z) :
  Z.min a (fold_right Z.min b l) = Z.min b (fold_right Z.min a l).
Proof. induction l as [|x l IH]; simpl; lia. Qed.

Lemma fold_max_swap (l : list Z) (a b : Z) :
  Z.max a (fold_right Z.max b l) = Z.max b (fold_right Z.max a l).
Proof. induction l as [|x l IH]; simpl; lia. Qed.

Lemma insert_date_hd (d : Z) (l : list Z) :
  hd 0%Z (insert_date d l)
  = match l with [] => d | x :: _ => Z.min d x end.
Proof.
  destruct l as [|x l]; simpl; [reflexivity|].
  destruct (d <=? x)%Z eqn:H; simpl; lia.
Qed.

Lemma insert_date_not_nil (d : Z) (l : list Z) : insert_date d l <> [].
Proof. destruct l as [|x l]; simpl; [|destruct (d <=? x)%Z]; discriminate. Qed.

Lemma sort_dates_hd (d : Z) (ds : list Z) :
  hd 0%Z (sort_dates (d :: ds)) = fold_right Z.min d ds.
Proof.
  revert d. induction ds as [|e ds IH]; intros d; [reflexivity|].
  change (sort_dates (d :: e :: ds))
    with (insert_date d (sort_dates (e :: ds))).
  rewrite insert_date_hd. specialize (IH e).
  destruct (sort_dates (e :: ds)) as [|x l] eqn:Hs.
  - exfalso. revert Hs. apply insert_date_not_nil.
  - simpl in IH. subst x. simpl. apply fold_min_swap.
Qed.

Lemma sort_dates_sorted (l : list Z) : StronglySorted Z.le (sort_dates l).
Proof.
  induction l as [|d l IH]; simpl; [constructor|].
  induction IH as [|x s Hs IHs Hx]; simpl; [repeat constructor|].
  destruct (d <=? x)%Z eqn:Hd.
  - constructor; [now constructor|]. constructor; [lia|].
    rewrite Forall_forall in *. intros y Hy. specialize (Hx y Hy). lia.
  - constructor; [assumption|].
    rewrite Forall_forall in *. intros y Hy.
    assert (Hin : forall s', In y (insert_date d s') -> y = d \/ In y s').
    { clear. induction s' as [|z s' IH']; simpl.
      - intros [H|[]]; auto.
      - destruct (d <=? z)%Z; simpl; intuition. }
    destruct (Hin s Hy) as [->|Hy']; [lia|now apply Hx].
Qed.

Lemma sorted_last_max (x : Z) (l : list Z) :
  StronglySorted Z.le (x :: l) -> (x <= last (x :: l) 0)%Z.
Proof.
  revert x. induction l as [|y l IH]; intros x Hs; [simpl; lia|].
  inversion Hs as [|? ? Hl Hx]; subst.
  change (last (x :: y :: l) 0%Z) with (last (y :: l) 0%Z).
  specialize (IH y Hl). inversion Hx; subst. lia.
Qed.

Lemma insert_date_last (d : Z) (l : list Z) :
  StronglySorted Z.le l ->
  last (insert_date d l) 0%Z
  = match l with [] => d | _ :: _ => Z.max d (last l 0%Z) end.
Proof.
  induction l as [|x l IH]; intros Hs; [reflexivity|].
  simpl insert_date. destruct (d <=? x)%Z eqn:Hd.
  - change (last (d :: x :: l) 0%Z) with (last (x :: l) 0%Z).
    pose proof (sorted_last_max x l Hs). lia.
  - inversion Hs as [|? ? Hl Hx]; subst. specialize (IH Hl).
    assert (Hne := insert_date_not_nil d l).
    destruct (insert_date d l) as [|y s] eqn:Hi; [congruence|].
    change (last (x :: y :: s) 0%Z) with (last (y :: s) 0%Z).
    rewrite IH. destruct l as [|z l]; [simpl; lia|reflexivity].
Qed.

Lemma sort_dates_last (d : Z) (ds : list Z) :
  last (sort_dates (d :: ds)) 0%Z = fold_right Z.max d ds.
Proof.
  revert d. induction ds as [|e ds IH]; intros d; [reflexivity|].
  change (sort_dates (d :: e :: ds))
    with (insert_date d (sort_dates (e :: ds))).
  rewrite insert_date_last by apply sort_dates_sorted.
  specialize (IH e).
  destruct (sort_dates (e :: ds)) as [|x l] eqn:Hs.
  - exfalso. revert Hs. apply insert_date_not_nil.
  - rewrite IH. simpl. apply fold_max_swap.
Qed.

(* ================================================================= *)
(** ** Temporal locator and harvest *)

Section ScraperFacts.

Context {E : Env}.

Lemma fetch_page_run (p : Z) (log : list page_ref) :
  fetch_page (PageNum p) log = (Spec.page_html p, log ++ [PageNum p]).
Proof. reflexivity. Qed.

(** The test the loop performs on a page is the bracketing test on the
    page's date range. *)
Lemma brackets_unfold (target p : Z) :
  Spec.brackets target p
  = if Str.truthy (Spec.page_html p) then
      match extract_dates_from_page (Spec.page_html p) with
      | [] => false
      | d :: ds =>
          ((hd 0 (sort_dates (d :: ds)) <=? target)
           && (target <=? last (sort_dates (d :: ds)) 0))%Z
      end
    else false.
Proof.
  unfold Spec.brackets, Spec.page_date_range.
  destruct (Str.truthy (Spec.page_html p)); [|reflexivity].
  destruct (extract_dates_from_page (Spec.page_html p)) as [|d ds];
    [reflexivity|].
  now rewrite sort_dates_hd, sort_dates_last.
Qed.

Lemma find_page_loop_spec (target : Z) (pages : list Z)
    (log : list page_ref) :
  find_page_loop target pages log
  = (find (Spec.brackets target) pages,
     log ++ map PageNum (Spec.upto (Spec.brackets target) pages)).
Proof.
  revert log. induction pages as [|p pages IH]; intros log.
  - simpl. unfold ret. now rewrite app_nil_r.
  - simpl find_page_loop. unfold bind. rewrite fetch_page_run.
    simpl find. simpl Spec.upto. rewrite brackets_unfold.
    destruct (Str.truthy (Spec.page_html p)); simpl negb; cbv iota.
    + destruct (extract_dates_from_page (Spec.page_html p)) as [|d ds].
      * rewrite IH. now rewrite <- app_assoc.
      * cbv zeta.
        destruct ((hd 0 (sort_dates (d :: ds)) <=? target)
                  && (target <=? last (sort_dates (d :: ds)) 0))%Z.
        -- reflexivity.
        -- rewrite IH. now rewrite <- app_assoc.
    + rewrite IH. now rewrite <- app_assoc.
Qed.

Lemma find_page_for_date_result (target start max : Z) :
  result (find_page_for_date target start max)
  = find (Spec.brackets target) (range_down start (start - max)).
Proof.
  unfold result, find_page_for_date. now rewrite find_page_loop_spec.
Qed.

Lemma scrape_loop_spec (translations : dict) (pages : list Z)
    (acc : list triple) (log : list page_ref) :
  scrape_loop translations pages acc log
  = (acc ++ flat_map (Spec.page_combinations translations) pages,
     log ++ map PageNum pages).
Proof.
  revert acc log. induction pages as [|p pages IH]; intros acc log.
  - simpl. unfold ret. now rewrite !app_nil_r.
  - simpl scrape_loop. unfold bind. rewrite fetch_page_run.
    simpl flat_map. simpl map. unfold Spec.page_combinations at 1.
    destruct (Str.truthy (Spec.page_html p)).
    + rewrite IH. now rewrite <- !app_assoc.
    + rewrite IH. now rewrite <- app_assoc.
Qed.

Lemma scrape_time_period_result (now days : Z) (translations : dict)
    (last_page_num : Z) (hint : option Z) :
  result (scrape_time_period now days translations last_page_num None hint)
  = match
      result (find_page_for_date (now - timedelta_days days)
                (match hint with Some p => p | None => last_page_num end)
                200)
    with
    | None => None
    | Some start_page =>
        match
          flat_map (Spec.page_combinations translations)
                   (range_up start_page (last_page_num + 1))
        with
        | [] => None
        | _ :: _ => Some start_page
        end
    end.
Proof.
  unfold result, scrape_time_period, bind, find_page_for_date.
  rewrite !find_page_loop_spec. cbn [fst].
  destruct (find _ _) as [sp|]; [|reflexivity].
  unfold scrape_multiple_pages. rewrite scrape_loop_spec. cbn [app].
  now destruct (flat_map _ _).
Qed.

(** Searching from the start page of a shorter window finds the page that
    the search from the last page finds. *)
Lemma find_from_hint (t1 t2 last_page s1 p2 budget : Z) :
  Spec.monotone_dates ->
  (t2 <= t1)%Z ->
  result (find_page_for_date t1 last_page budget) = Some s1 ->
  result (find_page_for_date t2 last_page budget) = Some p2 ->
  result (find_page_for_date t2 s1 budget) = Some p2.
Proof.
  intros Hmono Ht. rewrite !find_page_for_date_result, !find_range_down.
  intros (Hr1 & Hb1 & Hq1) (Hr2 & Hb2 & Hq2).
  assert (Hle : (p2 <= s1)%Z).
  { destruct (Z_le_gt_dec p2 s1) as [|Hgt]; [assumption|exfalso].
    assert (Hn : Spec.brackets t1 p2 = false) by (apply Hq1; lia).
    unfold Spec.brackets in Hb1, Hb2, Hn.
    destruct (Spec.page_date_range s1) as [[e1 l1]|] eqn:R1; [|discriminate].
    destruct (Spec.page_date_range p2) as [[e2 l2]|] eqn:R2; [|discriminate].
    assert (Hs : (s1 < p2)%Z) by lia.
    destruct (Hmono s1 p2 e1 l1 e2 l2 Hs R1 R2) as [He Hl].
    apply andb_true_iff in Hb1, Hb2. apply andb_false_iff in Hn.
    rewrite !Z.leb_le in Hb1, Hb2. rewrite !Z.leb_gt in Hn. lia. }
  split; [lia|]. split; [assumption|]. intros q Hq. apply Hq2. lia.
Qed.

(** C2. [find_page_for_date] probes [start_page], [start_page - 1], ...,
    [start_page - max_pages_to_check + 1] in that order and stops at the
    first page whose date range brackets the target date, both ends
    included; that page is the result.  A page without a parsable
    timestamp does not end the search.  When no probed page brackets the
    target date, every page of the budget is probed and the result is
    [None]. *)
Theorem find_page_for_date_first_bracket (target start max : Z) :
  let probes := range_down start (start - max) in
  let search := find_page_for_date target start max in
  probes = map (fun i => start - Z.of_nat i)%Z (seq 0 (Z.to_nat max))
  /\ requests search = map PageNum (Spec.upto (Spec.brackets target) probes)
  /\ (forall p,
        result search = Some p
        <-> (start - max < p <= start)%Z
            /\ Spec.brackets target p = true
            /\ (forall q, (p < q <= start)%Z -> Spec.brackets target q = false))
  /\ (result search = None
      <-> (forall q, (start - max < q <= start)%Z ->
                     Spec.brackets target q = false))
  /\ (result search = None -> requests search = map PageNum probes)
  /\ ((0 < max)%Z ->
      extract_dates_from_page (Spec.page_html start) = [] ->
      result search = result (find_page_for_date target (start - 1) (max - 1))).
Proof.
  cbv zeta. rewrite !find_page_for_date_result.
  unfold requests, find_page_for_date. rewrite find_page_loop_spec.
  cbn [snd app].
  split; [|split; [|split; [|split; [|split]]]].
  - unfold range_down. do 2 f_equal. lia.
  - reflexivity.
  - intros p. apply find_range_down.
  - apply find_range_down_none.
  - intros Hnone. f_equal.
    induction (range_down start (start - max)) as [|x l IH]; [reflexivity|].
    simpl in *. destruct (Spec.brackets target x); [discriminate|].
    f_equal. now apply IH.
  - intros Hmax Hdates. rewrite range_down_cons by lia. simpl.
    assert (Hb : Spec.brackets target start = false).
    { rewrite brackets_unfold, Hdates.
      now destruct (Str.truthy (Spec.page_html start)). }
    rewrite Hb. do 2 f_equal. lia.
Qed.

(** C3, amended.  With page dates monotone in the page number and the
    target date of the longer window no later than that of the shorter
    one, a window scrape that starts its search at the start page found
    for the shorter window returns the same start page as the scrape that
    searches from the last page, provided the search from the last page
    finds a page within its 200 probes. *)
Theorem search_hint_keeps_start_page (now1 days1 now2 days2 : Z)
    (translations : dict) (last_page_num s1 : Z) :
  Spec.monotone_dates ->
  (now2 - timedelta_days days2 <= now1 - timedelta_days days1)%Z ->
  result (scrape_time_period now1 days1 translations last_page_num None None)
  = Some s1 ->
  result (find_page_for_date (now2 - timedelta_days days2) last_page_num 200)
  <> None ->
  result (scrape_time_period now2 days2 translations last_page_num None
            (Some s1))
  = result (scrape_time_period now2 days2 translations last_page_num None
              None).
Proof.
  intros Hmono Ht Hw1 Hfound.
  rewrite scrape_time_period_result in Hw1.
  destruct (result (find_page_for_date (now1 - timedelta_days days1)
                      last_page_num 200)) as [p1|] eqn:H1; [|discriminate].
  assert (p1 = s1) by (destruct (flat_map _ _); congruence). subst p1.
  rewrite !scrape_time_period_result.
  destruct (result (find_page_for_date (now2 - timedelta_days days2)
                      last_page_num 200)) as [p2|] eqn:H2; [|congruence].
  now rewrite (find_from_hint _ _ _ _ _ _ Hmono Ht H1 H2).
Qed.

(** C9. The harvest over pages [start_page .. end_page] requests every
    page of the range, in ascending order, whether or not earlier requests
    failed.  Its result is the concatenation, in that order, of what each
    page contributes: the extraction of its content when [fetch_page]
    returned some, nothing when the fetch failed. *)
Theorem scrape_multiple_pages_skips_failures (start_page end_page : Z)
    (translations : option dict) :
  let table := match translations with None => [] | Some t => t end in
  let pages := range_up start_page (end_page + 1) in
  let harvest :=
    scrape_multiple_pages start_page (EndPage end_page) translations in
  result harvest
  = flat_map (fun p => extract_combinations (Spec.page_html p) (Some table))
             (filter (fun p => Str.truthy (Spec.page_html p)) pages)
  /\ result harvest = flat_map (Spec.page_combinations table) pages
  /\ requests harvest = map PageNum pages
  /\ StronglySorted Z.lt pages
  /\ (forall p, In p pages <-> (start_page <= p <= end_page)%Z)
  /\ (forall p, http_get (PageNum p) = None ->
                Spec.page_combinations table p = []).
Proof.
  cbv zeta. unfold result, requests, scrape_multiple_pages.
  rewrite scrape_loop_spec. cbn [fst snd app].
  split; [|split; [|split; [|split; [|split]]]].
  - induction (range_up start_page (end_page + 1)) as [|p l IH];
      [reflexivity|].
    simpl. unfold Spec.page_combinations at 1.
    destruct (Str.truthy (Spec.page_html p)); simpl; now rewrite IH.
  - reflexivity.
  - reflexivity.
  - apply range_up_ascending.
  - intros p. rewrite range_up_In. lia.
  - intros p Hp. unfold Spec.page_combinations, Spec.page_html.
    now rewrite Hp.
Qed.

End ScraperFacts.

(* ================================================================= *)
(** ** The sample forum *)

Lemma filler_S (n : nat) :
  Sample.filler (S n) = String "x" (Sample.filler n).
Proof. reflexivity. Qed.

Lemma filler_length (n : nat) : String.length (Sample.filler n) = n.
Proof. induction n as [|n IH]; [reflexivity|]. rewrite filler_S. simpl. now rewrite IH. Qed.

Lemma filler_rstrip (n : nat) : Str.rstrip (Sample.filler n) = Sample.filler n.
Proof.
  induction n as [|n IH]; [reflexivity|]. rewrite filler_S. simpl.
  rewrite IH. now rewrite andb_false_r.
Qed.

Lemma filler_strip (n : nat) : Str.strip (Sample.filler n) = Sample.filler n.
Proof.
  unfold Str.strip. destruct n as [|n]; [reflexivity|].
  rewrite filler_S. simpl Str.lstrip. rewrite <- filler_S. apply filler_rstrip.
Qed.

Lemma filler_replace_nbsp (n : nat) :
  replace_nbsp (Sample.filler n) = Sample.filler n.
Proof.
  induction n as [|n IH]; [reflexivity|]. rewrite filler_S. simpl.
  now rewrite IH.
Qed.

Lemma forum_dates (n : nat) :
  @extract_dates_from_page Sample.forum (Sample.filler n)
  = [(Z.of_nat n * Sample.day)%Z; (Z.of_nat (S n) * Sample.day)%Z].
Proof.
  unfold extract_dates_from_page, parse_forum_date. cbn [parse_html post_dates Sample.forum keep strptime].
  rewrite <- filler_S.
  rewrite !filler_strip, !filler_replace_nbsp, !filler_strip.
  now rewrite !filler_length.
Qed.

Lemma forum_page_date_range (p : Z) :
  @Spec.page_date_range Sample.forum p
  = if ((1 <=? p) && (p <=? 300))%Z
    then Some (p * Sample.day, (p + 1) * Sample.day)%Z
    else None.
Proof.
  unfold Spec.page_date_range, Spec.page_html.
  cbn [http_get Sample.forum].
  destruct ((1 <=? p) && (p <=? 300))%Z eqn:Hp; [|reflexivity].
  apply andb_true_iff in Hp. rewrite !Z.leb_le in Hp.
  rewrite forum_dates.
  destruct (Z.to_nat p) as [|n] eqn:Hn; [lia|].
  rewrite filler_S. cbn [Str.truthy Str.is_empty negb fold_right].
  f_equal. unfold Sample.day. f_equal; lia.
Qed.

Lemma forum_monotone : @Spec.monotone_dates Sample.forum.
Proof.
  intros p q e1 l1 e2 l2 Hpq. rewrite !forum_page_date_range.
  destruct ((1 <=? p) && (p <=? 300))%Z; [|discriminate].
  destruct ((1 <=? q) && (q <=? 300))%Z; [|discriminate].
  intros [= <- <-] [= <- <-]. unfold Sample.day. lia.
Qed.

Lemma search_hint_keeps_start_page_witness :
  result (@scrape_time_period Sample.forum (300 * Sample.day) 100 [] 300
            None (Some 250%Z))
  = result (@scrape_time_period Sample.forum (300 * Sample.day) 100 [] 300
              None None).
Proof.
  apply (@search_hint_keeps_start_page Sample.forum
           (300 * Sample.day) 50 (300 * Sample.day) 100 [] 300 250).
  - exact forum_monotone.
  - vm_compute. discriminate.
  - vm_compute. reflexivity.
  - vm_compute. discriminate.
Defined.

(** C3, as stated: with monotone page dates and nested windows, the hinted
    and the unhinted window scrape return the same start page.  On the
    sample forum of 300 pages the 50-day window starts on page 250; the
    240-day window starts on page 60, which the 200 probes from page 250
    reach and the 200 probes from page 300 do not. *)
Lemma search_hint_changes_result :
  ~ (forall (E : Env) (now1 days1 now2 days2 : Z) (translations : dict)
            (last_page_num s1 : Z),
        Spec.monotone_dates ->
        (now2 - timedelta_days days2 <= now1 - timedelta_days days1)%Z ->
        result (scrape_time_period now1 days1 translations last_page_num
                  None None) = Some s1 ->
        result (scrape_time_period now2 days2 translations last_page_num
                  None (Some s1))
        = result (scrape_time_period now2 days2 translations last_page_num
                    None None)).
Proof.
  intros H.
  specialize (H Sample.forum (300 * Sample.day)%Z 50%Z
                (300 * Sample.day)%Z 240%Z [] 300%Z 250%Z forum_monotone).
  assert (Ht : (300 * Sample.day - timedelta_days 240
                <= 300 * Sample.day - timedelta_days 50)%Z)
    by (vm_compute; discriminate).
  specialize (H Ht). clear Ht.
  assert (H1 : result (@scrape_time_period Sample.forum (300 * Sample.day)
                         50 [] 300 None None) = Some 250%Z)
    by (vm_compute; reflexivity).
  specialize (H H1). clear H1.
  vm_compute in H. discriminate H.
Qed.

(* ================================================================= *)
(** ** The regular-expression engine *)

Section EngineFacts.

Import Re.

Lemma consumed_app (w s' : list ascii) : consumed (w ++ s') s' = w.
Proof.
  unfold consumed. rewrite length_app.
  replace (List.length w + List.length s' - List.length s')
    with (List.length w) by lia.
  rewrite firstn_app, firstn_all, Nat.sub_diag. simpl. apply app_nil_r.
Qed.

Lemma flat_map_nil {A B : Type} (f : A -> list B) (l : list A) :
  (forall x, In x l -> f x = []) -> flat_map f l = [].
Proof.
  induction l as [|x l IH]; simpl; intros H; [reflexivity|].
  rewrite (H x) by now left. apply IH. intros y Hy. apply H. now right.
Qed.

(** Every thread of a starred body has consumed characters the body
    accepts and, for a body without groups, carries the captures it
    started with. *)
Lemma star_loop_threads (body : list ascii -> captures -> list thread)
    (P : ascii -> Prop) (keeps : bool) (greedy : bool) :
  (forall s c t, In t (body s c) ->
     (exists w, s = w ++ fst t /\ Forall P w)
     /\ (keeps = true -> snd t = c)) ->
  forall fuel s c t, In t (star_loop body greedy fuel s c) ->
     (exists w, s = w ++ fst t /\ Forall P w)
     /\ (keeps = true -> snd t = c).
Proof.
  intros Hbody. induction fuel as [|fuel IH]; intros s c t Hin.
  - simpl in Hin. destruct Hin as [<-|[]]. simpl.
    split; [now exists []|reflexivity].
  - simpl in Hin.
    assert (Hcases :
      t = (s, c)
      \/ In t (flat_map
                 (fun t0 : thread =>
                    if List.length (fst t0) <? List.length s
                    then star_loop body greedy fuel (fst t0) (snd t0)
                    else [])
                 (body s c))).
    { destruct greedy.
      - apply in_app_or in Hin. destruct Hin as [H|[H|[]]]; auto.
      - destruct Hin as [H|H]; auto. }
    destruct Hcases as [->|Hin'].
    + simpl. split; [now exists []|reflexivity].
    + apply in_flat_map in Hin'. destruct Hin' as (t0 & Ht0 & Ht).
      destruct (List.length (fst t0) <? List.length s); [|destruct Ht].
      destruct (Hbody _ _ _ Ht0) as ((w0 & Hs0 & Hw0) & Hc0).
      destruct (IH _ _ _ Ht) as ((w1 & Hs1 & Hw1) & Hc1).
      split.
      * exists (w0 ++ w1). split.
        -- rewrite Hs0 at 1. rewrite Hs1 at 1. now rewrite app_assoc.
        -- apply Forall_app. now split.
      * intros Hk. rewrite (Hc1 Hk). now apply Hc0.
Qed.

Lemma Forall_accepts_l (f g : ascii -> bool) (w : list ascii) :
  Forall (fun a => f a = true) w -> Forall (fun a => f a || g a = true) w.
Proof. apply Forall_impl. intros a ->. reflexivity. Qed.

Lemma Forall_accepts_r (f g : ascii -> bool) (w : list ascii) :
  Forall (fun a => g a = true) w -> Forall (fun a => f a || g a = true) w.
Proof. apply Forall_impl. intros a ->. apply orb_true_r. Qed.

Lemma run_threads (r : regex) (s : list ascii) (c : captures) (t : thread) :
  In t (run r s c) ->
  (exists w, s = w ++ fst t /\ Forall (fun a => Spec.accepts r a = true) w)
  /\ (Spec.group_free r = true -> snd t = c).
Proof.
  revert s c t.
  induction r as [cls| |r1 IH1 r2 IH2|r1 IH1 r2 IH2|g r1 IH1|n r1 IH1|r1 IH1];
    intros s c t Hin.
  - destruct s as [|a s]; simpl in Hin; [destruct Hin|].
    destruct (cls a) eqn:Ha; [|destruct Hin]. destruct Hin as [<-|[]].
    simpl. split; [|reflexivity]. exists [a]. split; [reflexivity|].
    now constructor.
  - assert (Ht : t = (s, c)).
    { destruct s as [|a s]; simpl in Hin.
      - now destruct Hin as [<-|[]].
      - destruct (Ascii.eqb a Char.newline); [|destruct Hin].
        now destruct Hin as [<-|[]]. }
    subst t. simpl. split; [now exists []|reflexivity].
  - simpl in Hin. apply in_flat_map in Hin. destruct Hin as (t1 & Ht1 & Ht).
    destruct (IH1 _ _ _ Ht1) as ((w1 & Hs1 & Hw1) & Hc1).
    destruct (IH2 _ _ _ Ht) as ((w2 & Hs2 & Hw2) & Hc2).
    split.
    + exists (w1 ++ w2). split.
      * rewrite Hs1 at 1. rewrite Hs2 at 1. now rewrite app_assoc.
      * apply Forall_app. split;
          [now apply Forall_accepts_l|now apply Forall_accepts_r].
    + simpl. intros Hg. apply andb_true_iff in Hg. destruct Hg as [G1 G2].
      rewrite (Hc2 G2). now apply Hc1.
  - simpl in Hin. apply in_app_or in Hin. destruct Hin as [Hin|Hin].
    + destruct (IH1 _ _ _ Hin) as ((w & Hs & Hw) & Hc). split.
      * exists w. split; [assumption|now apply Forall_accepts_l].
      * simpl. intros Hg. apply andb_true_iff in Hg. now apply Hc.
    + destruct (IH2 _ _ _ Hin) as ((w & Hs & Hw) & Hc). split.
      * exists w. split; [assumption|now apply Forall_accepts_r].
      * simpl. intros Hg. apply andb_true_iff in Hg. now apply Hc.
  - change (In t (star_loop (run r1) g (S (List.length s)) s c)) in Hin.
    apply (star_loop_threads (run r1) (fun a => Spec.accepts r1 a = true)
             (Spec.group_free r1) g) in Hin; [exact Hin|].
    intros s0 c0 t0 H0. exact (IH1 _ _ _ H0).
  - simpl in Hin. apply in_map_iff in Hin. destruct Hin as (t1 & <- & Ht1).
    destruct (IH1 _ _ _ Ht1) as ((w & Hs & Hw) & _). simpl.
    split; [|discriminate]. now exists w.
  - simpl in Hin. destruct (run r1 s c) as [|t1 l] eqn:Hrun; [destruct Hin|].
    destruct Hin as [<-|[]]. simpl. split; [now exists []|].
    intros Hg. apply (IH1 s c t1); [|assumption]. rewrite Hrun. now left.
Qed.

Lemma run_Seq_In (r1 r2 : regex) (s : list ascii) (c : captures)
    (t : thread) :
  In t (run (Seq r1 r2) s c)
  <-> exists t1, In t1 (run r1 s c) /\ In t (run r2 (fst t1) (snd t1)).
Proof. simpl. apply in_flat_map. Qed.

Lemma run_Group_In (n : nat) (r : regex) (s : list ascii) (c : captures)
    (t : thread) :
  In t (run (Group n r) s c)
  <-> exists t1, In t1 (run r s c)
                 /\ t = (fst t1, (n, consumed s (fst t1)) :: snd t1).
Proof.
  simpl. rewrite in_map_iff. split; intros (t1 & H1 & H2); exists t1; auto.
Qed.

(** The groups of a match of the script's pattern hold only characters
    their sub-patterns accept. *)
Lemma pattern_threads (s : list ascii) (t : thread) :
  In t (run Pattern.pattern s []) ->
  exists g1 g2 g3,
    snd t = [(3, g3); (2, g2); (1, g1)]
    /\ Forall (fun a => Spec.accepts (Pattern.words true) a = true) g1
    /\ Forall (fun a => Spec.accepts Pattern.ratio a = true) g2
    /\ Forall (fun a => Spec.accepts (Pattern.words false) a = true) g3.
Proof.
  unfold Pattern.pattern. intros Hin.
  apply run_Seq_In in Hin. destruct Hin as (t1 & H1 & Hin).
  apply run_Group_In in H1. destruct H1 as (u1 & Hu1 & ->).
  apply run_Seq_In in Hin. destruct Hin as (t2 & H2 & Hin).
  apply run_Seq_In in Hin. destruct Hin as (t3 & H3 & Hin).
  apply run_Group_In in H3. destruct H3 as (u3 & Hu3 & ->).
  apply run_Seq_In in Hin. destruct Hin as (t4 & H4 & Hin).
  apply run_Group_In in H4. destruct H4 as (u4 & Hu4 & ->).
  apply run_threads in Hu1, H2, Hu3, Hu4, Hin.
  destruct Hu1 as ((g1 & Hs1 & Hg1) & Hc1). specialize (Hc1 eq_refl).
  destruct H2 as (_ & Hc2). specialize (Hc2 eq_refl).
  destruct Hu3 as ((g2 & Hs2 & Hg2) & Hc3). specialize (Hc3 eq_refl).
  destruct Hu4 as ((g3 & Hs3 & Hg3) & Hc4). specialize (Hc4 eq_refl).
  destruct Hin as (_ & Hc5). specialize (Hc5 eq_refl).
  cbn [fst snd] in *.
  exists g1, g2, g3. rewrite Hc5, Hc4, Hc3, Hc2, Hc1.
  rewrite Hs1 at 1. rewrite Hs2 at 1. rewrite Hs3 at 1.
  rewrite !consumed_app. auto.
Qed.

Lemma scan_In (r : regex) (fuel : nat) (s : list ascii) (c : captures) :
  In c (scan r fuel s) -> exists s0 s', In (s', c) (run r s0 []).
Proof.
  revert s. induction fuel as [|fuel IH]; intros s; simpl; [intros []|].
  unfold match_here.
  destruct (run r s []) as [|[s' c'] l] eqn:Hrun; simpl.
  - destruct s as [|a s]; [intros []|]. apply IH.
  - intros [<-|Hin].
    + exists s, s'. rewrite Hrun. now left.
    + destruct (List.length s' <? List.length s); [now apply IH in Hin|].
      destruct s as [|a s]; [destruct Hin|now apply IH in Hin].
Qed.

End EngineFacts.

(* ================================================================= *)
(** ** Strings and lists of characters *)

Lemma list_of_string_app (a b : string) :
  list_ascii_of_string (a ++ b)
  = list_ascii_of_string a ++ list_ascii_of_string b.
Proof. induction a as [|c a IH]; simpl; [reflexivity|]. now rewrite IH. Qed.

Lemma any_existsb (p : ascii -> bool) (s : string) :
  Spec.any p s = existsb p (list_ascii_of_string s).
Proof. induction s as [|c s IH]; simpl; [reflexivity|]. now rewrite IH. Qed.

Lemma mem_any (ch : ascii) (s : string) : Str.mem ch s = Spec.any (Ascii.eqb ch) s.
Proof. induction s as [|c s IH]; simpl; [reflexivity|]. now rewrite IH. Qed.

Lemma all_Forall (p : ascii -> bool) (s : string) :
  Spec.any (fun c => negb (p c)) s = false
  <-> Forall (fun c => p c = true) (list_ascii_of_string s).
Proof.
  induction s as [|c s IH]; simpl.
  - split; [constructor|reflexivity].
  - rewrite orb_false_iff, negb_false_iff, IH. split.
    + intros [H1 H2]. now constructor.
    + intros H. now inversion H.
Qed.

Lemma none_Forall (p : ascii -> bool) (s : string) :
  Spec.any p s = false
  <-> Forall (fun c => p c = false) (list_ascii_of_string s).
Proof.
  induction s as [|c s IH]; simpl.
  - split; [constructor|reflexivity].
  - rewrite orb_false_iff, IH. split.
    + intros [H1 H2]. now constructor.
    + intros H. now inversion H.
Qed.

Lemma mem_outside (ch : ascii) (p : ascii -> bool) (w : list ascii) :
  p ch = false ->
  Forall (fun a => p a = true) w ->
  Str.mem ch (string_of_list_ascii w) = false.
Proof.
  intros Hch. induction 1 as [|a w Ha Hw IH]; simpl; [reflexivity|].
  rewrite IH, orb_false_r. destruct (Ascii.eqb ch a) eqn:He; [|reflexivity].
  apply Ascii.eqb_eq in He. subst a. congruence.
Qed.

Lemma remove_spaces_no_space (s : string) :
  Str.mem Char.space (Str.remove_spaces s) = false.
Proof.
  induction s as [|c s IH]; cbn [Str.remove_spaces Str.mem]; [reflexivity|].
  destruct (Ascii.eqb c Char.space) eqn:Hc; [assumption|].
  cbn [Str.mem]. rewrite IH, orb_false_r, Ascii.eqb_sym. exact Hc.
Qed.

(* ================================================================= *)
(** ** Record extractor *)

(** The groups of every match hold only letters and blanks (first and
    third group) or digits and a dash (second group). *)
Lemma findall3_groups (text : string) (m : triple) :
  In m (Re.findall3 Pattern.pattern text) ->
  exists g1 g2 g3,
    m = (string_of_list_ascii g1, string_of_list_ascii g2,
         string_of_list_ascii g3)
    /\ Forall (fun a => Spec.accepts (Pattern.words true) a = true) g1
    /\ Forall (fun a => Spec.accepts Pattern.ratio a = true) g2
    /\ Forall (fun a => Spec.accepts (Pattern.words false) a = true) g3.
Proof.
  unfold Re.findall3. intros Hin. apply in_map_iff in Hin.
  destruct Hin as (c & <- & Hc). apply scan_In in Hc.
  destruct Hc as (s0 & s' & Hc). apply pattern_threads in Hc.
  destruct Hc as (g1 & g2 & g3 & Hc & H1 & H2 & H3). simpl in Hc. subst c.
  exists g1, g2, g3. auto.
Qed.

Lemma finalize_parts (translations : dict) (m : triple) :
  finalize translations m
  = if Spec.valid (Spec.parts translations m)
    then Some (Spec.parts translations m) else None.
Proof.
  destruct m as [[g1 g2] g3]. unfold finalize, Spec.parts, Spec.valid, Spec.clean.
  set (p1 := Str.remove_spaces (Str.strip g1)).
  set (p2 := Str.remove_spaces (Str.strip g2)).
  assert (Ht : match translations with
               | [] => Str.strip g3
               | _ :: _ => translate_suffix (Str.strip g3) translations
               end = translate_suffix (Str.strip g3) translations)
    by now destruct translations.
  rewrite Ht.
  set (p3 := Str.remove_spaces (translate_suffix (Str.strip g3) translations)).
  destruct (Str.truthy p1), (Str.truthy p2), (Str.truthy p3),
    (Str.mem Char.newline p1), (Str.mem Char.newline p2),
    (Str.mem Char.newline p3); reflexivity.
Qed.

Lemma keep_finalize (translations : dict) (ms : list triple) :
  keep (finalize translations) ms
  = filter Spec.valid (map (Spec.parts translations) ms).
Proof.
  induction ms as [|m ms IH]; simpl; [reflexivity|].
  rewrite finalize_parts, IH.
  now destruct (Spec.valid (Spec.parts translations m)).
Qed.

Lemma extract_soup_blocks (page : soup) (translations : option dict) :
  extract_soup page translations
  = flat_map
      (fun text =>
         filter Spec.valid
           (map (Spec.parts
                   (match translations with None => [] | Some t => t end))
                (Re.findall3 Pattern.pattern text)))
      (Spec.blocks page).
Proof.
  unfold extract_soup, Spec.blocks, extract_text.
  apply flat_map_ext. intros text. apply keep_finalize.
Qed.

(** C6. On the post text Phoenix<TAB>Wing 1-60R the extractor produces the
    first field Phoenix<TAB>Wing: the pattern accepts a tab between the
    words of a name as it accepts a space, but only U+0020 is removed
    afterwards, so the field is not a single contiguous token. *)
Theorem tab_survives_in_field :
  extract_soup (Spec.single_post Sample.tabbed) None
  = [(("Phoenix" ++ String Char.tab "Wing")%string,
      "1-60"%string, "R"%string)]
  /\ Spec.is_token ("Phoenix" ++ String Char.tab "Wing") = false
  /\ ~ (forall (page : soup) (translations : option dict) (t : triple),
          In t (extract_soup page translations) ->
          Spec.is_token (fst (fst t)) = true
          /\ Spec.is_token (snd (fst t)) = true
          /\ Spec.is_token (snd t) = true).
Proof.
  split; [vm_compute; reflexivity|]. split; [vm_compute; reflexivity|].
  intros H.
  destruct (H (Spec.single_post Sample.tabbed) None
              (("Phoenix" ++ String Char.tab "Wing")%string,
               "1-60"%string, "R"%string)) as [H1 _].
  - vm_compute. now left.
  - vm_compute in H1. discriminate H1.
Qed.

(** What the extractor does guarantee.  The combinations of a page are,
    block by block and match by match, the triples whose first two parts
    are the trimmed groups with every U+0020 removed and whose third part
    is the translation of the trimmed third group with every U+0020
    removed; a triple with an empty part or with a line break in a part
    is left out.  So no part of a produced combination is empty, holds a
    U+0020 or holds a line break. *)
Theorem extract_combinations_parts (page : soup)
    (translations : option dict) :
  let table := match translations with None => [] | Some t => t end in
  extract_soup page translations
  = flat_map
      (fun text =>
         filter Spec.valid
           (map (Spec.parts table) (Re.findall3 Pattern.pattern text)))
      (Spec.blocks page)
  /\ (forall m, Spec.valid (Spec.parts table m) = false ->
                ~ In (Spec.parts table m) (extract_soup page translations))
  /\ (forall p1 p2 p3,
        In (p1, p2, p3) (extract_soup page translations) ->
        Spec.valid (p1, p2, p3) = true
        /\ Str.mem Char.space p1 = false
        /\ Str.mem Char.space p2 = false
        /\ Str.mem Char.space p3 = false).
Proof.
  cbv zeta. split; [apply extract_soup_blocks|].
  assert (Hall : forall t, In t (extract_soup page translations) ->
            Spec.valid t = true
            /\ exists m,
                 t = Spec.parts
                       (match translations with None => [] | Some t => t end)
                       m).
  { intros t. rewrite extract_soup_blocks, in_flat_map.
    intros (text & _ & Hin). apply filter_In in Hin. destruct Hin as [Hin Hv].
    apply in_map_iff in Hin. destruct Hin as (m & <- & _).
    split; [assumption|now exists m]. }
  split.
  - intros m Hm Hin. apply Hall in Hin. destruct Hin as [Hv _]. congruence.
  - intros p1 p2 p3 Hin. apply Hall in Hin.
    destruct Hin as [Hv ([[g1 g2] g3] & Heq)]. split; [assumption|].
    unfold Spec.parts in Heq. injection Heq as -> -> ->.
    repeat split; apply remove_spaces_no_space.
Qed.

(** C7. The two-line text yields exactly the two triples PhoenixWing 1-60
    R and WizardRod 1-60 Hexa.  For every text, no group of a match holds
    a line break, so no match spans two lines; and no part of a produced
    combination holds a line break, whatever the translation table. *)
Theorem matches_stay_on_one_line :
  Re.findall3 Pattern.pattern Sample.two_lines
  = [("PhoenixWing", "1-60", "R"); ("WizardRod", "1-60", "Hexa")]%string
  /\ extract_soup (Spec.single_post Sample.two_lines) None
     = [("PhoenixWing", "1-60", "R"); ("WizardRod", "1-60", "Hexa")]%string
  /\ (forall text g1 g2 g3,
        In (g1, g2, g3) (Re.findall3 Pattern.pattern text) ->
        Str.mem Char.newline g1 = false
        /\ Str.mem Char.newline g2 = false
        /\ Str.mem Char.newline g3 = false)
  /\ (forall page translations p1 p2 p3,
        In (p1, p2, p3) (extract_soup page translations) ->
        Str.mem Char.newline p1 = false
        /\ Str.mem Char.newline p2 = false
        /\ Str.mem Char.newline p3 = false).
Proof.
  split; [vm_compute; reflexivity|]. split; [vm_compute; reflexivity|]. split.
  - intros text g1 g2 g3 Hin. apply findall3_groups in Hin.
    destruct Hin as (w1 & w2 & w3 & [= -> -> ->] & H1 & H2 & H3).
    repeat split.
    + now apply (mem_outside _ (Spec.accepts (Pattern.words true))).
    + now apply (mem_outside _ (Spec.accepts Pattern.ratio)).
    + now apply (mem_outside _ (Spec.accepts (Pattern.words false))).
  - intros page translations p1 p2 p3. rewrite extract_soup_blocks, in_flat_map.
    intros (text & _ & Hin). apply filter_In in Hin. destruct Hin as [_ Hv].
    unfold Spec.valid, Spec.clean in Hv.
    rewrite !andb_true_iff, !negb_true_iff in Hv. tauto.
Qed.

(* ================================================================= *)
(** ** Committed matches *)

Section Committed.

Import Re.

Ltac by_cases c :=
  destruct c as [[] [] [] [] [] [] [] []]; vm_compute; congruence.

Lemma alpha_not_digit (c : ascii) :
  Char.is_alpha c = true -> Char.is_digit c = false.
Proof. by_cases c. Qed.

Lemma alpha_not_blank (c : ascii) :
  Char.is_alpha c = true -> Char.is_blank c = false.
Proof. by_cases c. Qed.

Lemma alpha_not_space (c : ascii) :
  Char.is_alpha c = true -> Char.is_space c = false.
Proof. by_cases c. Qed.

Lemma digit_not_alpha (c : ascii) :
  Char.is_digit c = true -> Char.is_alpha c = false.
Proof. by_cases c. Qed.

Lemma digit_not_blank (c : ascii) :
  Char.is_digit c = true -> Char.is_blank c = false.
Proof. by_cases c. Qed.

Lemma digit_not_space (c : ascii) :
  Char.is_digit c = true -> Char.is_space c = false.
Proof. by_cases c. Qed.

Lemma blank_not_alpha (c : ascii) :
  Char.is_blank c = true -> Char.is_alpha c = false.
Proof. by_cases c. Qed.

Lemma space_not_alpha (c : ascii) :
  Char.is_space c = true -> Char.is_alpha c = false.
Proof. by_cases c. Qed.

Lemma terminator_not_alpha (c : ascii) :
  Spec.is_terminator c = true -> Char.is_alpha c = false.
Proof. by_cases c. Qed.

Lemma run_Seq (r1 r2 : regex) (s : list ascii) (c : captures) :
  run (Seq r1 r2) s c
  = flat_map (fun t : thread => run r2 (fst t) (snd t)) (run r1 s c).
Proof. reflexivity. Qed.

Lemma run_Star (g : bool) (r : regex) (s : list ascii) (c : captures) :
  run (Star g r) s c = star_loop (run r) g (S (List.length s)) s c.
Proof. reflexivity. Qed.

Lemma run_Chr_hit (p : ascii -> bool) (a : ascii) (s : list ascii)
    (c : captures) :
  p a = true -> run (Chr p) (a :: s) c = [(s, c)].
Proof. simpl. now intros ->. Qed.

Lemma star_loop_S (body : list ascii -> captures -> list thread)
    (greedy : bool) (fuel : nat) (s : list ascii) (c : captures) :
  star_loop body greedy (S fuel) s c
  = (if greedy
     then
       flat_map
         (fun t : thread =>
            if List.length (fst t) <? List.length s
            then star_loop body greedy fuel (fst t) (snd t)
            else [])
         (body s c) ++ [(s, c)]
     else
       (s, c)
       :: flat_map
            (fun t : thread =>
               if List.length (fst t) <? List.length s
               then star_loop body greedy fuel (fst t) (snd t)
               else [])
            (body s c)).
Proof. reflexivity. Qed.

(** The rounds granted to a starred body always suffice: the threads do
    not depend on the fuel once it exceeds the length of the input. *)
Lemma star_loop_fuel (body : list ascii -> captures -> list thread)
    (greedy : bool) (f1 f2 : nat) (s : list ascii) (c : captures) :
  List.length s < f1 -> List.length s < f2 ->
  star_loop body greedy f1 s c = star_loop body greedy f2 s c.
Proof.
  revert f2 s c. induction f1 as [|f1 IH]; intros f2 s c H1 H2; [lia|].
  destruct f2 as [|f2]; [lia|]. rewrite !star_loop_S.
  assert (Heq :
    flat_map
      (fun t : thread =>
         if List.length (fst t) <? List.length s
         then star_loop body greedy f1 (fst t) (snd t) else [])
      (body s c)
    = flat_map
        (fun t : thread =>
           if List.length (fst t) <? List.length s
           then star_loop body greedy f2 (fst t) (snd t) else [])
        (body s c)).
  { apply flat_map_ext. intros t.
    destruct (List.length (fst t) <? List.length s) eqn:Hlt; [|reflexivity].
    apply Nat.ltb_lt in Hlt. apply IH; lia. }
  now rewrite Heq.
Qed.

Lemma run_Chr_stops (p : ascii -> bool) (s : list ascii) (c : captures) :
  Spec.stops p s -> run (Chr p) s c = [].
Proof.
  destruct s as [|a s]; simpl; [reflexivity|]. now intros ->.
Qed.

Lemma run_plus_stops (p : ascii -> bool) (s : list ascii) (c : captures) :
  Spec.stops p s -> run (plus (Chr p)) s c = [].
Proof.
  intros H. unfold plus. rewrite run_Seq, run_Chr_stops by assumption.
  reflexivity.
Qed.

Lemma first_Seq (r1 r2 : regex) (s : list ascii) (c : captures)
    (t1 t : thread) :
  Spec.first r1 s c t1 ->
  Spec.first r2 (fst t1) (snd t1) t ->
  Spec.first (Seq r1 r2) s c t.
Proof.
  intros [l1 H1] [l2 H2]. unfold Spec.first.
  rewrite run_Seq, H1. cbn [flat_map]. rewrite H2. cbn [app].
  eexists. reflexivity.
Qed.

Lemma first_Group (n : nat) (r : regex) (s : list ascii) (c : captures)
    (t : thread) :
  Spec.first r s c t ->
  Spec.first (Group n r) s c (fst t, (n, consumed s (fst t)) :: snd t).
Proof.
  intros [l H]. unfold Spec.first. cbn [run]. rewrite H. cbn [map].
  eexists. reflexivity.
Qed.

Lemma first_Lookahead (r : regex) (s : list ascii) (c : captures)
    (t : thread) :
  In t (run r s c) ->
  Spec.group_free r = true ->
  Spec.first (Lookahead r) s c (s, c).
Proof.
  intros Hin Hg. unfold Spec.first. cbn [run].
  destruct (run r s c) as [|t1 l] eqn:Hrun; [destruct Hin|].
  assert (Hc : snd t1 = c).
  { apply (run_threads r s c t1); [|assumption]. rewrite Hrun. now left. }
  rewrite Hc. eexists. reflexivity.
Qed.

Lemma first_Star_lazy (r : regex) (s : list ascii) (c : captures) :
  Spec.first (Star false r) s c (s, c).
Proof.
  unfold Spec.first. rewrite run_Star, star_loop_S. eexists. reflexivity.
Qed.

Lemma first_Star_dead (r : regex) (s : list ascii) (c : captures) :
  run r s c = [] -> Spec.first (Star true r) s c (s, c).
Proof.
  intros H. unfold Spec.first. rewrite run_Star, star_loop_S.
  rewrite H. cbn [flat_map app]. eexists. reflexivity.
Qed.

Lemma star_class_first (p : ascii -> bool) (w rest : list ascii)
    (c : captures) (fuel : nat) :
  Forall (fun a => p a = true) w ->
  Spec.stops p rest ->
  List.length (w ++ rest) < fuel ->
  exists others,
    star_loop (run (Chr p)) true fuel (w ++ rest) c = (rest, c) :: others.
Proof.
  intros Hw Hrest. revert fuel.
  induction Hw as [|a w Ha Hw IH]; intros fuel Hf.
  - destruct fuel as [|fuel]; [simpl in Hf; lia|].
    cbn [app]. rewrite star_loop_S, run_Chr_stops by assumption.
    cbn [flat_map app]. eexists. reflexivity.
  - destruct fuel as [|fuel]; [simpl in Hf; lia|].
    change ((a :: w) ++ rest) with (a :: (w ++ rest)) in *.
    rewrite star_loop_S, run_Chr_hit by assumption. cbn [flat_map fst snd].
    assert (Hlt : (List.length (w ++ rest) <? List.length (a :: w ++ rest))
                  = true) by (apply Nat.ltb_lt; simpl; lia).
    rewrite Hlt.
    destruct (IH fuel) as [others Ho]; [simpl in Hf; lia|].
    rewrite Ho. cbn [app]. eexists. reflexivity.
Qed.

Lemma star_class_thread (p : ascii -> bool) (w rest : list ascii)
    (c : captures) (fuel : nat) :
  Forall (fun a => p a = true) w ->
  List.length (w ++ rest) < fuel ->
  In (rest, c) (star_loop (run (Chr p)) true fuel (w ++ rest) c).
Proof.
  intros Hw. revert fuel.
  induction Hw as [|a w Ha Hw IH]; intros fuel Hf.
  - destruct fuel as [|fuel]; [simpl in Hf; lia|].
    cbn [app]. rewrite star_loop_S. apply in_or_app. right. now left.
  - destruct fuel as [|fuel]; [simpl in Hf; lia|].
    change ((a :: w) ++ rest) with (a :: (w ++ rest)) in *.
    rewrite star_loop_S, run_Chr_hit by assumption. cbn [flat_map fst snd].
    assert (Hlt : (List.length (w ++ rest) <? List.length (a :: w ++ rest))
                  = true) by (apply Nat.ltb_lt; simpl; lia).
    rewrite Hlt. apply in_or_app. left. apply in_or_app. left.
    apply IH. simpl in Hf. lia.
Qed.

Lemma first_plus_class (p : ascii -> bool) (w rest : list ascii)
    (c : captures) :
  w <> [] ->
  Forall (fun a => p a = true) w ->
  Spec.stops p rest ->
  Spec.first (plus (Chr p)) (w ++ rest) c (rest, c).
Proof.
  intros Hne Hw Hrest. destruct w as [|a w]; [congruence|].
  inversion Hw as [|? ? Ha Hw']; subst.
  unfold Spec.first, plus. rewrite run_Seq.
  change ((a :: w) ++ rest) with (a :: (w ++ rest)).
  rewrite run_Chr_hit by assumption. cbn [flat_map fst snd].
  rewrite run_Star.
  destruct (star_class_first p w rest c (S (List.length (w ++ rest))) Hw'
              Hrest) as [others Ho]; [lia|].
  rewrite Ho. cbn [app]. eexists. reflexivity.
Qed.

(** A run of class characters splits off only inside the run. *)
Lemma class_prefix_split (p : ascii -> bool) (w s' ws rest : list ascii) :
  w ++ s' = ws ++ rest ->
  Forall (fun a => p a = true) w ->
  Forall (fun a => p a = true) ws ->
  Spec.stops p rest ->
  exists ws', s' = ws' ++ rest /\ Forall (fun a => p a = true) ws'.
Proof.
  revert ws. induction w as [|a w IH]; intros ws Heq Hw Hws Hrest.
  - exists ws. now split.
  - inversion Hw as [|? ? Ha Hw']; subst.
    destruct ws as [|b ws].
    + simpl in Heq. subst rest. simpl in Hrest. congruence.
    + inversion Hws; subst. injection Heq as -> Heq.
      now apply (IH ws).
Qed.

(** After a name, blanks that lead to a digit start no further word. *)
Lemma words_body_dead (ws rest : list ascii) (c : captures) :
  Forall (fun a => Char.is_blank a = true) ws ->
  Spec.stops Char.is_blank rest ->
  Spec.stops Char.is_alpha rest ->
  run (Seq (plus Pattern.blank) (plus Pattern.alpha)) (ws ++ rest) c = [].
Proof.
  intros Hws Hb Ha. rewrite run_Seq. apply flat_map_nil. intros t Ht.
  apply run_threads in Ht. destruct Ht as ((w & Hs & Hw) & _).
  assert (Hw' : Forall (fun a => Char.is_blank a = true) w).
  { revert Hw. apply Forall_impl. intros a. simpl. now rewrite orb_diag. }
  destruct (class_prefix_split Char.is_blank w (fst t) ws rest
              (eq_sym Hs) Hw' Hws Hb) as (ws' & Hfst & Hws').
  apply run_plus_stops. rewrite Hfst.
  destruct ws' as [|b ws']; [exact Ha|].
  simpl. inversion Hws'; subst. now apply blank_not_alpha.
Qed.

Lemma ends_stops_alpha (rest : list ascii) :
  Spec.ends rest -> Spec.stops Char.is_alpha rest.
Proof.
  intros [->|(pad & term & rest' & -> & Hpad & Hterm)]; [exact I|].
  destruct pad as [|a pad]; simpl.
  - now apply terminator_not_alpha.
  - inversion Hpad; subst. now apply space_not_alpha.
Qed.

Lemma first_terminator (rest : list ascii) (c : captures) :
  Spec.ends rest -> Spec.first Pattern.terminator rest c (rest, c).
Proof.
  intros Hends. unfold Pattern.terminator.
  destruct Hends as [->|(pad & term & rest' & -> & Hpad & Hterm)].
  - apply (first_Lookahead _ _ _ ([], c)); [|reflexivity].
    simpl. now left.
  - assert (Hex : exists t,
              In t (run (Alt (lit Char.newline)
                          (Alt Eol (Alt (lit ",") (lit "("))))
                        (term :: rest') c)).
    { unfold Spec.is_terminator in Hterm.
      apply orb_true_iff in Hterm. destruct Hterm as [Hterm|Hterm];
        [apply orb_true_iff in Hterm; destruct Hterm as [Hterm|Hterm]|];
        apply Ascii.eqb_eq in Hterm; subst term;
        eexists; simpl; left; reflexivity. }
    destruct Hex as [t Ht].
    apply (first_Lookahead _ _ _ t); [|reflexivity].
    apply run_Seq_In. exists (term :: rest', c). split; [|exact Ht].
    rewrite run_Star. apply star_class_thread; [assumption|lia].
Qed.

End Committed.

(* ================================================================= *)
(** ** The scan of [re.findall] *)

Section ScanFacts.

Import Re.

(** The scan does not depend on its fuel once the fuel exceeds the length
    of the input. *)
Lemma scan_fuel (r : regex) (f1 f2 : nat) (s : list ascii) :
  List.length s < f1 -> List.length s < f2 -> scan r f1 s = scan r f2 s.
Proof.
  revert f2 s. induction f1 as [|f1 IH]; intros f2 s H1 H2; [lia|].
  destruct f2 as [|f2]; [lia|]. cbn [scan].
  destruct (match_here r s) as [[s' c]|].
  - f_equal. destruct (List.length s' <? List.length s) eqn:Hlt.
    + apply Nat.ltb_lt in Hlt. apply IH; lia.
    + destruct s as [|a s]; [reflexivity|]. simpl in H1, H2. apply IH; lia.
  - destruct s as [|a s]; [reflexivity|]. simpl in H1, H2. apply IH; lia.
Qed.

Lemma scan_match (r : regex) (s s' : list ascii) (c : captures) :
  Spec.first r s [] (s', c) ->
  List.length s' < List.length s ->
  scan r (S (List.length s)) s = c :: scan r (S (List.length s')) s'.
Proof.
  intros [others H] Hlt.
  remember (scan r (S (List.length s')) s') as tail eqn:Htail.
  cbn [scan]. unfold match_here. rewrite H.
  cbn [hd_error]. apply Nat.ltb_lt in Hlt. rewrite Hlt. f_equal.
  apply Nat.ltb_lt in Hlt. subst tail. apply scan_fuel; lia.
Qed.

Lemma scan_skip (r : regex) (a : ascii) (s : list ascii) :
  run r (a :: s) [] = [] ->
  scan r (S (List.length (a :: s))) (a :: s) = scan r (S (List.length s)) s.
Proof.
  intros H.
  remember (scan r (S (List.length s)) s) as tail eqn:Htail.
  cbn [scan]. unfold match_here. rewrite H. cbn [hd_error].
  subst tail. apply scan_fuel; simpl; lia.
Qed.

(** A match of the pattern starts with a letter. *)
Lemma pattern_no_start (a : ascii) (s : list ascii) :
  Char.is_alpha a = false -> run Pattern.pattern (a :: s) [] = [].
Proof.
  intros Ha. unfold Pattern.pattern, Pattern.words.
  rewrite run_Seq. apply flat_map_nil. intros t Ht.
  apply run_Group_In in Ht. destruct Ht as (t1 & Ht1 & _).
  rewrite run_Seq in Ht1. unfold Pattern.alpha in Ht1.
  rewrite run_plus_stops in Ht1 by exact Ha.
  destruct Ht1.
Qed.

(** A match of the pattern is never empty, so the scan always resumes
    where the match ended. *)
Lemma pattern_consumes (s : list ascii) (t : thread) :
  In t (run Pattern.pattern s []) -> List.length (fst t) < List.length s.
Proof.
  unfold Pattern.pattern, Pattern.words. intros Hin.
  apply run_Seq_In in Hin. destruct Hin as (t1 & H1 & Hin).
  apply run_threads in Hin. destruct Hin as ((w & Hw & _) & _).
  apply run_Group_In in H1. destruct H1 as (u1 & Hu1 & ->).
  apply run_Seq_In in Hu1. destruct Hu1 as (v & Hv & Hu1).
  apply run_threads in Hu1. destruct Hu1 as ((w1 & Hw1 & _) & _).
  unfold plus in Hv. apply run_Seq_In in Hv. destruct Hv as (z & Hz & Hv).
  apply run_threads in Hv. destruct Hv as ((w2 & Hw2 & _) & _).
  destruct s as [|a s]; [destruct Hz|]. simpl in Hz.
  destruct (Char.is_alpha a); [|destruct Hz]. destruct Hz as [<-|[]].
  cbn [fst snd] in *. subst s. rewrite Hw1, Hw in *.
  simpl. rewrite !length_app. lia.
Qed.

Lemma scan_gap (gap s : list ascii) :
  Forall (fun a => Char.is_alpha a = false) gap ->
  scan Pattern.pattern (S (List.length (gap ++ s))) (gap ++ s)
  = scan Pattern.pattern (S (List.length s)) s.
Proof.
  induction 1 as [|a gap Ha Hgap IH]; [reflexivity|].
  change ((a :: gap) ++ s) with (a :: (gap ++ s)).
  rewrite scan_skip by now apply pattern_no_start. exact IH.
Qed.

End ScanFacts.

(* ================================================================= *)
(** ** Records in a text *)

Lemma string_of_list_app (x y : list ascii) :
  string_of_list_ascii (x ++ y)
  = (string_of_list_ascii x ++ string_of_list_ascii y)%string.
Proof. induction x as [|a x IH]; simpl; [reflexivity|]. now rewrite IH. Qed.

Lemma truthy_list (s : string) :
  Str.truthy s = true -> list_ascii_of_string s <> [].
Proof. destruct s; [discriminate|]. intros _. discriminate. Qed.

Lemma any_app (p : ascii -> bool) (a b : string) :
  Spec.any p (a ++ b) = Spec.any p a || Spec.any p b.
Proof.
  induction a as [|c a IH]; simpl; [reflexivity|].
  now rewrite IH, orb_assoc.
Qed.

Lemma any_weaken (p q : ascii -> bool) (s : string) :
  (forall c, p c = true -> q c = false) ->
  Spec.any (fun c => negb (p c)) s = false ->
  Spec.any q s = false.
Proof.
  intros Hpq. induction s as [|c s IH]; simpl; [reflexivity|].
  rewrite !orb_false_iff, negb_false_iff. intros [Hc Hs].
  split; [now apply Hpq|now apply IH].
Qed.

Lemma strip_solid (s : string) :
  Spec.any Char.is_space s = false -> Str.strip s = s.
Proof.
  intros H. unfold Str.strip.
  assert (Hl : Str.lstrip s = s).
  { destruct s as [|c s]; [reflexivity|]. simpl in *.
    apply orb_false_iff in H. destruct H as [Hc _]. now rewrite Hc. }
  rewrite Hl. induction s as [|c s IH]; [reflexivity|].
  simpl in H. apply orb_false_iff in H. destruct H as [Hc Hs].
  simpl. rewrite Hc, andb_false_r. f_equal. apply IH; [assumption|].
  destruct s as [|d s]; [reflexivity|]. simpl in *.
  apply orb_false_iff in Hs. destruct Hs as [Hd _]. now rewrite Hd.
Qed.

Lemma remove_spaces_solid (s : string) :
  Spec.any Char.is_space s = false -> Str.remove_spaces s = s.
Proof.
  induction s as [|c s IH]; [reflexivity|].
  cbn [Spec.any Str.remove_spaces].
  rewrite orb_false_iff. intros [Hc Hs].
  destruct (Ascii.eqb c Char.space) eqn:He.
  - apply Ascii.eqb_eq in He. subst c. discriminate Hc.
  - f_equal. now apply IH.
Qed.

Lemma newline_solid (s : string) :
  Spec.any Char.is_space s = false -> Str.mem Char.newline s = false.
Proof.
  induction s as [|c s IH]; [reflexivity|]. cbn [Spec.any Str.mem].
  rewrite !orb_false_iff. intros [Hc Hs]. split; [|now apply IH].
  destruct (Ascii.eqb Char.newline c) eqn:He; [|reflexivity].
  apply Ascii.eqb_eq in He. subst c. discriminate Hc.
Qed.

Lemma clean_solid (s : string) :
  Str.truthy s = true -> Spec.any Char.is_space s = false ->
  Spec.clean s = true.
Proof.
  intros Ht Hs. unfold Spec.clean. now rewrite Ht, newline_solid.
Qed.

Lemma number_parts (s : string) :
  Spec.is_number s = true ->
  list_ascii_of_string s <> []
  /\ Forall (fun a => Char.is_digit a = true) (list_ascii_of_string s)
  /\ Str.truthy s = true
  /\ Spec.any Char.is_space s = false.
Proof.
  unfold Spec.is_number. rewrite andb_true_iff, negb_true_iff.
  intros [Ht Ha]. repeat split.
  - now apply truthy_list.
  - now apply all_Forall.
  - assumption.
  - revert Ha. apply any_weaken. apply digit_not_space.
Qed.

Lemma blanks_parts (s : string) :
  Spec.is_blanks s = true ->
  list_ascii_of_string s <> []
  /\ Forall (fun a => Char.is_blank a = true) (list_ascii_of_string s).
Proof.
  unfold Spec.is_blanks. rewrite andb_true_iff, negb_true_iff.
  intros [Ht Ha]. split; [now apply truthy_list|now apply all_Forall].
Qed.

Lemma ratio_solid (n1 n2 : string) :
  Spec.is_number n1 = true -> Spec.is_number n2 = true ->
  Str.truthy (n1 ++ "-" ++ n2) = true
  /\ Spec.any Char.is_space (n1 ++ "-" ++ n2) = false.
Proof.
  intros H1 H2.
  destruct (number_parts _ H1) as (_ & _ & T1 & S1).
  destruct (number_parts _ H2) as (_ & _ & _ & S2).
  split.
  - destruct n1; [discriminate|reflexivity].
  - rewrite !any_app, S1, S2. reflexivity.
Qed.

(** C1, as stated: the text PhoenixWing 1-60R WizardRod 1-60Hexa yields two
    triples.  No terminator follows the R, so no match starts at
    PhoenixWing; the only match starts at the R and takes R WizardRod as
    its first group. *)
Lemma one_line_merges_records :
  extract_soup (Spec.single_post Sample.one_line) None
  = [("RWizardRod", "1-60", "Hexa")]%string
  /\ List.length (extract_soup (Spec.single_post Sample.one_line) None) <> 2.
Proof. split; [vm_compute; reflexivity|vm_compute; discriminate]. Qed.

(* ================================================================= *)
(** ** Trimming *)

Lemma lstrip_cases (s : string) :
  Str.lstrip s = EmptyString
  \/ exists c t, Str.lstrip s = String c t /\ Char.is_space c = false.
Proof.
  induction s as [|c s IH]; [now left|]. simpl.
  destruct (Char.is_space c) eqn:Hc; [exact IH|].
  right. now exists c, s.
Qed.

Lemma rstrip_solid_head (c : ascii) (t : string) :
  Char.is_space c = false -> Str.rstrip (String c t) = String c (Str.rstrip t).
Proof. intros Hc. simpl. now rewrite Hc, andb_false_r. Qed.

Lemma rstrip_idem (s : string) : Str.rstrip (Str.rstrip s) = Str.rstrip s.
Proof.
  induction s as [|c s IH]; [reflexivity|]. simpl.
  destruct (Str.is_empty (Str.rstrip s) && Char.is_space c) eqn:Hc;
    [reflexivity|].
  simpl. rewrite IH, Hc. reflexivity.
Qed.

Lemma strip_cases (s : string) :
  Str.strip s = EmptyString
  \/ exists c t, Str.strip s = String c t /\ Char.is_space c = false.
Proof.
  unfold Str.strip.
  destruct (lstrip_cases s) as [->|(c & t & -> & Hc)]; [now left|].
  right. rewrite rstrip_solid_head by assumption. eauto.
Qed.

Lemma lstrip_solid_head (c : ascii) (t : string) :
  Char.is_space c = false -> Str.lstrip (String c t) = String c t.
Proof. intros Hc. simpl. now rewrite Hc. Qed.

(** [strip] is idempotent. *)
Lemma strip_idem (s : string) : Str.strip (Str.strip s) = Str.strip s.
Proof.
  destruct (strip_cases s) as [H|(c & t & H & Hc)].
  - now rewrite H.
  - unfold Str.strip at 1. rewrite H, lstrip_solid_head by assumption.
    rewrite <- H. unfold Str.strip. apply rstrip_idem.
Qed.

Lemma padding_cons (a : ascii) (pad : string) :
  Spec.is_padding (String a pad) = true
  <-> Char.is_space a = true /\ Spec.is_padding pad = true.
Proof.
  unfold Spec.is_padding. simpl.
  rewrite !negb_true_iff, orb_false_iff, negb_false_iff. tauto.
Qed.

Lemma rstrip_all_padding (pad : string) :
  Spec.is_padding pad = true -> Str.rstrip pad = EmptyString.
Proof.
  induction pad as [|a pad IH]; [reflexivity|].
  rewrite padding_cons. intros [Ha Hp]. simpl. now rewrite (IH Hp), Ha.
Qed.

Lemma lstrip_all_padding (pad : string) :
  Spec.is_padding pad = true -> Str.lstrip pad = EmptyString.
Proof.
  induction pad as [|a pad IH]; [reflexivity|].
  rewrite padding_cons. intros [Ha Hp]. simpl. now rewrite Ha, (IH Hp).
Qed.

Lemma rstrip_padding (s pad : string) :
  Spec.is_padding pad = true -> Str.rstrip (s ++ pad) = Str.rstrip s.
Proof.
  intros Hpad. induction s as [|c s IH].
  - simpl. now apply rstrip_all_padding.
  - simpl. now rewrite IH.
Qed.

Lemma lstrip_padding (pad s : string) :
  Spec.is_padding pad = true -> Str.lstrip (pad ++ s) = Str.lstrip s.
Proof.
  induction pad as [|a pad IH]; [reflexivity|].
  rewrite padding_cons. intros [Ha Hp]. simpl. rewrite Ha. now apply IH.
Qed.

Lemma lstrip_app_padding (s pad : string) :
  Spec.is_padding pad = true ->
  Str.rstrip (Str.lstrip (s ++ pad)) = Str.rstrip (Str.lstrip s).
Proof.
  intros Hpad. induction s as [|c s IH].
  - simpl. now rewrite (lstrip_all_padding pad Hpad).
  - simpl. destruct (Char.is_space c); [exact IH|].
    change (String c (s ++ pad))%string with (String c s ++ pad)%string.
    now apply rstrip_padding.
Qed.

(** Surrounding white space does not change what [strip] returns. *)
Lemma strip_padding (before s after : string) :
  Spec.is_padding before = true -> Spec.is_padding after = true ->
  Str.strip (before ++ s ++ after) = Str.strip s.
Proof.
  intros Hb Ha. unfold Str.strip. rewrite lstrip_padding by assumption.
  now apply lstrip_app_padding.
Qed.

Lemma mem_lstrip (ch : ascii) (s : string) :
  Str.mem ch (Str.lstrip s) = true -> Str.mem ch s = true.
Proof.
  induction s as [|c s IH]; [discriminate|]. cbn [Str.lstrip].
  destruct (Char.is_space c); [|trivial].
  intros H. cbn [Str.mem]. rewrite (IH H). apply orb_true_r.
Qed.

Lemma mem_rstrip (ch : ascii) (s : string) :
  Str.mem ch (Str.rstrip s) = true -> Str.mem ch s = true.
Proof.
  induction s as [|c s IH]; [discriminate|]. cbn [Str.rstrip].
  destruct (Str.is_empty (Str.rstrip s) && Char.is_space c);
    [discriminate|].
  cbn [Str.mem]. rewrite !orb_true_iff. intros [H|H]; [now left|].
  right. now apply IH.
Qed.

Lemma mem_strip (ch : ascii) (s : string) :
  Str.mem ch (Str.strip s) = true -> Str.mem ch s = true.
Proof. intros H. apply mem_lstrip. now apply mem_rstrip. Qed.

Lemma mem_remove_spaces (ch : ascii) (s : string) :
  Str.mem ch (Str.remove_spaces s) = true -> Str.mem ch s = true.
Proof.
  induction s as [|c s IH]; [discriminate|]. cbn [Str.remove_spaces].
  destruct (Ascii.eqb c Char.space).
  - intros H. cbn [Str.mem]. rewrite (IH H). apply orb_true_r.
  - cbn [Str.mem]. rewrite !orb_true_iff. intros [H|H]; [now left|].
    right. now apply IH.
Qed.

(* ================================================================= *)
(** ** Loading the translation table *)

Lemma space_not_tab (c : ascii) :
  Char.is_space c = false -> Ascii.eqb c Char.tab = false.
Proof.
  intros Hc. destruct (Ascii.eqb c Char.tab) eqn:He; [|reflexivity].
  apply Ascii.eqb_eq in He. subst c. discriminate Hc.
Qed.

Lemma solid_no_tab (s : string) :
  Spec.any Char.is_space s = false -> Str.mem Char.tab s = false.
Proof.
  induction s as [|c s IH]; [reflexivity|]. cbn [Spec.any Str.mem].
  rewrite !orb_false_iff. intros [Hc Hs]. split; [|now apply IH].
  rewrite Ascii.eqb_sym. now apply space_not_tab.
Qed.

Lemma split_tab_head (c : ascii) (t : string) :
  Ascii.eqb c Char.tab = false ->
  exists h r, split_tab (String c t) = String c h :: r.
Proof.
  intros Hc. cbn [split_tab]. rewrite Hc.
  destruct (split_tab t) as [|h r]; eauto.
Qed.

Lemma split_tab_solid (s : string) :
  Str.mem Char.tab s = false -> split_tab s = [s].
Proof.
  induction s as [|c s IH]; [reflexivity|]. cbn [Str.mem split_tab].
  rewrite orb_false_iff, Ascii.eqb_sym. intros [Hc Hs].
  now rewrite Hc, (IH Hs).
Qed.

Lemma split_tab_app (k rest : string) :
  Str.mem Char.tab k = false ->
  split_tab (k ++ String Char.tab rest) = k :: split_tab rest.
Proof.
  induction k as [|c k IH]; [reflexivity|]. cbn [Str.mem].
  rewrite orb_false_iff, Ascii.eqb_sym. intros [Hc Hk].
  change (String c k ++ String Char.tab rest)%string
    with (String c (k ++ String Char.tab rest)).
  cbn [split_tab]. now rewrite Hc, (IH Hk).
Qed.

Lemma dict_set_In (key value k v : string) (d : dict) :
  In (k, v) (dict_set key value d) ->
  (k = key /\ v = value) \/ In (k, v) d.
Proof.
  induction d as [|[k0 v0] d IH]; simpl.
  - intros [[= <- <-]|[]]. now left.
  - destruct (String.eqb k0 key) eqn:He; simpl.
    + apply String.eqb_eq in He. subst k0.
      intros [[= <- <-]|H]; [now left|right; now right].
    + intros [H|H]; [right; now left|].
      destruct (IH H) as [?|?]; [now left|right; now right].
Qed.

Lemma dict_set_keys (key value : string) (d : dict) :
  map fst (dict_set key value d)
  = if existsb (String.eqb key) (map fst d) then map fst d
    else map fst d ++ [key].
Proof.
  induction d as [|[k0 v0] d IH]; simpl; [reflexivity|].
  rewrite (String.eqb_sym key k0).
  destruct (String.eqb k0 key) eqn:He; simpl; [reflexivity|].
  rewrite IH. now destruct (existsb (String.eqb key) (map fst d)).
Qed.

Lemma dict_set_NoDup (key value : string) (d : dict) :
  NoDup (map fst d) -> NoDup (map fst (dict_set key value d)).
Proof.
  intros Hd. rewrite dict_set_keys.
  destruct (existsb (String.eqb key) (map fst d)) eqn:He; [assumption|].
  apply NoDup_app; [assumption|repeat constructor; intros []|].
  intros k Hk [<-|[]].
  assert (Ht : existsb (String.eqb key) (map fst d) = true).
  { apply existsb_exists. exists key.
    split; [assumption|apply String.eqb_refl]. }
  congruence.
Qed.

Lemma dict_get_set_same (key value : string) (d : dict) :
  dict_get key (dict_set key value d) = Some value.
Proof.
  induction d as [|[k0 v0] d IH]; simpl.
  - now rewrite String.eqb_refl.
  - destruct (String.eqb k0 key) eqn:He; simpl; now rewrite He.
Qed.

Lemma dict_get_set_other (key value k : string) (d : dict) :
  key <> k -> dict_get k (dict_set key value d) = dict_get k d.
Proof.
  intros Hne. induction d as [|[k0 v0] d IH]; simpl.
  - apply String.eqb_neq in Hne. now rewrite Hne.
  - destruct (String.eqb k0 key) eqn:He; simpl.
    + apply String.eqb_eq in He. subst k0.
      apply String.eqb_neq in Hne. now rewrite Hne.
    + now rewrite IH.
Qed.

(** The key of a parsed line is not empty, and key and value are trimmed. *)
Lemma parse_line_trimmed (line k v : string) :
  parse_line line = Some (k, v) ->
  k <> EmptyString /\ Str.strip k = k /\ Str.strip v = v.
Proof.
  unfold parse_line.
  destruct (strip_cases line) as [->|(c & t & -> & Hc)]; [discriminate|].
  destruct (split_tab_head c t (space_not_tab c Hc)) as (h & r & ->).
  destruct r as [|name r]; [discriminate|]. intros [= <- <-].
  repeat split; try apply strip_idem.
  unfold Str.strip. rewrite lstrip_solid_head, rstrip_solid_head by assumption.
  discriminate.
Qed.

Lemma load_line_ok (d : dict) (line : string) :
  Spec.table_ok d -> Spec.table_ok (load_line d line).
Proof.
  intros [Hnd Hall]. unfold load_line.
  destruct (parse_line line) as [[k v]|] eqn:Hp; [|now split].
  split; [now apply dict_set_NoDup|].
  intros k' v' Hin. apply dict_set_In in Hin.
  destruct Hin as [[-> ->]|Hin]; [|now apply Hall].
  now apply (parse_line_trimmed line).
Qed.

Lemma load_rows_ok (rows : list string) (d : dict) :
  Spec.table_ok d -> Spec.table_ok (fold_left load_line rows d).
Proof.
  revert d. induction rows as [|line rows IH]; intros d Hd; [assumption|].
  simpl. apply IH. now apply load_line_ok.
Qed.

(** X1. Whatever the file holds, the loaded table has no key twice, no
    empty key, and every key and every value is trimmed of surrounding
    white space. *)
Theorem load_translations_well_formed (file : option (list string)) :
  NoDup (map fst (load_translations file))
  /\ forall k v, In (k, v) (load_translations file) ->
       k <> EmptyString /\ Str.strip k = k /\ Str.strip v = v.
Proof.
  assert (Hnil : Spec.table_ok []) by (split; [constructor|intros ? ? []]).
  destruct file as [[|header rows]|]; simpl; try exact Hnil.
  now apply load_rows_ok.
Qed.

Lemma rstrip_app_nonempty (x y : string) :
  Str.rstrip y <> EmptyString -> Str.rstrip (x ++ y) = (x ++ Str.rstrip y)%string.
Proof.
  intros Hy. induction x as [|c x IH]; [reflexivity|].
  simpl. rewrite IH.
  destruct (x ++ Str.rstrip y)%string eqn:Hx; [|reflexivity].
  destruct x; simpl in Hx; [contradiction|discriminate].
Qed.

Lemma rstrip_of_trimmed (v : string) : Str.strip v = v -> Str.rstrip v = v.
Proof.
  intros Hv. rewrite <- Hv at 1. unfold Str.strip. rewrite rstrip_idem.
  exact Hv.
Qed.

(** A line made of a key, a tab, a value and a line break stands for the
    pair of the key and the value. *)
Lemma parse_line_row (k v : string) :
  Str.truthy k = true -> Spec.is_token k = true ->
  Str.truthy v = true -> Str.strip v = v -> Str.mem Char.tab v = false ->
  parse_line (k ++ String Char.tab v ++ Str.nl) = Some (k, v).
Proof.
  intros Tk Hk Tv Hv Htab. unfold Spec.is_token in Hk.
  rewrite negb_true_iff in Hk. unfold parse_line.
  assert (Hstrip : Str.strip (k ++ String Char.tab v ++ Str.nl)
                   = (k ++ String Char.tab v)%string).
  { unfold Str.strip.
    assert (Hl : Str.lstrip (k ++ String Char.tab v ++ Str.nl)
                 = (k ++ String Char.tab v ++ Str.nl)%string).
    { destruct k as [|c k]; [discriminate|]. simpl in Hk.
      apply orb_false_iff in Hk. destruct Hk as [Hc _].
      simpl. now rewrite Hc. }
    rewrite Hl.
    change (k ++ String Char.tab v ++ Str.nl)%string
      with (k ++ (String Char.tab v ++ Str.nl))%string.
    assert (Hr : Str.rstrip (String Char.tab v ++ Str.nl)
                 = String Char.tab v).
    { rewrite rstrip_padding by reflexivity. simpl.
      rewrite (rstrip_of_trimmed v Hv).
      destruct v; [discriminate|reflexivity]. }
    rewrite rstrip_app_nonempty; rewrite Hr; [reflexivity|discriminate]. }
  rewrite Hstrip, split_tab_app by now apply solid_no_tab.
  rewrite split_tab_solid by assumption.
  now rewrite strip_solid, Hv.
Qed.

Lemma load_rows_keep (k : string) (rows : list string) (d : dict) :
  (forall line v, In line rows -> parse_line line <> Some (k, v)) ->
  dict_get k (fold_left load_line rows d) = dict_get k d.
Proof.
  revert d. induction rows as [|line rows IH]; intros d Hrows; [reflexivity|].
  simpl. rewrite IH by (intros l v Hl; apply Hrows; now right).
  unfold load_line. destruct (parse_line line) as [[k0 v0]|] eqn:Hp;
    [|reflexivity].
  apply dict_get_set_other. intros ->. apply (Hrows line v0); [now left|].
  exact Hp.
Qed.

(** X2. A row "key TAB value" of the file is found again in the loaded
    table: looking the key up, and translating it, gives the value, as long
    as no later row sets the same key.  The first line of the file is a
    header and plays no part. *)
Theorem load_translations_round_trip
    (header k v : string) (before after : list string) :
  Str.truthy k = true -> Spec.is_token k = true ->
  Str.truthy v = true -> Str.strip v = v -> Str.mem Char.tab v = false ->
  (forall line v', In line after -> parse_line line <> Some (k, v')) ->
  let file :=
    Some (header :: before ++ (k ++ String Char.tab v ++ Str.nl)%string
                 :: after) in
  dict_get k (load_translations file) = Some v
  /\ translate_suffix k (load_translations file) = v.
Proof.
  intros Tk Hk Tv Hv Htab Hafter file.
  assert (Hget : dict_get k (load_translations file) = Some v).
  { unfold file, load_translations. rewrite fold_left_app. cbn [fold_left].
    rewrite load_rows_keep by assumption.
    unfold load_line at 1. rewrite parse_line_row by assumption.
    apply dict_get_set_same. }
  split; [exact Hget|]. unfold translate_suffix. now rewrite Hget.
Qed.

Lemma load_translations_round_trip_witness :
  let file :=
    Some ["Initial" ++ String Char.tab "Name" ++ Str.nl;
          "R" ++ String Char.tab "Rush" ++ Str.nl;
          "LR" ++ String Char.tab "Low Rush" ++ Str.nl;
          "H" ++ String Char.tab "Hexa" ++ Str.nl]%string in
  dict_get "LR" (load_translations file) = Some "Low Rush"%string
  /\ translate_suffix "LR" (load_translations file) = "Low Rush"%string.
Proof.
  apply (load_translations_round_trip
           ("Initial" ++ String Char.tab "Name" ++ Str.nl)%string
           "LR" "Low Rush"
           [("R" ++ String Char.tab "Rush" ++ Str.nl)%string]
           [("H" ++ String Char.tab "Hexa" ++ Str.nl)%string]);
    try reflexivity.
  intros line v' [<-|[]]. vm_compute. discriminate.
Defined.

(** X3. A line without a second column adds nothing to the table: a line
    that holds no tab, and also a line whose tab is followed by white space
    only, such as "R TAB NEWLINE", which is dropped rather than mapped
    to the empty string. *)
Theorem load_line_skips_short_rows (d : dict) (k pad : string) :
  Str.mem Char.tab k = false ->
  Spec.is_padding pad = true ->
  load_line d k = d /\ load_line d (k ++ String Char.tab pad) = d.
Proof.
  intros Hk Hpad.
  assert (Hone : parse_line k = None).
  { unfold parse_line. rewrite split_tab_solid; [reflexivity|].
    destruct (Str.mem Char.tab (Str.strip k)) eqn:Hm; [|reflexivity].
    apply mem_strip in Hm. congruence. }
  assert (Htwo : parse_line (k ++ String Char.tab pad) = None).
  { unfold parse_line in *.
    assert (Hp : Spec.is_padding (String Char.tab pad) = true)
      by (apply padding_cons; now split).
    pose proof (strip_padding EmptyString k (String Char.tab pad)
                  eq_refl Hp) as Hs.
    simpl in Hs. now rewrite Hs. }
  unfold load_line. now rewrite Hone, Htwo.
Qed.

Lemma load_line_skips_short_rows_witness :
  load_line [("R", "Rush")]%string "no table row here" = [("R", "Rush")]%string
  /\ load_line [("R", "Rush")]%string
       ("no table row here" ++ String Char.tab Str.nl)
     = [("R", "Rush")]%string.
Proof.
  apply (load_line_skips_short_rows [("R", "Rush")]%string
           "no table row here" Str.nl); reflexivity.
Defined.

(* ================================================================= *)
(** ** The shape of a match *)

Section Shapes.

Import Re.

Lemma plus_class_threads (p : ascii -> bool) (s : list ascii) (c : captures)
    (t : thread) :
  In t (run (plus (Chr p)) s c) ->
  exists a w,
    s = (a :: w) ++ fst t /\ p a = true
    /\ Forall (fun x => p x = true) w /\ snd t = c.
Proof.
  unfold plus. intros Hin. apply run_Seq_In in Hin.
  destruct Hin as (z & Hz & Hin).
  destruct s as [|a s]; [destruct Hz|]. simpl in Hz.
  destruct (p a) eqn:Ha; [|destruct Hz]. destruct Hz as [<-|[]].
  apply run_threads in Hin. cbn [fst snd] in Hin.
  destruct Hin as ((w & Hw & Hall) & Hc).
  exists a, w. rewrite Hw at 1. repeat split; auto.
Qed.

Lemma words_threads (g : bool) (s : list ascii) (c : captures) (t : thread) :
  In t (run (Pattern.words g) s c) ->
  exists a w,
    s = (a :: w) ++ fst t /\ Char.is_alpha a = true
    /\ Forall (fun x => Char.is_alpha x || Char.is_blank x = true) w
    /\ snd t = c.
Proof.
  unfold Pattern.words. intros Hin. apply run_Seq_In in Hin.
  destruct Hin as (v & Hv & Hin).
  apply plus_class_threads in Hv.
  destruct Hv as (a & w1 & Hs & Ha & Hw1 & Hc1).
  apply run_threads in Hin. destruct Hin as ((w2 & Hw2 & Hall) & Hc2).
  exists a, (w1 ++ w2). repeat split.
  - rewrite Hs, Hw2. simpl. now rewrite app_assoc.
  - assumption.
  - apply Forall_app. split.
    + revert Hw1. apply Forall_impl. intros x Hx. now rewrite Hx.
    + revert Hall. apply Forall_impl. intros x. simpl.
      destruct (Char.is_alpha x), (Char.is_blank x); auto.
  - rewrite Hc2 by reflexivity. exact Hc1.
Qed.

Lemma ratio_threads (s : list ascii) (c : captures) (t : thread) :
  In t (run Pattern.ratio s c) ->
  exists a1 n1 a2 n2,
    s = ((a1 :: n1) ++ "-"%char :: a2 :: n2) ++ fst t
    /\ Forall (fun x => Char.is_digit x = true) (a1 :: n1)
    /\ Forall (fun x => Char.is_digit x = true) (a2 :: n2)
    /\ snd t = c.
Proof.
  unfold Pattern.ratio. intros Hin. apply run_Seq_In in Hin.
  destruct Hin as (t1 & H1 & Hin).
  apply run_Seq_In in Hin. destruct Hin as (t2 & H2 & Hin).
  apply plus_class_threads in H1, Hin.
  destruct H1 as (a1 & n1 & Hs1 & Ha1 & Hn1 & Hc1).
  destruct Hin as (a2 & n2 & Hs2 & Ha2 & Hn2 & Hc2).
  destruct (fst t1) as [|x r] eqn:Hf; [destruct H2|].
  unfold lit in H2. cbn [run] in H2.
  destruct (Ascii.eqb "-" x) eqn:Hx; [|destruct H2].
  apply Ascii.eqb_eq in Hx. subst x. destruct H2 as [<-|[]].
  cbn [fst snd] in *. exists a1, n1, a2, n2. repeat split.
  - rewrite Hs1, Hs2. rewrite <- app_assoc. reflexivity.
  - now constructor.
  - now constructor.
  - congruence.
Qed.

(** What the three groups of a match look like: a name that starts with
    a letter, two runs of digits around a dash, and again a name that
    starts with a letter. *)
Lemma pattern_shape (s : list ascii) (t : thread) :
  In t (run Pattern.pattern s []) ->
  exists a1 w1 d1 n1 d2 n2 a3 w3,
    snd t = [(3, a3 :: w3); (2, (d1 :: n1) ++ "-"%char :: d2 :: n2);
             (1, a1 :: w1)]
    /\ Char.is_alpha a1 = true
    /\ Forall (fun x => Char.is_alpha x || Char.is_blank x = true) w1
    /\ Forall (fun x => Char.is_digit x = true) (d1 :: n1)
    /\ Forall (fun x => Char.is_digit x = true) (d2 :: n2)
    /\ Char.is_alpha a3 = true
    /\ Forall (fun x => Char.is_alpha x || Char.is_blank x = true) w3.
Proof.
  unfold Pattern.pattern. intros Hin.
  apply run_Seq_In in Hin. destruct Hin as (t1 & H1 & Hin).
  apply run_Group_In in H1. destruct H1 as (u1 & Hu1 & ->).
  apply run_Seq_In in Hin. destruct Hin as (t2 & H2 & Hin).
  apply run_Seq_In in Hin. destruct Hin as (t3 & H3 & Hin).
  apply run_Group_In in H3. destruct H3 as (u3 & Hu3 & ->).
  apply run_Seq_In in Hin. destruct Hin as (t4 & H4 & Hin).
  apply run_Group_In in H4. destruct H4 as (u4 & Hu4 & ->).
  apply words_threads in Hu1, Hu4. apply ratio_threads in Hu3.
  apply run_threads in H2, Hin.
  destruct Hu1 as (a1 & w1 & Hs1 & Ha1 & Hw1 & Hc1).
  destruct H2 as (_ & Hc2). specialize (Hc2 eq_refl).
  destruct Hu3 as (d1 & n1 & d2 & n2 & Hs3 & Hd1 & Hd2 & Hc3).
  destruct Hu4 as (a3 & w3 & Hs4 & Ha3 & Hw3 & Hc4).
  destruct Hin as (_ & Hc5). specialize (Hc5 eq_refl).
  cbn [fst snd] in *.
  exists a1, w1, d1, n1, d2, n2, a3, w3.
  rewrite Hc5, Hc4, Hc3, Hc2, Hc1.
  rewrite Hs1 at 1. rewrite Hs3 at 1. rewrite Hs4 at 1.
  rewrite !consumed_app. repeat split; assumption.
Qed.

End Shapes.

Lemma findall3_shape (text : string) (m : triple) :
  In m (Re.findall3 Pattern.pattern text) ->
  exists a1 w1 d1 n1 d2 n2 a3 w3,
    m = (String a1 (string_of_list_ascii w1),
         (String d1 (string_of_list_ascii n1) ++ "-"
            ++ String d2 (string_of_list_ascii n2))%string,
         String a3 (string_of_list_ascii w3))
    /\ Char.is_alpha a1 = true
    /\ Forall (fun x => Char.is_alpha x || Char.is_blank x = true) w1
    /\ Forall (fun x => Char.is_digit x = true) (d1 :: n1)
    /\ Forall (fun x => Char.is_digit x = true) (d2 :: n2)
    /\ Char.is_alpha a3 = true
    /\ Forall (fun x => Char.is_alpha x || Char.is_blank x = true) w3.
Proof.
  unfold Re.findall3. intros Hin. apply in_map_iff in Hin.
  destruct Hin as (c & <- & Hc). apply scan_In in Hc.
  destruct Hc as (s0 & s' & Hc). apply pattern_shape in Hc.
  destruct Hc as (a1 & w1 & d1 & n1 & d2 & n2 & a3 & w3 & Hc & H).
  simpl in Hc. subst c.
  exists a1, w1, d1, n1, d2, n2, a3, w3. split; [|exact H].
  cbn [Re.group Nat.eqb string_of_list_ascii].
  rewrite string_of_list_app. reflexivity.
Qed.

Lemma any_of_list (p : ascii -> bool) (w : list ascii) :
  Spec.any p (string_of_list_ascii w) = existsb p w.
Proof. induction w as [|a w IH]; simpl; [reflexivity|]. now rewrite IH. Qed.

Lemma number_of_list (d : ascii) (n : list ascii) :
  Forall (fun x => Char.is_digit x = true) (d :: n) ->
  Spec.is_number (String d (string_of_list_ascii n)) = true.
Proof.
  intros H. unfold Spec.is_number. cbn [Str.truthy Str.is_empty negb andb].
  apply negb_true_iff. change (String d (string_of_list_ascii n))
    with (string_of_list_ascii (d :: n)).
  apply all_Forall. now rewrite list_ascii_of_string_of_list_ascii.
Qed.

Lemma any_lstrip (p : ascii -> bool) (s : string) :
  Spec.any p (Str.lstrip s) = true -> Spec.any p s = true.
Proof.
  induction s as [|c s IH]; [discriminate|]. cbn [Str.lstrip].
  destruct (Char.is_space c); [|trivial].
  intros H. cbn [Spec.any]. rewrite (IH H). apply orb_true_r.
Qed.

Lemma any_rstrip (p : ascii -> bool) (s : string) :
  Spec.any p (Str.rstrip s) = true -> Spec.any p s = true.
Proof.
  induction s as [|c s IH]; [discriminate|]. cbn [Str.rstrip].
  destruct (Str.is_empty (Str.rstrip s) && Char.is_space c);
    [discriminate|].
  cbn [Spec.any]. rewrite !orb_true_iff. intros [H|H]; [now left|].
  right. now apply IH.
Qed.

Lemma any_remove_spaces (p : ascii -> bool) (s : string) :
  Spec.any p (Str.remove_spaces s)
  = Spec.any (fun c => p c && negb (Ascii.eqb c Char.space)) s.
Proof.
  induction s as [|c s IH]; [reflexivity|]. cbn [Str.remove_spaces Spec.any].
  destruct (Ascii.eqb c Char.space); cbn [Spec.any negb].
  - now rewrite andb_false_r.
  - now rewrite IH, andb_true_r.
Qed.

Lemma letters_and_tabs (s : string) :
  Spec.any (fun c => negb (Char.is_alpha c || Char.is_blank c)) s = false ->
  Str.mem Char.space s = false ->
  Spec.any (fun c => negb (Char.is_alpha c || Ascii.eqb c Char.tab)) s
  = false.
Proof.
  induction s as [|c s IH]; [reflexivity|]. cbn [Spec.any Str.mem].
  rewrite !orb_false_iff. intros [Hc Hs] [Hsp Hm].
  split; [|now apply IH].
  apply negb_false_iff in Hc. apply negb_false_iff.
  unfold Char.is_blank in Hc. rewrite Ascii.eqb_sym in Hsp.
  now rewrite Hsp in Hc.
Qed.

(** The cleaned form of a name group: it keeps its first letter and holds
    letters and tabs only. *)
Lemma name_part (a : ascii) (w : list ascii) :
  Char.is_alpha a = true ->
  Forall (fun x => Char.is_alpha x || Char.is_blank x = true) w ->
  let part :=
    Str.remove_spaces (Str.strip (String a (string_of_list_ascii w))) in
  (exists rest, part = String a rest)
  /\ Spec.any
       (fun c => negb (Char.is_alpha c || Ascii.eqb c Char.tab)) part
     = false
  /\ Spec.clean part = true.
Proof.
  intros Ha Hw part.
  assert (Hsp : Char.is_space a = false) by now apply alpha_not_space.
  assert (Hne : Ascii.eqb a Char.space = false).
  { destruct (Ascii.eqb a Char.space) eqn:He; [|reflexivity].
    apply Ascii.eqb_eq in He. subst a. discriminate Ha. }
  assert (Hpart : part
            = String a (Str.remove_spaces
                          (Str.rstrip (string_of_list_ascii w)))).
  { unfold part, Str.strip.
    rewrite lstrip_solid_head, rstrip_solid_head by assumption.
    cbn [Str.remove_spaces]. now rewrite Hne. }
  assert (Hchars : Spec.any
            (fun c => negb (Char.is_alpha c || Char.is_blank c)) part
            = false).
  { destruct (Spec.any _ part) eqn:Hany; [|reflexivity]. exfalso.
    unfold part in Hany. rewrite any_remove_spaces in Hany.
    assert (Hany' : Spec.any
              (fun c => negb (Char.is_alpha c || Char.is_blank c))
              (Str.strip (String a (string_of_list_ascii w))) = true).
    { revert Hany. generalize (Str.strip (String a (string_of_list_ascii w))).
      induction s as [|c s IH]; [discriminate|]. cbn [Spec.any].
      rewrite !orb_true_iff. intros [H|H]; [left|right; now apply IH].
      now apply andb_true_iff in H. }
    unfold Str.strip in Hany'. apply any_rstrip, any_lstrip in Hany'.
    cbn [Spec.any] in Hany'. rewrite Ha in Hany'. cbn in Hany'.
    rewrite any_of_list in Hany'. apply existsb_exists in Hany'.
    destruct Hany' as (x & Hx & Hbad). rewrite Forall_forall in Hw.
    rewrite (Hw x Hx) in Hbad. discriminate. }
  split; [rewrite Hpart; eauto|]. split.
  - apply letters_and_tabs; [exact Hchars|]. apply remove_spaces_no_space.
  - unfold Spec.clean. rewrite Hpart at 1. cbn [Str.truthy Str.is_empty negb andb].
    apply negb_true_iff.
    destruct (Str.mem Char.newline part) eqn:Hm; [|reflexivity]. exfalso.
    rewrite mem_any in Hm.
    assert (Hbad : Spec.any
              (fun c => negb (Char.is_alpha c || Char.is_blank c)) part
              = true).
    { revert Hm. generalize part. intros q.
      induction q as [|c q IH]; [discriminate|].
      cbn [Spec.any]. rewrite !orb_true_iff.
      intros [H|H]; [left|right; now apply IH].
      apply Ascii.eqb_eq in H. subst c. reflexivity. }
    congruence.
Qed.

(** The cleaned form of a ratio group is the group itself. *)
Lemma ratio_part (d1 : ascii) (n1 : list ascii) (d2 : ascii)
    (n2 : list ascii) :
  Forall (fun x => Char.is_digit x = true) (d1 :: n1) ->
  Forall (fun x => Char.is_digit x = true) (d2 :: n2) ->
  let g := (String d1 (string_of_list_ascii n1) ++ "-"
              ++ String d2 (string_of_list_ascii n2))%string in
  Str.remove_spaces (Str.strip g) = g /\ Spec.clean g = true.
Proof.
  intros H1 H2 g.
  destruct (ratio_solid _ _ (number_of_list d1 n1 H1)
              (number_of_list d2 n2 H2)) as [Ht Hs].
  fold g in Ht, Hs.
  rewrite strip_solid, remove_spaces_solid by assumption.
  split; [reflexivity|now apply clean_solid].
Qed.

Lemma parts_unfold (translations : dict) (g1 g2 g3 : string) :
  Spec.parts translations (g1, g2, g3)
  = (Str.remove_spaces (Str.strip g1), Str.remove_spaces (Str.strip g2),
     Str.remove_spaces (translate_suffix (Str.strip g3) translations)).
Proof. reflexivity. Qed.

(** X4. A match of the pattern is dropped only for its translated third
    part: the first two parts are never empty and never hold a line break.
    Without a translation table every match yields a combination. *)
Theorem extract_combinations_drops_only_on_bit (page : soup)
    (translations : dict) :
  extract_soup page (Some translations)
  = flat_map
      (fun text =>
         filter (fun t : triple => Spec.clean (snd t))
           (map (Spec.parts translations) (Re.findall3 Pattern.pattern text)))
      (Spec.blocks page)
  /\ extract_soup page None
     = flat_map
         (fun text => map (Spec.parts []) (Re.findall3 Pattern.pattern text))
         (Spec.blocks page).
Proof.
  assert (Hfilter : forall tr text,
    filter Spec.valid (map (Spec.parts tr) (Re.findall3 Pattern.pattern text))
    = filter (fun t : triple => Spec.clean (snd t))
        (map (Spec.parts tr) (Re.findall3 Pattern.pattern text))).
  { intros tr text. apply filter_ext_in. intros t Ht.
    apply in_map_iff in Ht. destruct Ht as (m & <- & Hm).
    apply findall3_shape in Hm.
    destruct Hm as (a1 & w1 & d1 & n1 & d2 & n2 & a3 & w3 & -> & Ha1 & Hw1
                    & Hd1 & Hd2 & _).
    rewrite parts_unfold. cbn [Spec.valid snd].
    destruct (name_part a1 w1 Ha1 Hw1) as (_ & _ & Hc1).
    destruct (ratio_part d1 n1 d2 n2 Hd1 Hd2) as (Hr & Hc2).
    rewrite Hc1, Hr, Hc2. reflexivity. }
  split.
  - rewrite extract_soup_blocks. apply flat_map_ext. intros text.
    apply Hfilter.
  - rewrite extract_soup_blocks. apply flat_map_ext. intros text.
    rewrite Hfilter.
    assert (Hall : forall l : list triple,
              (forall t, In t l -> Spec.clean (snd t) = true) ->
              filter (fun t : triple => Spec.clean (snd t)) l = l).
    { induction l as [|t l IH]; intros H; [reflexivity|]. simpl.
      rewrite (H t) by now left. f_equal. apply IH. intros u Hu. apply H.
      now right. }
    apply Hall. intros t Ht. apply in_map_iff in Ht.
    destruct Ht as (m & <- & Hm). apply findall3_shape in Hm.
    destruct Hm as (a1 & w1 & d1 & n1 & d2 & n2 & a3 & w3 & -> & _ & _
                    & _ & _ & Ha3 & Hw3).
    rewrite parts_unfold. cbn [snd]. rewrite translate_suffix_empty.
    now destruct (name_part a3 w3 Ha3 Hw3) as (_ & _ & Hc3).
Qed.

(** X5. The second part of every produced combination is a run of digits,
    a dash and a run of digits, whatever the page and the table. *)
Theorem extract_combinations_ratchet_shape (page : soup)
    (translations : option dict) (p1 p2 p3 : string) :
  In (p1, p2, p3) (extract_soup page translations) ->
  exists n1 n2,
    Spec.is_number n1 = true /\ Spec.is_number n2 = true
    /\ p2 = (n1 ++ "-" ++ n2)%string.
Proof.
  rewrite extract_soup_blocks, in_flat_map. intros (text & _ & Hin).
  apply filter_In in Hin. destruct Hin as [Hin _].
  apply in_map_iff in Hin. destruct Hin as (m & Hp & Hm).
  apply findall3_shape in Hm.
  destruct Hm as (a1 & w1 & d1 & n1 & d2 & n2 & a3 & w3 & -> & _ & _
                  & Hd1 & Hd2 & _).
  rewrite parts_unfold in Hp. injection Hp as _ Hp2 _.
  destruct (ratio_part d1 n1 d2 n2 Hd1 Hd2) as (Hr & _).
  change (Str.remove_spaces
            (Str.strip
               (String d1 (string_of_list_ascii n1) ++ "-"
                  ++ String d2 (string_of_list_ascii n2))) = p2) in Hp2.
  rewrite Hr in Hp2.
  exists (String d1 (string_of_list_ascii n1)),
         (String d2 (string_of_list_ascii n2)).
  repeat split; [now apply number_of_list..|now symmetry].
Qed.

Lemma extract_combinations_ratchet_shape_witness :
  exists n1 n2,
    Spec.is_number n1 = true /\ Spec.is_number n2 = true
    /\ "1-60"%string = (n1 ++ "-" ++ n2)%string.
Proof.
  apply (extract_combinations_ratchet_shape
           (Spec.single_post Sample.two_lines) None
           "PhoenixWing" "1-60" "R").
  vm_compute. now left.
Defined.

(** X6. The first part of every produced combination starts with a letter
    and holds nothing but letters and tab characters; without a
    translation table the same is true of the third part. *)
Theorem extract_combinations_name_shape (page : soup)
    (translations : option dict) (p1 p2 p3 : string) :
  In (p1, p2, p3) (extract_soup page translations) ->
  let letters_and_tabs (part : string) :=
    (exists a rest, part = String a rest /\ Char.is_alpha a = true)
    /\ Spec.any (fun c => negb (Char.is_alpha c || Ascii.eqb c Char.tab))
         part = false in
  letters_and_tabs p1
  /\ (match translations with None | Some [] => True | _ => False end ->
      letters_and_tabs p3).
Proof.
  rewrite extract_soup_blocks, in_flat_map. intros (text & _ & Hin).
  apply filter_In in Hin. destruct Hin as [Hin _].
  apply in_map_iff in Hin. destruct Hin as (m & Hp & Hm).
  apply findall3_shape in Hm.
  destruct Hm as (a1 & w1 & d1 & n1 & d2 & n2 & a3 & w3 & -> & Ha1 & Hw1
                  & _ & _ & Ha3 & Hw3).
  rewrite parts_unfold in Hp. injection Hp as Hp1 _ Hp3. cbv zeta. split.
  - destruct (name_part a1 w1 Ha1 Hw1) as ((rest & Hr) & Hchars & _).
    rewrite Hp1 in Hr, Hchars. split; [eauto|assumption].
  - intros Hnone.
    assert (Htr : match translations with None => [] | Some t => t end = []).
    { destruct translations as [[|e l]|]; [reflexivity|destruct Hnone|
                                           reflexivity]. }
    rewrite Htr, translate_suffix_empty in Hp3.
    destruct (name_part a3 w3 Ha3 Hw3) as ((rest & Hr) & Hchars & _).
    rewrite Hp3 in Hr, Hchars. split; [eauto|assumption].
Qed.

Lemma extract_combinations_name_shape_witness :
  ((exists a rest, "PhoenixWing"%string = String a rest
                   /\ Char.is_alpha a = true)
   /\ Spec.any (fun c => negb (Char.is_alpha c || Ascii.eqb c Char.tab))
        "PhoenixWing" = false)
  /\ (True ->
      (exists a rest, "R"%string = String a rest /\ Char.is_alpha a = true)
      /\ Spec.any (fun c => negb (Char.is_alpha c || Ascii.eqb c Char.tab))
           "R" = false).
Proof.
  apply (extract_combinations_name_shape
           (Spec.single_post Sample.two_lines) None
           "PhoenixWing" "1-60" "R").
  vm_compute. now left.
Defined.

(* ================================================================= *)
(** ** Requests and results of a window *)

Lemma upto_prefix {A : Type} (f : A -> bool) (l : list A) :
  exists rest, l = Spec.upto f l ++ rest.
Proof.
  induction l as [|x l [rest IH]]; [now exists []|]. simpl.
  destruct (f x).
  - now exists l.
  - exists rest. now rewrite <- IH.
Qed.

Lemma upto_none {A : Type} (f : A -> bool) (l : list A) :
  find f l = None -> Spec.upto f l = l.
Proof.
  induction l as [|x l IH]; [reflexivity|]. simpl.
  destruct (f x); [discriminate|]. intros H. now rewrite IH.
Qed.

Lemma upto_range_down (f : Z -> bool) (start stop p : Z) :
  find f (range_down start stop) = Some p ->
  Spec.upto f (range_down start stop) = range_down start (p - 1).
Proof.
  remember (Z.to_nat (start - stop)) as n eqn:Hn.
  revert start Hn. induction n as [|n IH]; intros start Hn.
  - rewrite range_down_nil by lia. discriminate.
  - intros Hfind. pose proof Hfind as Hp. apply find_range_down in Hp.
    destruct Hp as (Hr & _ & _). revert Hfind.
    rewrite range_down_cons by lia.
    rewrite (range_down_cons start (p - 1)) by lia. simpl.
    destruct (f start) eqn:Hf.
    + intros [= <-]. rewrite range_down_nil by lia. reflexivity.
    + intros Hfind. f_equal. apply IH; [lia|assumption].
Qed.

Lemma range_down_In (start stop p : Z) :
  In p (range_down start stop) <-> (stop < p <= start)%Z.
Proof.
  unfold range_down. rewrite in_map_iff. split.
  - intros (i & <- & Hi). apply in_seq in Hi. lia.
  - intros H. exists (Z.to_nat (start - p)). split; [lia|].
    apply in_seq. lia.
Qed.

Lemma range_down_NoDup (start stop : Z) : NoDup (range_down start stop).
Proof.
  unfold range_down. apply Finite.Injective_map_NoDup; [|apply seq_NoDup].
  intros i j H. lia.
Qed.

Lemma range_up_app (a m b : Z) :
  (a <= m <= b)%Z -> range_up a b = range_up a m ++ range_up m b.
Proof.
  intros H. remember (Z.to_nat (m - a)) as n eqn:Hn.
  revert a H Hn. induction n as [|n IH]; intros a H Hn.
  - replace m with a by lia. now rewrite (range_up_nil a a) by lia.
  - rewrite (range_up_cons a b), (range_up_cons a m) by lia.
    simpl. f_equal. apply IH; lia.
Qed.

Lemma flat_map_not_nil {A B : Type} (f : A -> list B) (l : list A) :
  flat_map f l <> [] -> exists x, In x l /\ f x <> [].
Proof.
  induction l as [|x l IH]; [intros H; now contradiction H|]. simpl.
  destruct (f x) as [|y ys] eqn:Hx.
  - intros H. destruct (IH H) as (z & Hz & Hfz). exists z. auto.
  - intros _. exists x. split; [now left|]. rewrite Hx. discriminate.
Qed.

Section WindowFacts.

Context {E : Env}.

Lemma scrape_multiple_pages_run (start_page end_page : Z)
    (translations : option dict) (log : list page_ref) :
  scrape_multiple_pages start_page (EndPage end_page) translations log
  = (flat_map
       (Spec.page_combinations
          (match translations with None => [] | Some t => t end))
       (range_up start_page (end_page + 1)),
     log ++ map PageNum (range_up start_page (end_page + 1))).
Proof. unfold scrape_multiple_pages. now rewrite scrape_loop_spec. Qed.

Lemma scrape_time_period_run (now days : Z) (translations : dict)
    (last_page_num : Z) (hardcoded hint : option Z) (log : list page_ref) :
  scrape_time_period now days translations last_page_num hardcoded hint log
  = match hardcoded with
    | Some start_page =>
        (match
           flat_map (Spec.page_combinations translations)
                    (range_up start_page (last_page_num + 1))
         with
         | [] => None
         | _ :: _ => Some start_page
         end,
         log ++ map PageNum (range_up start_page (last_page_num + 1)))
    | None =>
        let target := (now - timedelta_days days)%Z in
        let from := match hint with Some p => p | None => last_page_num end in
        let probes := range_down from (from - 200) in
        match find (Spec.brackets target) probes with
        | None =>
            (None, log ++ map PageNum (Spec.upto (Spec.brackets target) probes))
        | Some start_page =>
            (match
               flat_map (Spec.page_combinations translations)
                        (range_up start_page (last_page_num + 1))
             with
             | [] => None
             | _ :: _ => Some start_page
             end,
             (log ++ map PageNum (Spec.upto (Spec.brackets target) probes))
             ++ map PageNum (range_up start_page (last_page_num + 1)))
        end
    end.
Proof.
  unfold scrape_time_period, bind. destruct hardcoded as [h|].
  - unfold ret. rewrite scrape_multiple_pages_run.
    now destruct (flat_map _ _).
  - unfold find_page_for_date. rewrite find_page_loop_spec. cbv zeta.
    destruct (find _ _) as [sp|]; [|reflexivity].
    rewrite scrape_multiple_pages_run. now destruct (flat_map _ _).
Qed.

(** X7. The locator sends at most [max_pages_to_check] requests, never
    asks for the same page twice, and asks only for pages of the budget
    [start_page - max_pages_to_check + 1 .. start_page]. *)
Theorem find_page_for_date_requests (target start max : Z) :
  let sent := requests (find_page_for_date target start max) in
  List.length sent <= Z.to_nat max
  /\ NoDup sent
  /\ forall r, In r sent ->
       exists p, r = PageNum p /\ (start - max < p <= start)%Z.
Proof.
  cbv zeta. unfold requests, find_page_for_date.
  rewrite find_page_loop_spec. cbn [snd app].
  destruct (upto_prefix (Spec.brackets target)
              (range_down start (start - max))) as [rest Hrest].
  assert (Hlen : List.length (range_down start (start - max)) = Z.to_nat max).
  { unfold range_down. rewrite length_map, length_seq. lia. }
  assert (Hnd := range_down_NoDup start (start - max)).
  split; [|split].
  - rewrite length_map. rewrite Hrest, length_app in Hlen. lia.
  - apply Finite.Injective_map_NoDup; [intros x y [= ->]; reflexivity|].
    rewrite Hrest in Hnd. now apply NoDup_app_remove_r in Hnd.
  - intros r Hr. apply in_map_iff in Hr. destruct Hr as (p & <- & Hp).
    exists p. split; [reflexivity|]. apply range_down_In.
    rewrite Hrest. apply in_or_app. now left.
Qed.

(** X8. Harvesting a range of pages gives the harvest of its lower part
    followed by the harvest of its upper part: the combinations of a longer
    window end with the combinations of every shorter window over the same
    last page. *)
Theorem scrape_multiple_pages_split (a b c : Z) (translations : option dict) :
  (a <= b + 1 <= c + 1)%Z ->
  result (scrape_multiple_pages a (EndPage c) translations)
  = result (scrape_multiple_pages a (EndPage b) translations)
    ++ result (scrape_multiple_pages (b + 1) (EndPage c) translations).
Proof.
  intros H. unfold result. rewrite !scrape_multiple_pages_run. cbn [fst].
  rewrite (range_up_app a (b + 1) (c + 1)) by lia. apply flat_map_app.
Qed.

Lemma get_last_page_number_run (log : list page_ref) :
  get_last_page_number log
  = (result get_last_page_number, log ++ [PageLast]).
Proof.
  unfold result, get_last_page_number, bind, fetch_page, ret.
  now destruct (negb (Str.truthy _)).
Qed.

(** X9. With [end_page = "last"] the harvest first asks for the last page.
    When its number cannot be determined the harvest is empty and no
    numbered page is requested; otherwise the harvest is the one up to that
    number. *)
Theorem scrape_multiple_pages_to_last (start_page : Z)
    (translations : option dict) :
  let harvest := scrape_multiple_pages start_page EndLast translations in
  match result get_last_page_number with
  | None => result harvest = [] /\ requests harvest = [PageLast]
  | Some n =>
      result harvest
      = result (scrape_multiple_pages start_page (EndPage n) translations)
      /\ requests harvest
         = PageLast
           :: requests
                (scrape_multiple_pages start_page (EndPage n) translations)
  end.
Proof.
  cbv zeta.
  assert (Hrun : scrape_multiple_pages start_page EndLast translations []
                 = match result get_last_page_number with
                   | None => ([], [PageLast])
                   | Some n =>
                       scrape_multiple_pages start_page (EndPage n)
                         translations [PageLast]
                   end).
  { unfold scrape_multiple_pages, bind.
    rewrite get_last_page_number_run.
    now destruct (result get_last_page_number). }
  unfold requests at 1 3, result at 2 4. rewrite Hrun.
  destruct (result get_last_page_number) as [n|]; [|now split].
  unfold result, requests. rewrite !scrape_multiple_pages_run. now split.
Qed.

(** X10. With a hardcoded start page the window sends no search request:
    it requests exactly the pages from that page to the last page, whatever
    the clock, the number of days and the search hint are, and it returns
    the hardcoded page when those pages hold a combination and [None] when
    they hold none. *)
Theorem scrape_time_period_hardcoded (now days : Z) (translations : dict)
    (last_page_num start_page : Z) (hint : option Z) :
  let window :=
    scrape_time_period now days translations last_page_num
      (Some start_page) hint in
  requests window = map PageNum (range_up start_page (last_page_num + 1))
  /\ result window
     = match
         result (scrape_multiple_pages start_page (EndPage last_page_num)
                   (Some translations))
       with
       | [] => None
       | _ :: _ => Some start_page
       end.
Proof.
  cbv zeta. unfold requests, result.
  rewrite scrape_time_period_run, scrape_multiple_pages_run. now split.
Qed.

(** X11. When the search finds no page within its 200 probes the window
    is skipped: it returns [None] and has requested the 200 probed pages
    and nothing else. *)
Theorem scrape_time_period_search_fails (now days : Z) (translations : dict)
    (last_page_num : Z) (hint : option Z) :
  let from := match hint with Some p => p | None => last_page_num end in
  result (find_page_for_date (now - timedelta_days days) from 200) = None ->
  let window :=
    scrape_time_period now days translations last_page_num None hint in
  result window = None
  /\ requests window = map PageNum (range_down from (from - 200))
  /\ List.length (requests window) = 200.
Proof.
  cbv zeta. rewrite find_page_for_date_result. intros Hnone.
  unfold result, requests. rewrite scrape_time_period_run. cbv zeta.
  rewrite Hnone. cbn [fst snd app]. rewrite (upto_none _ _ Hnone).
  repeat split. unfold range_down. rewrite !length_map, length_seq. lia.
Qed.

(** X12. A start page returned by a searched window lies within the 200
    pages probed, brackets the target date, and is not beyond the last
    page; some page from it to the last page holds a combination.  The
    window has requested the probed pages down to the start page and then
    the pages from the start page up to the last page, so the start page
    is fetched twice. *)
Theorem scrape_time_period_start_page (now days : Z) (translations : dict)
    (last_page_num : Z) (hint : option Z) (p : Z) :
  let window :=
    scrape_time_period now days translations last_page_num None hint in
  result window = Some p ->
  let from := match hint with Some q => q | None => last_page_num end in
  (from - 200 < p <= from)%Z
  /\ (p <= last_page_num)%Z
  /\ Spec.brackets (now - timedelta_days days) p = true
  /\ (exists q, (p <= q <= last_page_num)%Z
                /\ Spec.page_combinations translations q <> [])
  /\ requests window
     = map PageNum (range_down from (p - 1))
       ++ map PageNum (range_up p (last_page_num + 1)).
Proof.
  cbv zeta. unfold result, requests. rewrite scrape_time_period_run.
  cbv zeta.
  destruct (find _ _) as [sp|] eqn:Hfind; [|discriminate]. cbn [fst snd app].
  destruct (flat_map _ _) as [|t l] eqn:Hflat; [discriminate|].
  intros [= ->]. pose proof Hfind as Hp. apply find_range_down in Hp.
  destruct Hp as (Hr & Hb & _).
  assert (Hq : exists q, In q (range_up p (last_page_num + 1))
                         /\ Spec.page_combinations translations q <> []).
  { apply flat_map_not_nil. rewrite Hflat. discriminate. }
  destruct Hq as (q & Hq & Hne). apply range_up_In in Hq.
  split; [lia|]. split; [lia|]. split; [assumption|]. split.
  - exists q. split; [lia|assumption].
  - now rewrite (upto_range_down _ _ _ _ Hfind).
Qed.

(** X13. When the number of the last page cannot be determined the run
    stops there: no window is scraped and the request for the last page is
    the only one sent, whatever the translation file holds. *)
Theorem main_stops_without_last_page (file : option (list string))
    (now30 now90 now_ytd days_since_jan1 : Z) :
  result get_last_page_number = None ->
  result (main file now30 now90 now_ytd days_since_jan1) = None
  /\ requests (main file now30 now90 now_ytd days_since_jan1) = [PageLast].
Proof.
  intros Hnone. unfold result at 1, requests, main, bind.
  rewrite get_last_page_number_run, Hnone. now split.
Qed.

End WindowFacts.

Lemma scrape_multiple_pages_split_witness :
  result (@scrape_multiple_pages Sample.forum 297 (EndPage 300) None)
  = result (@scrape_multiple_pages Sample.forum 297 (EndPage 298) None)
    ++ result (@scrape_multiple_pages Sample.forum (298 + 1) (EndPage 300)
                 None).
Proof.
  apply (@scrape_multiple_pages_split Sample.forum 297 298 300 None). lia.
Defined.

Lemma scrape_time_period_search_fails_witness :
  let window :=
    @scrape_time_period Sample.forum (300 * Sample.day) 290 [] 300 None None
  in
  result window = None
  /\ requests window = map PageNum (range_down 300 (300 - 200))
  /\ List.length (requests window) = 200.
Proof.
  apply (@scrape_time_period_search_fails Sample.forum
           (300 * Sample.day) 290 [] 300 None).
  vm_compute. reflexivity.
Defined.

Lemma scrape_time_period_start_page_witness :
  (300 - 200 < 250 <= 300)%Z
  /\ (250 <= 300)%Z
  /\ @Spec.brackets Sample.forum (300 * Sample.day - timedelta_days 50) 250
     = true
  /\ (exists q, (250 <= q <= 300)%Z
                /\ @Spec.page_combinations Sample.forum [] q <> [])
  /\ requests
       (@scrape_time_period Sample.forum (300 * Sample.day) 50 [] 300
          None None)
     = map PageNum (range_down 300 (250 - 1))
       ++ map PageNum (range_up 250 (300 + 1)).
Proof.
  apply (@scrape_time_period_start_page Sample.forum
           (300 * Sample.day) 50 [] 300 None 250).
  vm_compute. reflexivity.
Defined.

Lemma main_stops_without_last_page_witness :
  result (@main Sample.offline None 0 0 0 0) = None
  /\ requests (@main Sample.offline None 0 0 0 0) = [PageLast].
Proof.
  apply (@main_stops_without_last_page Sample.offline None 0 0 0 0)%Z.
  reflexivity.
Defined.

Section RunFacts.

Context {E : Env}.

Lemma scrape_time_period_log (now days : Z) (translations : dict)
    (last_page_num : Z) (hardcoded hint : option Z) (log : list page_ref) :
  let window :=
    scrape_time_period now days translations last_page_num hardcoded hint in
  window log = (result window, log ++ requests window).
Proof.
  cbv zeta. unfold result, requests. rewrite !scrape_time_period_run.
  destruct hardcoded as [h|]; [reflexivity|]. cbv zeta.
  destruct (find _ _); cbn [fst snd app]; [|reflexivity].
  now rewrite app_assoc.
Qed.

(** X14. When the last page number is known the run scrapes the three
    windows one after the other.  The 90-day search starts from the start
    page the 30-day window returned (from the last page when that window
    returned none), and the year-to-date window searches nothing: the run
    always ends by requesting the pages from 22 to the last page. *)
Theorem main_windows (file : option (list string))
    (now30 now90 now_ytd days_since_jan1 last_page_num : Z) :
  result get_last_page_number = Some last_page_num ->
  let translations := load_translations file in
  let w30 :=
    scrape_time_period now30 30 translations last_page_num None None in
  let w90 :=
    scrape_time_period now90 90 translations last_page_num None
      (result w30) in
  let wytd :=
    scrape_time_period now_ytd days_since_jan1 translations last_page_num
      (Some 22%Z) None in
  let run := main file now30 now90 now_ytd days_since_jan1 in
  result run = Some (result w30, result w90, result wytd)
  /\ requests run
     = PageLast :: requests w30 ++ requests w90
       ++ map PageNum (range_up 22 (last_page_num + 1)).
Proof.
  intros Hlast. cbv zeta. unfold result at 1, requests at 1, main, bind.
  rewrite get_last_page_number_run, Hlast.
  rewrite scrape_time_period_log. cbv zeta.
  rewrite scrape_time_period_log. cbv zeta.
  rewrite scrape_time_period_log. cbv zeta.
  unfold ret. cbn [fst snd app]. split; [reflexivity|].
  rewrite <- !app_assoc. cbn [app]. do 3 f_equal.
  unfold requests. now rewrite scrape_time_period_run.
Qed.

End RunFacts.

Lemma main_windows_witness :
  let translations := load_translations None in
  let w30 :=
    @scrape_time_period Sample.forum (300 * Sample.day) 30 translations 300
      None None in
  let w90 :=
    @scrape_time_period Sample.forum (300 * Sample.day) 90 translations 300
      None (result w30) in
  let wytd :=
    @scrape_time_period Sample.forum (300 * Sample.day) 200 translations 300
      (Some 22%Z) None in
  let run :=
    @main Sample.forum None (300 * Sample.day) (300 * Sample.day)
      (300 * Sample.day) 200 in
  result run = Some (result w30, result w90, result wytd)
  /\ requests run
     = PageLast :: requests w30 ++ requests w90
       ++ map PageNum (range_up 22 (300 + 1)).
Proof.
  apply (@main_windows Sample.forum None (300 * Sample.day)
           (300 * Sample.day) (300 * Sample.day) 200 300).
  vm_compute. reflexivity.
Defined.

(* ================================================================= *)
(** ** Totals of the reports *)

Lemma keep_length {A B : Type} (f : A -> option B) (l : list A) :
  List.length (keep f l) <= List.length l.
Proof.
  induction l as [|x l IH]; simpl; [lia|]. destruct (f x); simpl; lia.
Qed.

Lemma keep_map_some {A B : Type} (f : A -> option B) (g : B -> A)
    (l : list B) :
  (forall y, f (g y) = Some y) -> keep f (map g l) = l.
Proof.
  intros H. induction l as [|y l IH]; simpl; [reflexivity|].
  now rewrite H, IH.
Qed.

Lemma list_sum_map_add {A : Type} (f g : A -> nat) (l : list A) :
  list_sum (map (fun x => f x + g x) l)
  = list_sum (map f l) + list_sum (map g l).
Proof. induction l as [|x l IH]; simpl; [reflexivity|]. rewrite IH. lia. Qed.

Lemma list_sum_perm (l l' : list nat) :
  Permutation l l' -> list_sum l = list_sum l'.
Proof. induction 1; simpl; lia. Qed.

Lemma filter_perm {A : Type} (p : A -> bool) (l l' : list A) :
  Permutation l l' -> Permutation (filter p l) (filter p l').
Proof.
  induction 1 as [|x l l' _ IH|x y l|l l' l'' _ IH1 _ IH2]; simpl.
  - constructor.
  - destruct (p x); [now constructor|assumption].
  - destruct (p x), (p y); try reflexivity. apply perm_swap.
  - now transitivity (filter p l').
Qed.

Section CountingTotals.

Context {K : Type} (eqb : K -> K -> bool).
Hypothesis eqb_spec : forall a b, eqb a b = true <-> a = b.

Lemma tally_sum (x : K) (c : list (K * nat)) :
  list_sum (map snd (tally eqb x c)) = S (list_sum (map snd c)).
Proof.
  induction c as [|[k n] c IH]; simpl; [reflexivity|].
  destruct (eqb k x); simpl; [reflexivity|]. rewrite IH. lia.
Qed.

Lemma Counter_sum (l : list K) :
  list_sum (map snd (Counter eqb l)) = List.length l.
Proof.
  induction l as [|x l IH] using rev_ind; [reflexivity|].
  rewrite Counter_snoc, tally_sum, IH, length_app. simpl. lia.
Qed.

Lemma sorted_by_count_sum (l : list (K * nat)) :
  list_sum (map snd (sorted_by_count l)) = list_sum (map snd l).
Proof.
  apply list_sum_perm, Permutation_map, sorted_by_count_perm.
Qed.

Lemma first_seen_In (k : K) (l : list K) :
  In k (Spec.first_seen eqb l) <-> In k l.
Proof.
  assert (Hex : forall m, In k m <-> existsb (fun z => eqb z k) m = true).
  { intros m. rewrite existsb_exists. split.
    - intros H. exists k. split; [assumption|]. now apply eqb_spec.
    - intros (z & Hz & Hzk). apply eqb_spec in Hzk. now subst. }
  now rewrite !Hex, (first_seen_mem eqb eqb_spec).
Qed.

Lemma tallies_In (k : K) (n : nat) (l : list K) :
  In (k, n) (Spec.tallies eqb l)
  <-> In k l /\ n = Spec.occurrences eqb k l.
Proof.
  unfold Spec.tallies. rewrite in_map_iff. split.
  - intros (z & [= -> ->] & Hz). split; [|reflexivity].
    now apply first_seen_In.
  - intros [Hk ->]. exists k. split; [reflexivity|]. now apply first_seen_In.
Qed.

Lemma tallies_keys (l : list K) :
  map fst (Spec.tallies eqb l) = Spec.first_seen eqb l.
Proof.
  unfold Spec.tallies. rewrite map_map. simpl. apply map_id.
Qed.

Lemma occurrences_positive (k : K) (l : list K) :
  In k l -> 1 <= Spec.occurrences eqb k l.
Proof.
  unfold Spec.occurrences. induction l as [|x l IH]; simpl; [tauto|].
  intros [->|H].
  - rewrite (proj2 (eqb_spec k k) eq_refl). simpl. lia.
  - destruct (eqb k x); simpl; [lia|now apply IH].
Qed.

Lemma sum_indicator (p : K -> bool) (x : K) (ks : list K) :
  NoDup ks -> In x ks ->
  list_sum (map (fun k => if p k && eqb k x then 1 else 0) ks)
  = if p x then 1 else 0.
Proof.
  induction 1 as [|k ks Hk Hnd IH]; simpl; [tauto|].
  intros [->|Hx].
  - rewrite (proj2 (eqb_spec x x) eq_refl), andb_true_r.
    assert (Hz : list_sum
                   (map (fun k => if p k && eqb k x then 1 else 0) ks) = 0).
    { clear IH Hnd. induction ks as [|z ks IH]; simpl; [reflexivity|].
      destruct (eqb z x) eqn:Hzx.
      - apply eqb_spec in Hzx. subst z. exfalso. apply Hk. now left.
      - rewrite andb_false_r. apply IH. intros H. apply Hk. now right. }
    rewrite Hz. lia.
  - destruct (eqb k x) eqn:Hkx.
    + apply eqb_spec in Hkx. subst k. contradiction.
    + rewrite andb_false_r. now apply IH.
Qed.

Lemma sum_occurrences (p : K -> bool) (ks l : list K) :
  NoDup ks -> (forall x, In x l -> In x ks) ->
  list_sum (map (fun k => if p k then Spec.occurrences eqb k l else 0) ks)
  = List.length (filter p l).
Proof.
  intros Hnd. induction l as [|x l IH]; intros Hall.
  - unfold Spec.occurrences. simpl.
    induction ks as [|k ks IHk]; simpl; [reflexivity|].
    inversion Hnd; subst. destruct (p k); simpl; now apply IHk.
  - rewrite (map_ext _
      (fun k => (if p k && eqb k x then 1 else 0)
                + (if p k then Spec.occurrences eqb k l else 0))).
    + rewrite list_sum_map_add, sum_indicator, IH.
      * simpl. destruct (p x); simpl; lia.
      * intros z Hz. apply Hall. now right.
      * assumption.
      * apply Hall. now left.
    + intros k. unfold Spec.occurrences. simpl.
      destruct (p k), (eqb k x); simpl; lia.
Qed.

Lemma sum_filter_map (p : K -> bool) (cnt : K -> nat) (ks : list K) :
  list_sum
    (map snd (filter (fun e => p (fst e)) (map (fun k => (k, cnt k)) ks)))
  = list_sum (map (fun k => if p k then cnt k else 0) ks).
Proof.
  induction ks as [|k ks IH]; simpl; [reflexivity|].
  destruct (p k); simpl; now rewrite IH.
Qed.

(** The counts of the tallied elements that satisfy [p] add up to the
    number of elements of the list that satisfy [p]. *)
Lemma tallies_sum_filter (p : K -> bool) (l : list K) :
  list_sum (map snd (filter (fun e => p (fst e)) (Spec.tallies eqb l)))
  = List.length (filter p l).
Proof.
  unfold Spec.tallies. rewrite sum_filter_map. apply sum_occurrences.
  - apply (first_seen_NoDup eqb eqb_spec).
  - intros x Hx. now apply first_seen_In.
Qed.

(** What a sorted tally holds. *)
Lemma sorted_Counter_entries (l : list K) :
  let report := sorted_by_count (Counter eqb l) in
  (forall k n, In (k, n) report
               <-> In k l /\ n = Spec.occurrences eqb k l)
  /\ NoDup (map fst report)
  /\ Forall (fun e => 1 <= snd e) report
  /\ list_sum (map snd report) = List.length l.
Proof.
  cbv zeta.
  assert (Hperm : Permutation (sorted_by_count (Counter eqb l))
                              (Spec.tallies eqb l)).
  { rewrite <- (Counter_tallies eqb eqb_spec). apply sorted_by_count_perm. }
  assert (Hin : forall k n, In (k, n) (sorted_by_count (Counter eqb l))
                            <-> In k l /\ n = Spec.occurrences eqb k l).
  { intros k n. rewrite <- tallies_In. split; apply Permutation_in;
      [assumption|now symmetry]. }
  split; [exact Hin|]. split; [|split].
  - apply (Permutation_NoDup (l := map fst (Spec.tallies eqb l))).
    + symmetry. now apply Permutation_map.
    + rewrite tallies_keys. apply (first_seen_NoDup eqb eqb_spec).
  - apply Forall_forall. intros [k n] Hkn. apply Hin in Hkn.
    destruct Hkn as [Hk ->]. simpl. now apply occurrences_positive.
  - rewrite sorted_by_count_sum. apply Counter_sum.
Qed.

Lemma sorted_Counter_sum_filter (p : K -> bool) (l : list K) :
  list_sum
    (map snd (filter (fun e => p (fst e)) (sorted_by_count (Counter eqb l))))
  = List.length (filter p l).
Proof.
  rewrite <- tallies_sum_filter. apply list_sum_perm, Permutation_map.
  apply filter_perm. rewrite <- (Counter_tallies eqb eqb_spec).
  apply sorted_by_count_perm.
Qed.

End CountingTotals.

Lemma string_eqb_spec (a b : string) : String.eqb a b = true <-> a = b.
Proof. apply String.eqb_eq. Qed.

Lemma occurrences_map {A : Type} (g : A -> string) (b : string)
    (l : list A) :
  Spec.occurrences String.eqb b (map g l)
  = List.length (filter (fun t => String.eqb (g t) b) l).
Proof.
  unfold Spec.occurrences. induction l as [|x l IH]; simpl; [reflexivity|].
  rewrite (String.eqb_sym (g x) b). destruct (String.eqb b (g x)); simpl;
    now rewrite IH.
Qed.

(** X15. The combination-count report holds exactly the combinations of
    the usable rows, each once and with its number of occurrences; every
    count is at least one and the counts add up to the number of usable
    rows, so no row is lost or counted twice.  Rows with fewer than three
    fields are not counted, and for the rows [save_to_csv] writes every
    combination is counted. *)
Theorem generate_combination_counts_entries (rows : list row) :
  let combinations := keep row_triple rows in
  let report := generate_combination_counts rows in
  (forall t n, In (t, n) report
               <-> In t combinations
                   /\ n = Spec.occurrences triple_eqb t combinations)
  /\ NoDup (map fst report)
  /\ Forall (fun e => 1 <= snd e) report
  /\ list_sum (map snd report) = List.length combinations
  /\ list_sum (map snd report) <= List.length rows
  /\ forall harvest : list triple,
       list_sum (map snd (generate_combination_counts
                            (map triple_row harvest)))
       = List.length harvest.
Proof.
  cbv zeta. unfold generate_combination_counts.
  destruct (sorted_Counter_entries triple_eqb triple_eqb_spec
              (keep row_triple rows)) as (Hin & Hnd & Hpos & Hsum).
  split; [exact Hin|]. split; [exact Hnd|]. split; [exact Hpos|].
  split; [exact Hsum|]. split.
  - rewrite Hsum. apply keep_length.
  - intros harvest.
    destruct (sorted_Counter_entries triple_eqb triple_eqb_spec
                (keep row_triple (map triple_row harvest)))
      as (_ & _ & _ & ->).
    rewrite keep_map_some; [reflexivity|]. now intros [[a b] c].
Qed.

(** X16. Each section of the summary holds exactly the values of its
    column in the usable rows, each once and with its number of
    occurrences, and the counts of each of the three sections add up to the
    number of usable rows. *)
Theorem generate_summary_entries (rows : list row) :
  let combinations := keep row_triple rows in
  let section (column : triple -> string) (report : list (string * nat)) :=
    (forall k n, In (k, n) report
                 <-> In k (map column combinations)
                     /\ n = Spec.occurrences String.eqb k
                              (map column combinations))
    /\ NoDup (map fst report)
    /\ list_sum (map snd report) = List.length combinations in
  let '(blades, ratchets, bits) := generate_summary rows in
  section (fun t => fst (fst t)) blades
  /\ section (fun t => snd (fst t)) ratchets
  /\ section (fun t => snd t) bits.
Proof.
  cbv zeta. unfold generate_summary.
  assert (H : forall column : triple -> string,
    let l := map column (keep row_triple rows) in
    let report := sorted_by_count (Counter String.eqb l) in
    (forall k n, In (k, n) report
                 <-> In k l /\ n = Spec.occurrences String.eqb k l)
    /\ NoDup (map fst report)
    /\ list_sum (map snd report) = List.length (keep row_triple rows)).
  { intros column. cbv zeta.
    destruct (sorted_Counter_entries String.eqb string_eqb_spec
                (map column (keep row_triple rows)))
      as (Hin & Hnd & _ & Hsum).
    rewrite length_map in Hsum. split; [exact Hin|]. split; assumption. }
  split; [|split]; apply H.
Qed.

(** X17. The summary agrees with the combination-count report made from
    the same rows: the count the summary gives a blade is the sum of the
    counts of the combinations with that blade, and likewise for ratchets
    and bits. *)
Theorem generate_summary_matches_combination_counts (rows : list row) :
  let report := generate_combination_counts rows in
  let total (column : triple -> string) (k : string) :=
    list_sum
      (map snd (filter (fun e => String.eqb (column (fst e)) k) report)) in
  let '(blades, ratchets, bits) := generate_summary rows in
  (forall k n, In (k, n) blades -> n = total (fun t => fst (fst t)) k)
  /\ (forall k n, In (k, n) ratchets -> n = total (fun t => snd (fst t)) k)
  /\ (forall k n, In (k, n) bits -> n = total (fun t => snd t) k).
Proof.
  cbv zeta. unfold generate_summary, generate_combination_counts.
  assert (H : forall (column : triple -> string) k n,
    In (k, n) (sorted_by_count
                 (Counter String.eqb (map column (keep row_triple rows)))) ->
    n = list_sum
          (map snd
             (filter (fun e => String.eqb (column (fst e)) k)
                (sorted_by_count
                   (Counter triple_eqb (keep row_triple rows)))))).
  { intros column k n Hin.
    apply (sorted_Counter_entries String.eqb string_eqb_spec) in Hin.
    destruct Hin as [_ ->]. rewrite occurrences_map.
    symmetry.
    apply (sorted_Counter_sum_filter triple_eqb triple_eqb_spec
             (fun t => String.eqb (column t) k)). }
  split; [|split]; intros k n; apply H.
Qed.

(* ================================================================= *)
(** ** Post dates *)

Lemma replace_nbsp_app (a b : string) :
  replace_nbsp (a ++ b) = (replace_nbsp a ++ replace_nbsp b)%string.
Proof. induction a as [|c a IH]; simpl; [reflexivity|]. now rewrite IH. Qed.

Lemma nbsp_is_space (c : ascii) :
  Char.is_space (if Ascii.eqb c "160"%char then Char.space else c)
  = Char.is_space c.
Proof.
  destruct (Ascii.eqb c "160"%char) eqn:Hc; [|reflexivity].
  apply Ascii.eqb_eq in Hc. now subst.
Qed.

Lemma replace_nbsp_empty (s : string) :
  Str.is_empty (replace_nbsp s) = Str.is_empty s.
Proof. now destruct s. Qed.

Lemma lstrip_replace_nbsp (s : string) :
  Str.lstrip (replace_nbsp s) = replace_nbsp (Str.lstrip s).
Proof.
  induction s as [|c s IH]; [reflexivity|].
  cbn [replace_nbsp Str.lstrip]. rewrite nbsp_is_space.
  now destruct (Char.is_space c).
Qed.

Lemma rstrip_replace_nbsp (s : string) :
  Str.rstrip (replace_nbsp s) = replace_nbsp (Str.rstrip s).
Proof.
  induction s as [|c s IH]; [reflexivity|].
  cbn [replace_nbsp Str.rstrip]. cbv zeta.
  rewrite nbsp_is_space, IH, replace_nbsp_empty.
  now destruct (Str.is_empty (Str.rstrip s) && Char.is_space c).
Qed.

Lemma strip_replace_nbsp (s : string) :
  Str.strip (replace_nbsp s) = replace_nbsp (Str.strip s).
Proof.
  unfold Str.strip. now rewrite lstrip_replace_nbsp, rstrip_replace_nbsp.
Qed.

Lemma replace_nbsp_idem (s : string) :
  replace_nbsp (replace_nbsp s) = replace_nbsp s.
Proof.
  induction s as [|c s IH]; [reflexivity|]. cbn [replace_nbsp].
  rewrite IH. f_equal.
  destruct (Ascii.eqb c "160"%char) eqn:Hc; [reflexivity|]. now rewrite Hc.
Qed.

Lemma replace_nbsp_padding (s : string) :
  Spec.is_padding (replace_nbsp s) = Spec.is_padding s.
Proof.
  unfold Spec.is_padding. f_equal.
  induction s as [|c s IH]; [reflexivity|]. cbn [replace_nbsp Spec.any].
  now rewrite nbsp_is_space, IH.
Qed.

Lemma keep_In {A B : Type} (f : A -> option B) (l : list A) (y : B) :
  In y (keep f l) <-> exists x, In x l /\ f x = Some y.
Proof.
  induction l as [|a l IH].
  - simpl. split; [tauto|]. now intros (x & [] & _).
  - cbn [keep]. destruct (f a) as [b|] eqn:Ha.
    + simpl. rewrite IH. split.
      * intros [Hb|(x & Hin & Hx)].
        -- exists a. split; [now left|congruence].
        -- exists x. auto.
      * intros (x & [Hax|Hin] & Hx).
        -- left. congruence.
        -- right. now exists x.
    + rewrite IH. split.
      * intros (x & Hin & Hx). exists x. simpl. auto.
      * intros (x & [Hax|Hin] & Hx); [congruence|]. now exists x.
Qed.

Section DateFacts.

Context {E : Env}.

Lemma parse_forum_date_strip (s : string) :
  parse_forum_date (Str.strip s) = parse_forum_date s.
Proof.
  unfold parse_forum_date.
  now rewrite !strip_replace_nbsp, strip_idem.
Qed.

(** X18. What [parse_forum_date] returns does not depend on white space
    around the date, nor on whether a blank in it is a space or a
    no-break space. *)
Theorem parse_forum_date_normalises (before date_str after : string) :
  Spec.is_padding before = true ->
  Spec.is_padding after = true ->
  parse_forum_date (before ++ date_str ++ after) = parse_forum_date date_str
  /\ parse_forum_date (replace_nbsp date_str) = parse_forum_date date_str.
Proof.
  intros Hb Ha. unfold parse_forum_date. split.
  - rewrite !replace_nbsp_app, strip_padding; [reflexivity| |];
      now rewrite replace_nbsp_padding.
  - now rewrite replace_nbsp_idem.
Qed.

(** X19. The dates of a page are the dates [parse_forum_date] accepts
    among the texts of its post-date elements, in document order: the
    [strip()] before the call changes nothing, and elements whose text
    does not parse are passed over. *)
Theorem extract_dates_from_page_parses_each (html_content : string) :
  let texts := post_dates (parse_html html_content) in
  extract_dates_from_page html_content = keep parse_forum_date texts
  /\ List.length (extract_dates_from_page html_content)
     <= List.length texts
  /\ forall d, In d (extract_dates_from_page html_content)
               <-> exists text, In text texts
                                /\ parse_forum_date text = Some d.
Proof.
  cbv zeta.
  assert (Heq : extract_dates_from_page html_content
                = keep parse_forum_date
                    (post_dates (parse_html html_content))).
  { unfold extract_dates_from_page.
    induction (post_dates (parse_html html_content)) as [|x l IH];
      [reflexivity|].
    cbn [keep]. now rewrite parse_forum_date_strip, IH. }
  rewrite Heq. split; [reflexivity|]. split; [apply keep_length|].
  intros d. apply keep_In.
Qed.

End DateFacts.

Lemma parse_forum_date_normalises_witness :
  @parse_forum_date Sample.forum
    (("  " ++ String "160"%char "") ++ "Jan 5" ++ String Char.newline "")
  = @parse_forum_date Sample.forum "Jan 5"
  /\ @parse_forum_date Sample.forum (replace_nbsp "Jan 5")
     = @parse_forum_date Sample.forum "Jan 5".
Proof.
  apply (@parse_forum_date_normalises Sample.forum
           ("  " ++ String "160"%char "") "Jan 5"
           (String Char.newline "")); reflexivity.
Defined.

(* ================================================================= *)
(** ** Translation ignores case *)

Lemma scan_items_ci (x y : string) (translations : dict) :
  Spec.ci_match x y ->
  scan_items x translations = scan_items y translations.
Proof.
  unfold Spec.ci_match. intros H.
  induction translations as [|[k v] d IH]; [reflexivity|].
  cbn [scan_items]. now rewrite H, IH.
Qed.

Lemma scan_items_hit (suffix : string) (translations : dict) :
  (exists k v, In (k, v) translations /\ Spec.ci_match k suffix)
  -> scan_items suffix translations <> None.
Proof.
  intros (k & v & Hin & Hci).
  induction translations as [|[k' v'] d IH]; [destruct Hin|].
  cbn [scan_items].
  destruct (String.eqb (Str.lower k') (Str.lower suffix)) eqn:He;
    [discriminate|].
  destruct Hin as [[= -> ->]|Hin]; [|now apply IH].
  unfold Spec.ci_match in Hci. rewrite Hci, String.eqb_refl in He.
  discriminate.
Qed.

(** X20. Two suffixes that differ only in case and are not keys
    themselves get the same translation as soon as some key matches them
    ignoring case; when no key does, each is returned unchanged. *)
Theorem translate_suffix_ignores_case (x y : string) (translations : dict) :
  Spec.ci_match x y ->
  dict_get x translations = None ->
  dict_get y translations = None ->
  ((exists k v, In (k, v) translations /\ Spec.ci_match k x) ->
   translate_suffix x translations = translate_suffix y translations)
  /\ ((forall k v, In (k, v) translations -> ~ Spec.ci_match k x) ->
      translate_suffix x translations = x
      /\ translate_suffix y translations = y).
Proof.
  intros Hci Hx Hy. unfold translate_suffix. rewrite Hx, Hy.
  rewrite <- (scan_items_ci x y translations Hci). split.
  - intros Hex. apply scan_items_hit in Hex.
    now destruct (scan_items x translations).
  - intros Hno. destruct (scan_items x translations) as [v|] eqn:Hs;
      [|now split].
    exfalso. apply scan_items_In in Hs.
    destruct Hs as (k & Hin & Hk). exact (Hno k v Hin Hk).
Qed.

Lemma translate_suffix_ignores_case_witness :
  ((exists k v, In (k, v) [("hx", "Hexa")]%string /\ Spec.ci_match k "HX") ->
   translate_suffix "HX" [("hx", "Hexa")]%string
   = translate_suffix "Hx" [("hx", "Hexa")]%string)
  /\ ((forall k v, In (k, v) [("hx", "Hexa")]%string
                   -> ~ Spec.ci_match k "HX") ->
      translate_suffix "HX" [("hx", "Hexa")]%string = "HX"%string
      /\ translate_suffix "Hx" [("hx", "Hexa")]%string = "Hx"%string).
Proof.
  apply (translate_suffix_ignores_case "HX" "Hx" [("hx", "Hexa")]%string);
    reflexivity.
Defined.

(* ================================================================= *)
(** ** Lines are scanned independently *)

Lemma keep_app {A B : Type} (f : A -> option B) (l1 l2 : list A) :
  keep f (l1 ++ l2) = keep f l1 ++ keep f l2.
Proof.
  induction l1 as [|x l1 IH]; simpl; [reflexivity|].
  destruct (f x); simpl; now rewrite IH.
Qed.

Section LineFacts.

Import Re.

Lemma consumed_extend (s s' tail : list ascii) :
  consumed (s ++ tail) (s' ++ tail) = consumed s s'.
Proof.
  unfold consumed. rewrite !length_app.
  replace (List.length s + List.length tail
           - (List.length s' + List.length tail))
    with (List.length s - List.length s') by lia.
  rewrite firstn_app.
  replace (List.length s - List.length s' - List.length s) with 0 by lia.
  simpl. apply app_nil_r.
Qed.

Lemma local_Chr (cls : ascii -> bool) (a : ascii) (tail : list ascii) :
  cls a = false -> Spec.line_local (a :: tail) (Chr cls).
Proof.
  intros Ha s c. destruct s as [|b s]; simpl.
  - now rewrite Ha.
  - now destruct (cls b).
Qed.

Lemma flat_map_extend (tail : list ascii)
    (f g : thread -> list thread) (l : list thread) :
  (forall t, In t l -> f (Spec.extend tail t) = map (Spec.extend tail) (g t)) ->
  flat_map f (map (Spec.extend tail) l)
  = map (Spec.extend tail) (flat_map g l).
Proof.
  induction l as [|t l IH]; intros H; simpl; [reflexivity|].
  rewrite map_app, H by now left. f_equal. apply IH.
  intros u Hu. apply H. now right.
Qed.

Lemma local_Seq (tail : list ascii) (r1 r2 : regex) :
  Spec.line_local tail r1 -> Spec.line_local tail r2 ->
  Spec.line_local tail (Seq r1 r2).
Proof.
  intros H1 H2 s c. rewrite !run_Seq, H1. apply flat_map_extend.
  intros t _. apply H2.
Qed.

Lemma local_Alt (tail : list ascii) (r1 r2 : regex) :
  Spec.line_local tail r1 -> Spec.line_local tail r2 ->
  Spec.line_local tail (Alt r1 r2).
Proof. intros H1 H2 s c. cbn [run]. now rewrite H1, H2, map_app. Qed.

Lemma local_Group (tail : list ascii) (n : nat) (r : regex) :
  Spec.line_local tail r -> Spec.line_local tail (Group n r).
Proof.
  intros H s c. cbn [run]. rewrite H, !map_map. apply map_ext.
  intros t. unfold Spec.extend. cbn [fst snd].
  now rewrite consumed_extend.
Qed.

Lemma local_star_loop (tail : list ascii)
    (body : list ascii -> captures -> list thread) (greedy : bool) :
  (forall s c, body (s ++ tail) c = map (Spec.extend tail) (body s c)) ->
  forall fuel s c,
    star_loop body greedy fuel (s ++ tail) c
    = map (Spec.extend tail) (star_loop body greedy fuel s c).
Proof.
  intros Hbody. induction fuel as [|fuel IH]; intros s c; [reflexivity|].
  rewrite !star_loop_S, Hbody.
  rewrite (flat_map_extend tail _
    (fun t : thread =>
       if List.length (fst t) <? List.length s
       then star_loop body greedy fuel (fst t) (snd t) else [])).
  - destruct greedy; [now rewrite map_app|reflexivity].
  - intros t _. unfold Spec.extend at 1 2 3. cbn [fst snd].
    rewrite !length_app.
    replace (List.length (fst t) + List.length tail
             <? List.length s + List.length tail)
      with (List.length (fst t) <? List.length s).
    + destruct (List.length (fst t) <? List.length s); [apply IH|reflexivity].
    + destruct (List.length (fst t) <? List.length s) eqn:Hlt; symmetry.
      * apply Nat.ltb_lt in Hlt. apply Nat.ltb_lt. lia.
      * apply Nat.ltb_ge in Hlt. apply Nat.ltb_ge. lia.
Qed.

Lemma local_Star (tail : list ascii) (greedy : bool) (r : regex) :
  Spec.line_local tail r -> Spec.line_local tail (Star greedy r).
Proof.
  intros H s c. rewrite !run_Star, (local_star_loop tail _ _ H).
  f_equal. apply star_loop_fuel; rewrite ?length_app; lia.
Qed.

(** The lookahead succeeds exactly where a record may close. *)
Lemma terminator_closes (s : list ascii) (c : captures) :
  (exists t,
     In t (run (Seq (Star true Pattern.space)
                    (Alt (lit Char.newline)
                         (Alt Eol (Alt (lit ",") (lit "(")))))
               s c))
  <-> Spec.closes s.
Proof.
  split.
  - intros (t & Ht). apply run_Seq_In in Ht. destruct Ht as (t1 & H1 & Ht).
    apply run_threads in H1. destruct H1 as ((w & Hs & Hw) & _).
    exists w, (fst t1). split; [exact Hs|]. split; [exact Hw|].
    destruct (fst t1) as [|a rest]; [exact I|].
    unfold Spec.is_terminator. unfold lit in Ht. cbn [run] in Ht.
    destruct (Ascii.eqb Char.newline a) eqn:H0.
    { apply Ascii.eqb_eq in H0. subst a. reflexivity. }
    destruct (Ascii.eqb a Char.newline) eqn:H1; [reflexivity|].
    destruct (Ascii.eqb "," a) eqn:H2.
    { apply Ascii.eqb_eq in H2. subst a. reflexivity. }
    destruct (Ascii.eqb "(" a) eqn:H3.
    { apply Ascii.eqb_eq in H3. subst a. reflexivity. }
    destruct Ht.
  - intros (pad & rest & -> & Hpad & Hrest).
    assert (Hstar : In (rest, c)
                       (run (Star true Pattern.space) (pad ++ rest) c)).
    { rewrite run_Star. unfold Pattern.space.
      apply star_class_thread; [exact Hpad|lia]. }
    assert (Halt : exists t,
              In t (run (Alt (lit Char.newline)
                             (Alt Eol (Alt (lit ",") (lit "("))))
                        rest c)).
    { destruct rest as [|a rest].
      - exists ([], c). cbn [run app]. now left.
      - exists (if Ascii.eqb a Char.newline then a :: rest else rest, c).
        unfold Spec.is_terminator in Hrest. unfold lit. cbn [run].
        destruct (Ascii.eqb a Char.newline) eqn:H1.
        + apply Ascii.eqb_eq in H1. subst a. cbn. auto.
        + destruct (Ascii.eqb a ",") eqn:H2.
          * apply Ascii.eqb_eq in H2. subst a. cbn. auto.
          * destruct (Ascii.eqb a "(") eqn:H3; [|discriminate].
            apply Ascii.eqb_eq in H3. subst a. cbn. auto. }
    destruct Halt as (t & Ht). exists t. apply run_Seq_In.
    exists (rest, c). split; [exact Hstar|exact Ht].
Qed.

Lemma closes_extend (s tail : list ascii) :
  Spec.closes (s ++ Char.newline :: tail) <-> Spec.closes s.
Proof.
  split.
  - intros (pad & rest & Heq & Hpad & Hrest).
    apply app_eq_app in Heq. destruct Heq as (l & [[-> ->]|[-> Hl]]).
    + exists pad, l. split; [reflexivity|]. split; [exact Hpad|].
      destruct l as [|a l]; [exact I|exact Hrest].
    + exists s, []. split; [now rewrite app_nil_r|]. split; [|exact I].
      now apply Forall_app in Hpad.
  - intros (pad & rest & -> & Hpad & Hrest).
    exists pad, (rest ++ Char.newline :: tail).
    split; [now rewrite app_assoc|]. split; [exact Hpad|].
    destruct rest as [|a rest]; [reflexivity|exact Hrest].
Qed.

Lemma run_Lookahead (r : regex) (s : list ascii) (c : captures) :
  run (Lookahead r) s c
  = match run r s c with
    | [] => []
    | t :: _ => [(s, snd t)]
    end.
Proof. reflexivity. Qed.

Lemma local_terminator (tail : list ascii) :
  Spec.line_local (Char.newline :: tail) Pattern.terminator.
Proof.
  intros s c. unfold Pattern.terminator.
  set (inner := Seq (Star true Pattern.space)
                    (Alt (lit Char.newline)
                         (Alt Eol (Alt (lit ",") (lit "("))))).
  rewrite !run_Lookahead.
  assert (Hfree : Spec.group_free inner = true) by reflexivity.
  pose proof (terminator_closes (s ++ Char.newline :: tail) c) as H1.
  pose proof (terminator_closes s c) as H2.
  fold inner in H1, H2. rewrite closes_extend in H1.
  destruct (run inner (s ++ Char.newline :: tail) c) as [|t1 l1] eqn:E1;
    destruct (run inner s c) as [|t2 l2] eqn:E2.
  - reflexivity.
  - exfalso. assert (Hex : exists t, In t (t2 :: l2))
      by (exists t2; now left).
    apply H2, H1 in Hex. now destruct Hex.
  - exfalso. assert (Hex : exists t, In t (t1 :: l1))
      by (exists t1; now left).
    apply H1, H2 in Hex. now destruct Hex.
  - assert (Hc1 : snd t1 = c).
    { apply (run_threads inner (s ++ Char.newline :: tail) c t1);
        [rewrite E1; now left|exact Hfree]. }
    assert (Hc2 : snd t2 = c).
    { apply (run_threads inner s c t2); [rewrite E2; now left|exact Hfree]. }
    now rewrite Hc1, Hc2.
Qed.

Lemma local_pattern (tail : list ascii) :
  Spec.line_local (Char.newline :: tail) Pattern.pattern.
Proof.
  unfold Pattern.pattern, Pattern.words, Pattern.ratio, plus, lit,
    Pattern.alpha, Pattern.blank, Pattern.digit.
  repeat first
    [ apply local_terminator
    | apply local_Seq
    | apply local_Star
    | apply local_Group
    | apply local_Chr; reflexivity ].
Qed.

Lemma scan_lines (n : nat) (s tail : list ascii) :
  List.length s <= n ->
  scan Pattern.pattern (S (List.length (s ++ Char.newline :: tail)))
       (s ++ Char.newline :: tail)
  = scan Pattern.pattern (S (List.length s)) s
    ++ scan Pattern.pattern (S (List.length tail)) tail.
Proof.
  revert s. induction n as [|n IH]; intros s Hn.
  - destruct s as [|a s]; [|simpl in Hn; lia].
    cbn [app]. rewrite scan_skip by now apply pattern_no_start.
    reflexivity.
  - destruct s as [|a s].
    + cbn [app]. rewrite scan_skip by now apply pattern_no_start.
      reflexivity.
    + pose proof (local_pattern tail (a :: s) []) as Hrun.
      destruct (run Pattern.pattern (a :: s) []) as [|t others] eqn:Hs.
      * change ((a :: s) ++ Char.newline :: tail)
          with (a :: (s ++ Char.newline :: tail)) in *.
        rewrite scan_skip by exact Hrun. rewrite scan_skip by exact Hs.
        apply IH. simpl in Hn. lia.
      * assert (Hlt : List.length (fst t) < List.length (a :: s)).
        { apply pattern_consumes. rewrite Hs. now left. }
        rewrite (scan_match Pattern.pattern (a :: s) (fst t) (snd t)).
        -- rewrite (scan_match Pattern.pattern
                      ((a :: s) ++ Char.newline :: tail)
                      (fst t ++ Char.newline :: tail) (snd t)).
           ++ rewrite IH by (simpl in Hlt, Hn; lia). reflexivity.
           ++ exists (map (Spec.extend (Char.newline :: tail)) others).
              exact Hrun.
           ++ rewrite !length_app. lia.
        -- exists others. now destruct t.
        -- exact Hlt.
Qed.

Lemma findall3_lines (a b : string) :
  findall3 Pattern.pattern (a ++ Str.nl ++ b)
  = findall3 Pattern.pattern a ++ findall3 Pattern.pattern b.
Proof.
  unfold findall3. cbv zeta. rewrite !list_of_string_app.
  change (list_ascii_of_string Str.nl) with [Char.newline].
  cbn [app]. rewrite (scan_lines (List.length (list_ascii_of_string a)))
    by lia.
  apply map_app.
Qed.

End LineFacts.

(** X21. A line break separates the scan: the combinations found in a
    text made of two parts joined by a line break are the combinations of
    the first part followed by those of the second.  No match spans a
    line break, and what is found on one side does not depend on the
    other. *)
Theorem extract_text_line_by_line (translations : dict) (a b : string) :
  extract_text translations (a ++ Str.nl ++ b)
  = extract_text translations a ++ extract_text translations b.
Proof.
  unfold extract_text. rewrite findall3_lines. apply keep_app.
Qed.

(* ================================================================= *)
(** ** Charts *)

Lemma of_nat_digits (n : nat) :
  exists c t, Num.of_nat n = String c t
              /\ Spec.any (fun a => negb (Char.is_digit a)) (Num.of_nat n)
                 = false.
Proof.
  unfold Num.of_nat.
  pose proof (DecimalNat.Unsigned.of_to n) as Hn.
  assert (Hnil : Nat.to_uint n <> Decimal.Nil).
  { rewrite <- Hn at 1. rewrite DecimalNat.Unsigned.to_of.
    apply DecimalFacts.unorm_nonnil. }
  assert (Hd : forall d,
    Spec.any (fun a => negb (Char.is_digit a))
             (DecimalString.NilEmpty.string_of_uint d) = false).
  { induction d; simpl; auto. }
  destruct (Nat.to_uint n) eqn:Hu; [congruence| | | | | | | | | |];
    simpl; eexists _, _; (split; [reflexivity|]); apply (Hd u).
Qed.

Lemma digits_ok_digits (s : string) :
  Spec.any (fun a => negb (Char.is_digit a)) s = false ->
  Num.digits_ok true s = true /\ Num.remove_underscores s = s.
Proof.
  induction s as [|c s IH]; [now split|]. cbn [Spec.any].
  intros H. apply orb_false_iff in H. destruct H as [Hc Hs].
  apply negb_false_iff in Hc. destruct (IH Hs) as [H1 H2].
  cbn [Num.digits_ok Num.remove_underscores]. rewrite Hc, H2.
  destruct (Ascii.eqb c "_") eqn:Hu; [|now split].
  apply Ascii.eqb_eq in Hu. subst c. discriminate.
Qed.

(** Reading back a count that was written gives the count. *)
Lemma to_int_of_nat (n : nat) : Num.to_int (Num.of_nat n) = Some (Z.of_nat n).
Proof.
  destruct (of_nat_digits n) as (c & t & Heq & Hd).
  unfold Num.to_int.
  assert (Hstrip : Str.strip (Num.of_nat n) = Num.of_nat n).
  { apply strip_solid.
    apply (any_weaken Char.is_digit Char.is_space); [|exact Hd].
    intros a Ha. now apply digit_not_space. }
  rewrite Hstrip. rewrite Heq in Hd |- *.
  pose proof Hd as Hc. cbn [Spec.any] in Hc.
  apply orb_false_iff in Hc. destruct Hc as [Hc _].
  apply negb_false_iff in Hc.
  assert (Hsign : match String c t with
                  | String "-" t0 => (true, t0)
                  | String "+" t0 => (false, t0)
                  | _ => (false, String c t)
                  end = (false, String c t)).
  { destruct c as [[] [] [] [] [] [] [] []]; try reflexivity;
      discriminate Hc. }
  destruct (digits_ok_digits (String c t) Hd) as [Hok Hrm].
  assert (Hok' : Num.digits_ok false (String c t) = true).
  { cbn [Num.digits_ok] in *. now rewrite Hc in *. }
  rewrite Hsign, Hok', Hrm, <- Heq. unfold Num.of_nat.
  rewrite DecimalString.NilEmpty.usu, DecimalNat.Unsigned.of_to.
  reflexivity.
Qed.

Lemma header_tests (name : string) :
  Spec.is_header name = false ->
  String.eqb name "Blades" = false /\ String.eqb name "Ratchets" = false
  /\ String.eqb name "Bits" = false /\ String.eqb name "Date Range" = false.
Proof.
  unfold Spec.is_header. rewrite !orb_false_iff. tauto.
Qed.

Lemma top_step {K : Type} (e : K * nat) (report : list (K * nat))
    (data : list (K * Z)) :
  List.length data < 10 ->
  (data ++ [(fst e, Z.of_nat (snd e))])
  ++ map (fun e => (fst e, Z.of_nat (snd e)))
       (firstn (10 - List.length (data ++ [(fst e, Z.of_nat (snd e))]))
               report)
  = data
    ++ map (fun e => (fst e, Z.of_nat (snd e)))
         (firstn (10 - List.length data) (e :: report)).
Proof.
  intros Hlt. rewrite length_app. cbn [List.length].
  replace (10 - List.length data) with (S (10 - (List.length data + 1)))
    by lia.
  cbn [firstn map]. now rewrite <- app_assoc.
Qed.

Lemma top_full {K : Type} (report : list (K * nat)) (data : list (K * Z)) :
  10 <= List.length data ->
  data
  ++ map (fun e => (fst e, Z.of_nat (snd e)))
       (firstn (10 - List.length data) report)
  = data.
Proof.
  intros Hge. replace (10 - List.length data) with 0 by lia.
  cbn [firstn map]. apply app_nil_r.
Qed.

Ltac read_section report :=
  let e := fresh "e" in
  let IH := fresh "IH" in
  let Hok := fresh "Hok" in
  let He := fresh "He" in
  induction report as [|e report IH];
    intros rest part1_data part2_data part3_data Hok;
    [ cbn [map app]; rewrite firstn_nil; cbn [map];
      now rewrite ?app_nil_r
    | inversion Hok as [|? ? He Hok']; subst;
      apply header_tests in He; destruct He as (H1 & H2 & H3 & H4);
      cbn [map app]; unfold entry_row at 1; cbn [read_summary];
      rewrite H1, H2, H3, H4; unfold append_entry;
      rewrite to_int_of_nat ].

Lemma read_blades (report : list (string * nat)) :
  forall rest part1_data part2_data part3_data,
  Spec.headerless report ->
  read_summary (map entry_row report ++ rest) (Some part1)
    part1_data part2_data part3_data
  = read_summary rest (Some part1)
      (part1_data
       ++ map (fun e => (fst e, Z.of_nat (snd e)))
            (firstn (10 - List.length part1_data) report))
      part2_data part3_data.
Proof.
  read_section report.
  destruct (List.length part1_data <? 10) eqn:Hlt.
  - apply Nat.ltb_lt in Hlt. rewrite IH by assumption.
    now rewrite top_step.
  - apply Nat.ltb_ge in Hlt. rewrite IH by assumption.
    now rewrite !top_full.
Qed.

Lemma read_ratchets (report : list (string * nat)) :
  forall rest part1_data part2_data part3_data,
  Spec.headerless report ->
  read_summary (map entry_row report ++ rest) (Some part2)
    part1_data part2_data part3_data
  = read_summary rest (Some part2) part1_data
      (part2_data
       ++ map (fun e => (fst e, Z.of_nat (snd e)))
            (firstn (10 - List.length part2_data) report))
      part3_data.
Proof.
  read_section report.
  destruct (List.length part2_data <? 10) eqn:Hlt.
  - apply Nat.ltb_lt in Hlt. rewrite IH by assumption.
    now rewrite top_step.
  - apply Nat.ltb_ge in Hlt. rewrite IH by assumption.
    now rewrite !top_full.
Qed.

Lemma read_bits (report : list (string * nat)) :
  forall rest part1_data part2_data part3_data,
  Spec.headerless report ->
  read_summary (map entry_row report ++ rest) (Some part3)
    part1_data part2_data part3_data
  = read_summary rest (Some part3) part1_data part2_data
      (part3_data
       ++ map (fun e => (fst e, Z.of_nat (snd e)))
            (firstn (10 - List.length part3_data) report)).
Proof.
  read_section report.
  destruct (List.length part3_data <? 10) eqn:Hlt.
  - apply Nat.ltb_lt in Hlt. rewrite IH by assumption.
    now rewrite top_step.
  - apply Nat.ltb_ge in Hlt. rewrite IH by assumption.
    now rewrite !top_full.
Qed.

(** X22. Read back from the file [generate_summary] writes, the chart data
    of [generate_html_charts] are the first ten entries of each section
    with their counts, provided no name in the summary is one of the words
    the reader takes for a section header. *)
Theorem chart_summary_round_trip
    (blades ratchets bits : list (string * nat)) :
  Spec.headerless blades ->
  Spec.headerless ratchets ->
  Spec.headerless bits ->
  chart_summary_data (summary_file (blades, ratchets, bits))
  = (Spec.top10 blades, Spec.top10 ratchets, Spec.top10 bits).
Proof.
  intros Hb Hr Ht. unfold chart_summary_data, summary_file.
  cbn [app read_summary String.eqb Ascii.eqb Bool.eqb].
  rewrite read_blades by assumption.
  cbn [app read_summary String.eqb Ascii.eqb Bool.eqb].
  rewrite read_ratchets by assumption.
  cbn [app read_summary String.eqb Ascii.eqb Bool.eqb].
  rewrite <- (app_nil_r (map entry_row bits)).
  rewrite read_bits by assumption.
  reflexivity.
Qed.

Lemma combo_entry_row (e : triple * nat) :
  combo_entry (combo_row e) = Some (Spec.label (fst e), Z.of_nat (snd e)).
Proof.
  destruct e as [[[blade ratchet] bit] count].
  unfold combo_row, combo_entry. now rewrite to_int_of_nat.
Qed.

Lemma keep_map_total {A B C : Type} (f : B -> option C) (g : A -> B)
    (h : A -> C) (l : list A) :
  (forall x, f (g x) = Some (h x)) -> keep f (map g l) = map h l.
Proof.
  intros H. induction l as [|x l IH]; simpl; [reflexivity|].
  now rewrite H, IH.
Qed.

Lemma sorted_split {A : Type} (R : A -> A -> Prop) (l1 l2 : list A) :
  StronglySorted R (l1 ++ l2) ->
  forall x y, In x l1 -> In y l2 -> R x y.
Proof.
  induction l1 as [|a l1 IH]; intros Hs x y Hx Hy; [destruct Hx|].
  inversion Hs as [|? ? Hs' Ha]; subst. destruct Hx as [<-|Hx].
  - rewrite Forall_forall in Ha. apply Ha, in_or_app. now right.
  - now apply IH.
Qed.

(** X23. Read back from the rows [generate_combination_counts] writes, the
    combination chart holds the first ten rows of the report, each
    labelled with its three parts joined by spaces, and no combination
    left out was counted more often than one that is shown. *)
Theorem chart_combo_round_trip (rows : list row) :
  let report := generate_combination_counts rows in
  chart_combo_data (map combo_row report)
  = map (fun e => (Spec.label (fst e), Z.of_nat (snd e)))
        (firstn 10 report)
  /\ forall shown omitted,
       In shown (firstn 10 report) -> In omitted (skipn 10 report) ->
       snd omitted <= snd shown.
Proof.
  cbv zeta. split.
  - unfold chart_combo_data. rewrite firstn_map.
    apply keep_map_total. apply combo_entry_row.
  - intros shown omitted Hs Ho.
    apply (sorted_split (Spec.by_count_desc (K := triple))
             (firstn 10 (generate_combination_counts rows))
             (skipn 10 (generate_combination_counts rows)));
      [|assumption|assumption].
    rewrite firstn_skipn. unfold generate_combination_counts.
    apply sorted_by_count_sorted.
Qed.

Lemma top10_app {K : Type} (a b : list (K * nat)) :
  Spec.top10 a
  ++ map (fun e => (fst e, Z.of_nat (snd e)))
       (firstn (10 - List.length (Spec.top10 a)) b)
  = Spec.top10 (a ++ b).
Proof.
  unfold Spec.top10. rewrite length_map, length_firstn, firstn_app, map_app.
  f_equal. f_equal. f_equal. lia.
Qed.

(** X24. A blade whose name is the header word [Bits] is taken for that
    header: it is not charted, and the blades listed after it are charted
    as bits, ahead of the bits themselves. *)
Theorem chart_summary_header_name
    (before after ratchets bits : list (string * nat)) (n : nat) :
  Spec.headerless before ->
  Spec.headerless after ->
  Spec.headerless ratchets ->
  Spec.headerless bits ->
  chart_summary_data
    (summary_file (before ++ ("Bits"%string, n) :: after, ratchets, bits))
  = (Spec.top10 before, Spec.top10 ratchets, Spec.top10 (after ++ bits)).
Proof.
  intros Hb Ha Hr Ht. unfold chart_summary_data, summary_file.
  rewrite map_app. cbn [map]. unfold entry_row at 2. cbn [fst snd].
  cbn [app read_summary String.eqb Ascii.eqb Bool.eqb].
  rewrite <- app_assoc. rewrite read_blades by assumption.
  cbn [app read_summary String.eqb Ascii.eqb Bool.eqb].
  rewrite read_bits by assumption.
  cbn [app read_summary String.eqb Ascii.eqb Bool.eqb].
  rewrite read_ratchets by assumption.
  cbn [app read_summary String.eqb Ascii.eqb Bool.eqb].
  rewrite <- (app_nil_r (map entry_row bits)).
  rewrite read_bits by assumption.
  cbn [read_summary List.length app]. rewrite Nat.sub_0_r.
  fold (Spec.top10 before). fold (Spec.top10 ratchets).
  fold (Spec.top10 after). now rewrite top10_app.
Qed.

Lemma chart_summary_header_name_witness :
  chart_summary_data
    (summary_file
       ([("Shark"%string, 3)] ++ ("Bits"%string, 2) :: [("Wizard"%string, 1)],
        [("3-60"%string, 6)], [("Flat"%string, 6)]))
  = (Spec.top10 [("Shark"%string, 3)], Spec.top10 [("3-60"%string, 6)],
     Spec.top10 ([("Wizard"%string, 1)] ++ [("Flat"%string, 6)])).
Proof.
  apply (chart_summary_header_name
           [("Shark"%string, 3)] [("Wizard"%string, 1)]
           [("3-60"%string, 6)] [("Flat"%string, 6)] 2);
    repeat constructor.
Defined.

Lemma chart_summary_round_trip_witness :
  chart_summary_data
    (summary_file
       ([("Shark"%string, 3); ("Wizard"%string, 1)], [("3-60"%string, 4)],
        [("Flat"%string, 4)]))
  = (Spec.top10 [("Shark"%string, 3); ("Wizard"%string, 1)],
     Spec.top10 [("3-60"%string, 4)], Spec.top10 [("Flat"%string, 4)]).
Proof.
  apply (chart_summary_round_trip
           [("Shark"%string, 3); ("Wizard"%string, 1)] [("3-60"%string, 4)]
           [("Flat"%string, 4)]);
    repeat constructor.
Defined.

(* ================================================================= *)
(** ** Two records on one line *)

Section NameFacts.

Import Re.

Ltac char_cases c :=
  destruct c as [[] [] [] [] [] [] [] []]; vm_compute; congruence.

Lemma blank_not_terminator (c : ascii) :
  Char.is_blank c = true -> Spec.is_terminator c = false.
Proof. char_cases c. Qed.

Lemma alpha_not_terminator (c : ascii) :
  Char.is_alpha c = true -> Spec.is_terminator c = false.
Proof. char_cases c. Qed.

Lemma alpha_not_newline (c : ascii) :
  Char.is_alpha c = true -> Ascii.eqb Char.newline c = false.
Proof. char_cases c. Qed.

Lemma blank_not_newline (c : ascii) :
  Char.is_blank c = true -> Ascii.eqb Char.newline c = false.
Proof. char_cases c. Qed.

Lemma alpha_not_the_space (c : ascii) :
  Char.is_alpha c = true -> Ascii.eqb c Char.space = false.
Proof. char_cases c. Qed.

(** ** Names as strings *)

Lemma name_tail_words (t : string) :
  (Spec.name_tail true t = true ->
   exists w more,
     list_ascii_of_string t = w ++ more
     /\ Forall (fun a => Char.is_alpha a = true) w
     /\ Spec.more_words more)
  /\ (Spec.name_tail false t = true ->
      exists sep w more,
        list_ascii_of_string t = sep ++ w ++ more
        /\ Forall (fun a => Char.is_blank a = true) sep
        /\ w <> [] /\ Forall (fun a => Char.is_alpha a = true) w
        /\ Spec.more_words more).
Proof.
  induction t as [|c t [IH1 IH2]].
  - split; [|discriminate]. intros _. exists [], []. repeat split.
    + constructor.
    + constructor.
  - cbn [Spec.name_tail list_ascii_of_string].
    destruct (Char.is_alpha c) eqn:Ha.
    + split; intros H; destruct (IH1 H) as (w & more & Heq & Hw & Hm).
      * exists (c :: w), more. rewrite Heq. repeat split; auto.
      * exists [], (c :: w), more. rewrite Heq.
        repeat split; auto. discriminate.
    + destruct (Char.is_blank c) eqn:Hb; [|split; discriminate].
      split; intros H;
        destruct (IH2 H) as (sep & w & more & Heq & Hsep & Hne & Hw & Hm).
      * exists [], ((c :: sep) ++ w ++ more). rewrite Heq.
        repeat split; auto. constructor; auto. discriminate.
      * exists (c :: sep), w, more. rewrite Heq. repeat split; auto.
Qed.

Lemma name_chars_of_string (s : string) :
  Spec.is_name s = true -> Spec.name_chars (list_ascii_of_string s).
Proof.
  destruct s as [|c t]; [discriminate|]. cbn [Spec.is_name].
  rewrite andb_true_iff. intros [Hc Ht].
  destruct (proj1 (name_tail_words t) Ht) as (w & more & Heq & Hw & Hm).
  exists (c :: w), more. cbn [list_ascii_of_string]. rewrite Heq.
  repeat split; auto. discriminate.
Qed.

Lemma name_tail_rstrip (b : bool) (t : string) :
  Spec.name_tail b t = true -> Str.rstrip t = t.
Proof.
  revert b. induction t as [|c t IH]; intros b; [reflexivity|].
  cbn [Spec.name_tail Str.rstrip]. cbv zeta.
  destruct (Char.is_alpha c) eqn:Ha.
  - intros H. rewrite (IH _ H), (alpha_not_space c Ha), andb_false_r.
    reflexivity.
  - destruct (Char.is_blank c); [|discriminate].
    intros H. rewrite (IH _ H). destruct t; [discriminate H|reflexivity].
Qed.

Lemma name_strip (s : string) : Spec.is_name s = true -> Str.strip s = s.
Proof.
  destruct s as [|c t]; [discriminate|]. cbn [Spec.is_name].
  rewrite andb_true_iff. intros [Hc Ht]. unfold Str.strip.
  rewrite lstrip_solid_head by now apply alpha_not_space.
  rewrite rstrip_solid_head by now apply alpha_not_space.
  now rewrite (name_tail_rstrip _ _ Ht).
Qed.

Lemma name_tail_newline (b : bool) (t : string) :
  Spec.name_tail b t = true -> Str.mem Char.newline t = false.
Proof.
  revert b. induction t as [|c t IH]; intros b; [reflexivity|].
  cbn [Spec.name_tail Str.mem].
  destruct (Char.is_alpha c) eqn:Ha.
  - intros H. now rewrite (IH _ H), (alpha_not_newline c Ha).
  - destruct (Char.is_blank c) eqn:Hb; [|discriminate].
    intros H. now rewrite (IH _ H), (blank_not_newline c Hb).
Qed.

Lemma name_clean (s : string) :
  Spec.is_name s = true -> Spec.clean (Str.remove_spaces s) = true.
Proof.
  destruct s as [|c t]; [discriminate|]. cbn [Spec.is_name].
  rewrite andb_true_iff. intros [Hc Ht]. unfold Spec.clean.
  apply andb_true_iff. split.
  - cbn [Str.remove_spaces]. now rewrite (alpha_not_the_space c Hc).
  - apply negb_true_iff.
    destruct (Str.mem Char.newline (Str.remove_spaces (String c t))) eqn:Hm;
      [|reflexivity].
    apply mem_remove_spaces in Hm. cbn [Str.mem] in Hm.
    now rewrite (alpha_not_newline c Hc), (name_tail_newline _ _ Ht) in Hm.
Qed.

(** ** The greedy first field *)

Lemma first_Star_step (r : regex) (s : list ascii) (c : captures)
    (t1 t : thread) :
  Spec.first r s c t1 ->
  List.length (fst t1) < List.length s ->
  Spec.first (Star true r) (fst t1) (snd t1) t ->
  Spec.first (Star true r) s c t.
Proof.
  intros [l1 H1] Hlt [l2 H2]. unfold Spec.first in *.
  rewrite run_Star in *. rewrite star_loop_S, H1. cbn [flat_map].
  apply Nat.ltb_lt in Hlt. rewrite Hlt. apply Nat.ltb_lt in Hlt.
  rewrite (star_loop_fuel _ _ (List.length s) (S (List.length (fst t1))))
    by lia.
  rewrite H2. cbn [app]. eexists. reflexivity.
Qed.

Lemma first_body (sep w rest : list ascii) (c : captures) :
  sep <> [] -> Forall (fun a => Char.is_blank a = true) sep ->
  w <> [] -> Forall (fun a => Char.is_alpha a = true) w ->
  Spec.stops Char.is_alpha rest ->
  Spec.first (Seq (plus Pattern.blank) (plus Pattern.alpha))
    (sep ++ w ++ rest) c (rest, c).
Proof.
  intros Hsep Asep Hw Aw Hrest. eapply first_Seq.
  - apply (first_plus_class Char.is_blank sep); try assumption.
    destruct w as [|a w]; [congruence|]. inversion Aw; subst. simpl.
    now apply alpha_not_blank.
  - cbn [fst snd]. now apply (first_plus_class Char.is_alpha w).
Qed.

Lemma more_words_stops (more rest : list ascii) :
  Spec.more_words more -> Spec.stops Char.is_alpha rest ->
  Spec.stops Char.is_alpha (more ++ rest).
Proof.
  intros Hm Hrest. destruct Hm as [|sep w m Hsep Asep _ _ _]; [exact Hrest|].
  destruct sep as [|b sep]; [congruence|]. inversion Asep; subst. simpl.
  now apply blank_not_alpha.
Qed.

Lemma first_more_greedy (more rest : list ascii) (c : captures) :
  Spec.more_words more ->
  Spec.stops Char.is_alpha rest ->
  run (Seq (plus Pattern.blank) (plus Pattern.alpha)) rest c = [] ->
  Spec.first (Star true (Seq (plus Pattern.blank) (plus Pattern.alpha)))
    (more ++ rest) c (rest, c).
Proof.
  intros Hm Hrest Hdead.
  induction Hm as [|sep w m Hsep Asep Hw Aw Hm IH].
  - now apply first_Star_dead.
  - rewrite <- !app_assoc.
    apply (first_Star_step _ _ _ (m ++ rest, c)).
    + apply first_body; try assumption. now apply more_words_stops.
    + cbn [fst]. rewrite !length_app. destruct sep; [congruence|].
      simpl. lia.
    + exact IH.
Qed.

Lemma first_name_greedy (b rest : list ascii) (c : captures) :
  Spec.name_chars b ->
  Spec.stops Char.is_alpha rest ->
  run (Seq (plus Pattern.blank) (plus Pattern.alpha)) rest c = [] ->
  Spec.first (Pattern.words true) (b ++ rest) c (rest, c).
Proof.
  intros (w & more & -> & Hw & Aw & Hm) Hrest Hdead.
  unfold Pattern.words. rewrite <- app_assoc. eapply first_Seq.
  - apply (first_plus_class Char.is_alpha w); try assumption.
    now apply more_words_stops.
  - cbn [fst snd]. now apply first_more_greedy.
Qed.

(** ** The lazy third field *)

Lemma not_closes (sep x : list ascii) (a : ascii) :
  Forall (fun b => Char.is_blank b = true) sep ->
  Char.is_alpha a = true ->
  ~ Spec.closes (sep ++ a :: x).
Proof.
  intros Hsep Ha (pad & rest & Heq & Hpad & Hrest).
  revert pad Heq Hpad. induction Hsep as [|b sep Hb Hsep IH];
    intros pad Heq Hpad.
  - destruct pad as [|p pad]; simpl in Heq.
    + subst rest. simpl in Hrest. now rewrite (alpha_not_terminator a Ha) in Hrest.
    + injection Heq as <- _. inversion Hpad; subst.
      now rewrite (alpha_not_space a Ha) in *.
  - destruct pad as [|p pad]; simpl in Heq.
    + subst rest. simpl in Hrest.
      now rewrite (blank_not_terminator b Hb) in Hrest.
    + injection Heq as <- Heq. inversion Hpad; subst. now apply (IH pad).
Qed.

Lemma terminator_dead (sep x : list ascii) (a : ascii) (c : captures) :
  Forall (fun b => Char.is_blank b = true) sep ->
  Char.is_alpha a = true ->
  run Pattern.terminator (sep ++ a :: x) c = [].
Proof.
  intros Hsep Ha. unfold Pattern.terminator. rewrite run_Lookahead.
  destruct (run _ (sep ++ a :: x) c) as [|t l] eqn:Hrun; [reflexivity|].
  exfalso. apply (not_closes sep x a Hsep Ha).
  apply (terminator_closes (sep ++ a :: x) c). exists t.
  rewrite Hrun. now left.
Qed.

(** The threads the lazy repetition tries before it has taken every
    further word stop in front of a word, where no record can close. *)
Lemma lazy_tail (more rest : list ascii) (c : captures) :
  Spec.more_words more ->
  Spec.stops Char.is_alpha rest ->
  exists dead others,
    run (Star false (Seq (plus Pattern.blank) (plus Pattern.alpha)))
        (more ++ rest) c
    = dead ++ (rest, c) :: others
    /\ Forall (fun d : thread =>
                 forall c', run Pattern.terminator (fst d) c' = []) dead.
Proof.
  intros Hm Hrest. induction Hm as [|sep w m Hsep Asep Hw Aw Hm IH].
  - exists [].
    destruct (first_Star_lazy
                (Seq (plus Pattern.blank) (plus Pattern.alpha)) rest c)
      as [others Ho].
    exists others. split; [exact Ho|constructor].
  - destruct IH as (dead & others & Hrun & Hdead).
    destruct (first_body sep w (m ++ rest) c Hsep Asep Hw Aw
                (more_words_stops m rest Hm Hrest)) as [l1 H1].
    rewrite <- !app_assoc. rewrite run_Star, star_loop_S, H1.
    cbn [flat_map fst snd].
    assert (Hlt : List.length (m ++ rest)
                  < List.length (sep ++ w ++ m ++ rest)).
    { rewrite !length_app. destruct sep; [congruence|]. simpl. lia. }
    apply Nat.ltb_lt in Hlt. rewrite Hlt. apply Nat.ltb_lt in Hlt.
    rewrite (star_loop_fuel _ _ (List.length (sep ++ w ++ m ++ rest))
               (S (List.length (m ++ rest)))) by lia.
    rewrite <- run_Star, Hrun.
    eexists ((sep ++ w ++ m ++ rest, c) :: dead), _. split.
    + cbn [app]. rewrite <- app_assoc. reflexivity.
    + constructor; [|exact Hdead]. intros c'. cbn [fst].
      destruct w as [|a w]; [congruence|]. inversion Aw; subst.
      now apply terminator_dead.
Qed.

Lemma run_Group (n : nat) (r : regex) (s : list ascii) (c : captures) :
  run (Group n r) s c
  = map (fun t : thread => (fst t, (n, consumed s (fst t)) :: snd t))
        (run r s c).
Proof. reflexivity. Qed.

Lemma flat_map_dead {A B : Type} (f : A -> list B) (dead : list A) (x : A)
    (l : list A) :
  Forall (fun d => f d = []) dead ->
  flat_map f (dead ++ x :: l) = f x ++ flat_map f l.
Proof.
  induction 1 as [|d dead Hd _ IH]; [reflexivity|].
  cbn [app flat_map]. now rewrite Hd, IH.
Qed.

(** The lazy third field takes every word up to the place where the
    record closes. *)
Lemma first_bit (t rest : list ascii) (c : captures) :
  Spec.name_chars t ->
  Spec.ends rest ->
  Spec.first (Seq (Group 3 (Pattern.words false)) Pattern.terminator)
    (t ++ rest) c (rest, (3, t) :: c).
Proof.
  intros (w & more & -> & Hw & Aw & Hm) Hends.
  pose proof (ends_stops_alpha rest Hends) as Hrest.
  destruct (lazy_tail more rest c Hm Hrest) as (dead & others & Hrun & Hdead).
  destruct (first_plus_class Char.is_alpha w (more ++ rest) c Hw Aw
              (more_words_stops more rest Hm Hrest)) as [l0 H0].
  destruct (first_terminator rest ((3, w ++ more) :: c) Hends) as [l3 H3].
  assert (Hwords : exists others2,
            run (Pattern.words false) ((w ++ more) ++ rest) c
            = dead ++ (rest, c) :: others2).
  { unfold Pattern.words. rewrite run_Seq.
    replace ((w ++ more) ++ rest) with (w ++ more ++ rest)
      by apply app_assoc.
    change (Chr Char.is_alpha) with Pattern.alpha in H0.
    rewrite H0. cbn [flat_map fst snd].
    rewrite Hrun, <- app_assoc. eexists. reflexivity. }
  destruct Hwords as [others2 Hwords].
  unfold Spec.first. rewrite run_Seq, run_Group, Hwords, map_app.
  cbn [map]. rewrite flat_map_dead.
  - cbn [fst snd]. rewrite consumed_app, H3. cbn [app].
    eexists. reflexivity.
  - apply Forall_map. revert Hdead. apply Forall_impl.
    intros d Hd. cbn [fst snd]. apply Hd.
Qed.

(** On a record that ends where a record may close, the pattern commits
    to the match that takes the whole record, whatever the number of words
    in its two names. *)
Lemma first_named_record (b ws n1 n2 t rest : list ascii) :
  Spec.name_chars b ->
  ws <> [] -> Forall (fun a => Char.is_blank a = true) ws ->
  n1 <> [] -> Forall (fun a => Char.is_digit a = true) n1 ->
  n2 <> [] -> Forall (fun a => Char.is_digit a = true) n2 ->
  Spec.name_chars t ->
  Spec.ends rest ->
  Spec.first Pattern.pattern
    (b ++ ws ++ (n1 ++ "-"%char :: n2) ++ t ++ rest) []
    (rest, [(3, t); (2, n1 ++ "-"%char :: n2); (1, b)]).
Proof.
  intros Nb Hws Aws Hn1 An1 Hn2 An2 Nt Hends.
  set (s3 := t ++ rest).
  set (s2 := (n1 ++ "-"%char :: n2) ++ s3).
  set (s1 := ws ++ s2).
  assert (Hd1 : exists d x, n1 = d :: x /\ Char.is_digit d = true).
  { destruct n1 as [|d x]; [congruence|]. inversion An1; subst. eauto. }
  destruct Hd1 as (d & x & Hn1' & Hd).
  assert (Hs2 : s2 = d :: (x ++ "-"%char :: n2) ++ s3)
    by (unfold s2; rewrite Hn1'; reflexivity).
  assert (Ha1 : exists a y, t = a :: y /\ Char.is_alpha a = true).
  { destruct Nt as (w & more & -> & Hw & Aw & _).
    destruct w as [|a y]; [congruence|]. inversion Aw; subst.
    exists a, (y ++ more). now split. }
  destruct Ha1 as (a & y & Ht' & Ha).
  assert (Hs3 : s3 = a :: y ++ rest) by (unfold s3; rewrite Ht'; reflexivity).
  unfold Pattern.pattern.
  eapply first_Seq.
  { apply first_Group. apply (first_name_greedy b s1 []); try assumption.
    - unfold s1. destruct ws as [|w0 ws']; [congruence|].
      inversion Aws; subst. simpl. now apply blank_not_alpha.
    - unfold s1. apply words_body_dead; try assumption.
      + rewrite Hs2. simpl. now apply digit_not_blank.
      + rewrite Hs2. simpl. now apply digit_not_alpha. }
  cbn [fst snd]. fold s1. rewrite consumed_app.
  eapply first_Seq.
  { unfold s1. apply first_plus_class; try assumption.
    rewrite Hs2. simpl. now apply digit_not_blank. }
  cbn [fst snd].
  eapply first_Seq.
  { apply first_Group. unfold Pattern.ratio. eapply first_Seq.
    - unfold s2. rewrite <- app_assoc.
      apply (first_plus_class Char.is_digit n1); try assumption.
      simpl. reflexivity.
    - cbn [fst snd]. eapply first_Seq.
      + change (("-"%char :: n2) ++ s3) with ("-"%char :: (n2 ++ s3)).
        exists []. reflexivity.
      + cbn [fst snd].
        apply (first_plus_class Char.is_digit n2); try assumption.
        rewrite Hs3. simpl. now apply alpha_not_digit. }
  cbn [fst snd]. unfold s2 at 1. rewrite consumed_app.
  unfold s3. now apply first_bit.
Qed.

Lemma name_chars_nonempty (b : list ascii) : Spec.name_chars b -> b <> [].
Proof.
  intros (w & more & -> & Hw & _). destruct w; [congruence|discriminate].
Qed.

Lemma scan_two_named_records
    (b1 ws1 n1 n2 t1 pad gap b2 ws2 n3 n4 t2 : list ascii) (term : ascii) :
  Spec.name_chars b1 ->
  ws1 <> [] -> Forall (fun a => Char.is_blank a = true) ws1 ->
  n1 <> [] -> Forall (fun a => Char.is_digit a = true) n1 ->
  n2 <> [] -> Forall (fun a => Char.is_digit a = true) n2 ->
  Spec.name_chars t1 ->
  Forall (fun a => Char.is_space a = true) pad ->
  Spec.is_terminator term = true ->
  Forall (fun a => Char.is_alpha a = false) gap ->
  Spec.name_chars b2 ->
  ws2 <> [] -> Forall (fun a => Char.is_blank a = true) ws2 ->
  n3 <> [] -> Forall (fun a => Char.is_digit a = true) n3 ->
  n4 <> [] -> Forall (fun a => Char.is_digit a = true) n4 ->
  Spec.name_chars t2 ->
  let text :=
    b1 ++ ws1 ++ n1 ++ "-"%char :: n2 ++ t1 ++ pad ++ term :: gap
       ++ b2 ++ ws2 ++ n3 ++ "-"%char :: n4 ++ t2 in
  scan Pattern.pattern (S (List.length text)) text
  = [[(3, t1); (2, n1 ++ "-"%char :: n2); (1, b1)];
     [(3, t2); (2, n3 ++ "-"%char :: n4); (1, b2)]].
Proof.
  intros Nb1 Hws1 Aws1 Hn1 An1 Hn2 An2 Nt1 Apad Hterm Agap
         Nb2 Hws2 Aws2 Hn3 An3 Hn4 An4 Nt2 text.
  set (rec2 := b2 ++ ws2 ++ (n3 ++ "-"%char :: n4) ++ t2 ++ []).
  set (rest := pad ++ term :: (gap ++ rec2)).
  assert (Htext : text = b1 ++ ws1 ++ (n1 ++ "-"%char :: n2) ++ t1 ++ rest).
  { unfold text, rest, rec2. rewrite app_nil_r.
    rewrite <- !app_assoc. reflexivity. }
  assert (Hends : Spec.ends rest).
  { right. exists pad, term, (gap ++ rec2). auto. }
  pose proof (name_chars_nonempty b1 Nb1) as Hb1.
  pose proof (name_chars_nonempty b2 Nb2) as Hb2.
  rewrite Htext.
  rewrite (scan_match _ _ rest _
             (first_named_record b1 ws1 n1 n2 t1 rest Nb1 Hws1 Aws1 Hn1 An1
                Hn2 An2 Nt1 Hends)).
  2:{ rewrite !length_app. destruct b1; [congruence|]. simpl. lia. }
  f_equal.
  assert (Hrest : rest = (pad ++ term :: gap) ++ rec2).
  { unfold rest. rewrite <- app_assoc. reflexivity. }
  rewrite Hrest, scan_gap.
  2:{ apply Forall_app. split.
      - revert Apad. apply Forall_impl. intros a. apply space_not_alpha.
      - constructor; [now apply terminator_not_alpha|assumption]. }
  unfold rec2.
  rewrite (scan_match _ _ [] _
             (first_named_record b2 ws2 n3 n4 t2 [] Nb2 Hws2 Aws2 Hn3 An3
                Hn4 An4 Nt2 (or_introl eq_refl))).
  2:{ rewrite !length_app. destruct b2; [congruence|]. simpl. lia. }
  reflexivity.
Qed.

End NameFacts.

(** C1, amended.  Two records on one line, each made of a name of one or
    more words, blanks, a ratio and a bit of one or more words, where the
    first record is followed by optional white space and a comma or an
    opening parenthesis (or a line break) and no letter stands between
    that terminator and the second record.  The pattern finds exactly two
    matches, one per record.  Without a translation table the extractor
    yields exactly two triples, one per record: its name, its ratio and
    its bit, with spaces removed.  With a table it yields the same two
    triples with each bit translated, provided each translated bit, once
    its spaces are removed, is not empty and holds no line break. *)
Theorem terminated_records_yield_two_triples
    (b1 ws1 n1 n2 t1 pad gap b2 ws2 n3 n4 t2 : string) (term : ascii)
    (translations : dict) :
  Spec.is_name b1 = true -> Spec.is_blanks ws1 = true ->
  Spec.is_number n1 = true -> Spec.is_number n2 = true ->
  Spec.is_name t1 = true ->
  Spec.is_padding pad = true -> Spec.is_terminator term = true ->
  Spec.is_gap gap = true ->
  Spec.is_name b2 = true -> Spec.is_blanks ws2 = true ->
  Spec.is_number n3 = true -> Spec.is_number n4 = true ->
  Spec.is_name t2 = true ->
  let text :=
    (b1 ++ ws1 ++ n1 ++ "-" ++ n2 ++ t1 ++ pad ++ String term gap
        ++ b2 ++ ws2 ++ n3 ++ "-" ++ n4 ++ t2)%string in
  let bit (t : string) := Str.remove_spaces (translate_suffix t translations) in
  Re.findall3 Pattern.pattern text
  = [(b1, n1 ++ "-" ++ n2, t1); (b2, n3 ++ "-" ++ n4, t2)]%string
  /\ extract_soup (Spec.single_post text) None
     = [(Str.remove_spaces b1, n1 ++ "-" ++ n2, Str.remove_spaces t1);
        (Str.remove_spaces b2, n3 ++ "-" ++ n4, Str.remove_spaces t2)]%string
  /\ (Spec.clean (bit t1) = true -> Spec.clean (bit t2) = true ->
      extract_soup (Spec.single_post text) (Some translations)
      = [(Str.remove_spaces b1, n1 ++ "-" ++ n2, bit t1);
         (Str.remove_spaces b2, n3 ++ "-" ++ n4, bit t2)]%string).
Proof.
  intros Hb1 Hws1 Hn1 Hn2 Ht1 Hpad Hterm Hgap Hb2 Hws2 Hn3 Hn4 Ht2 text bit.
  assert (Hfind : Re.findall3 Pattern.pattern text
            = [(b1, n1 ++ "-" ++ n2, t1); (b2, n3 ++ "-" ++ n4, t2)]%string).
  { pose proof (name_chars_of_string _ Hb1) as Nb1.
    destruct (blanks_parts _ Hws1) as (Lws1 & Aws1).
    destruct (number_parts _ Hn1) as (Ln1 & An1 & _).
    destruct (number_parts _ Hn2) as (Ln2 & An2 & _).
    pose proof (name_chars_of_string _ Ht1) as Nt1.
    pose proof (name_chars_of_string _ Hb2) as Nb2.
    destruct (blanks_parts _ Hws2) as (Lws2 & Aws2).
    destruct (number_parts _ Hn3) as (Ln3 & An3 & _).
    destruct (number_parts _ Hn4) as (Ln4 & An4 & _).
    pose proof (name_chars_of_string _ Ht2) as Nt2.
    unfold Spec.is_padding in Hpad. rewrite negb_true_iff in Hpad.
    apply all_Forall in Hpad.
    unfold Spec.is_gap in Hgap. rewrite negb_true_iff in Hgap.
    apply none_Forall in Hgap.
    unfold Re.findall3, text.
    repeat (rewrite list_of_string_app;
            cbn [list_ascii_of_string String.append app]).
    rewrite (scan_two_named_records _ _ _ _ _ _ _ _ _ _ _ _ term
               Nb1 Lws1 Aws1 Ln1 An1 Ln2 An2 Nt1 Hpad Hterm Hgap
               Nb2 Lws2 Aws2 Ln3 An3 Ln4 An4 Nt2).
    cbn [map Re.group Nat.eqb].
    rewrite !string_of_list_app. cbn [string_of_list_ascii].
    rewrite !string_of_list_ascii_of_string. reflexivity. }
  destruct (ratio_solid _ _ Hn1 Hn2) as (Tr1 & Sr1).
  destruct (ratio_solid _ _ Hn3 Hn4) as (Tr2 & Sr2).
  assert (Hparts : forall table,
    map (Spec.parts table) (Re.findall3 Pattern.pattern text)
    = [(Str.remove_spaces b1, n1 ++ "-" ++ n2,
        Str.remove_spaces (translate_suffix t1 table));
       (Str.remove_spaces b2, n3 ++ "-" ++ n4,
        Str.remove_spaces (translate_suffix t2 table))]%string).
  { intros table. rewrite Hfind. cbn [map Spec.parts].
    rewrite (name_strip b1), (name_strip t1), (name_strip b2),
      (name_strip t2) by assumption.
    rewrite (strip_solid (n1 ++ "-" ++ n2)), (strip_solid (n3 ++ "-" ++ n4))
      by assumption.
    rewrite (remove_spaces_solid (n1 ++ "-" ++ n2)),
      (remove_spaces_solid (n3 ++ "-" ++ n4)) by assumption.
    reflexivity. }
  split; [exact Hfind|]. split.
  - rewrite extract_soup_blocks.
    cbn [Spec.blocks Spec.single_post post_bodies flat_map].
    rewrite Hparts, app_nil_r, !translate_suffix_empty.
    cbn [filter Spec.valid].
    rewrite (name_clean b1), (name_clean t1), (name_clean b2),
      (name_clean t2) by assumption.
    rewrite (clean_solid (n1 ++ "-" ++ n2)), (clean_solid (n3 ++ "-" ++ n4))
      by assumption.
    reflexivity.
  - intros Hc1 Hc2. rewrite extract_soup_blocks.
    cbn [Spec.blocks Spec.single_post post_bodies flat_map].
    rewrite Hparts, app_nil_r. cbn [filter Spec.valid]. fold (bit t1) (bit t2).
    rewrite (name_clean b1), (name_clean b2) by assumption.
    rewrite (clean_solid (n1 ++ "-" ++ n2)), (clean_solid (n3 ++ "-" ++ n4))
      by assumption.
    rewrite Hc1, Hc2. reflexivity.
Qed.

Lemma terminated_records_yield_two_triples_witness :
  Re.findall3 Pattern.pattern
    "Phoenix Wing 1-60R , Wizard Rod 1-60Low Rush"
  = [("Phoenix Wing", "1-60", "R");
     ("Wizard Rod", "1-60", "Low Rush")]%string
  /\ extract_soup
       (Spec.single_post "Phoenix Wing 1-60R , Wizard Rod 1-60Low Rush")
       None
     = [("PhoenixWing", "1-60", "R");
        ("WizardRod", "1-60", "LowRush")]%string
  /\ (Spec.clean "Rush" = true -> Spec.clean "LowRush" = true ->
      extract_soup
        (Spec.single_post "Phoenix Wing 1-60R , Wizard Rod 1-60Low Rush")
        (Some [("R", "Rush")]%string)
      = [("PhoenixWing", "1-60", "Rush");
         ("WizardRod", "1-60", "LowRush")]%string).
Proof.
  apply (terminated_records_yield_two_triples
           "Phoenix Wing" " " "1" "60" "R" " " " " "Wizard Rod" " " "1" "60"
           "Low Rush" ","%char [("R", "Rush")]%string);
    reflexivity.
Defined.
